(** * A shallow embedding of the Flappy-Bird state engine (RxJS + TypeScript)

    The pure core of the game is embedded function by function: the seeded
    generator [RNG], the hitbox helpers, [handleCollisions], the three
    reducers [tick], [flapR] and [spawnPipe], the schedule parser
    [parseMapCsv] and the [scan] that folds reducers into states.  Of the
    view, the two renderers with logic of their own are embedded over an
    explicit document: the ghost replay of [makeRenderGhosts] and the pipe
    rectangles of [makeSyncPipes]; so is the [tap] that feeds the ghost
    store.

    Numbers.  Every TypeScript [number] is an IEEE double.  The fields that
    only ever hold integers ([lives], [score], [nextId], pipe [id],
    [totalPipesPlanned], [timeMs]) are modelled by [Z].  A [seed] is an
    integer or, once a product inside [RNG.hash] has left the range of the
    doubles, [NaN] ([Seed.t]); that product exceeds 2^53, so the rounding of
    doubles and their overflow are written out there ([round53]).
    Positions, velocities and gap geometry are modelled by [number]: exact
    rationals extended with [NaN] and the two infinities, so that a
    malformed schedule field can flow through the arithmetic and the
    comparisons the way it does in the source.  The schedule parser is
    modelled to the double: the conversion of a string and the products of
    [parseLine] round to the nearest double ([Num.double], [Num.round]).
    [randInRange], whose bounds are arguments, overflows to an infinity
    ([Num.range]).  Elsewhere the rounding of fractional results and the
    sign of zero are not modelled. *)

From Stdlib Require Import String Ascii.
From Stdlib Require Import ZArith QArith Qabs Lia Lqa List Bool.
Import ListNotations.

Local Open Scope Z_scope.

(** ** JavaScript numbers *)

Module Num.

Inductive number : Type :=
| NaN
| Inf (neg : bool)
| Fin (q : Q).

Definition Qltb (a b : Q) : bool := negb (Qle_bool b a).

Definition qneg (q : Q) : bool := Qltb q 0.

Definition qzero (q : Q) : bool := Qeq_bool q 0.

(** [a + b] *)
Definition add (a b : number) : number :=
  match a, b with
  | NaN, _ | _, NaN => NaN
  | Inf s, Inf t => if Bool.eqb s t then Inf s else NaN
  | Inf s, Fin _ | Fin _, Inf s => Inf s
  | Fin p, Fin q => Fin (p + q)
  end.

(** unary minus *)
Definition neg (a : number) : number :=
  match a with
  | NaN => NaN
  | Inf s => Inf (negb s)
  | Fin q => Fin (- q)
  end.

(** [a - b] *)
Definition sub (a b : number) : number := add a (neg b).

(** [a * b] *)
Definition mul (a b : number) : number :=
  match a, b with
  | NaN, _ | _, NaN => NaN
  | Inf s, Inf t => Inf (xorb s t)
  | Inf s, Fin q | Fin q, Inf s => if qzero q then NaN else Inf (xorb s (qneg q))
  | Fin p, Fin q => Fin (p * q)
  end.

(** [a / b] *)
Definition div (a b : number) : number :=
  match a, b with
  | NaN, _ | _, NaN => NaN
  | Inf _, Inf _ => NaN
  | Inf s, Fin q => Inf (xorb s (qneg q))
  | Fin _, Inf _ => Fin 0
  | Fin p, Fin q =>
      if qzero q then (if qzero p then NaN else Inf (qneg p))
      else Fin (p / q)
  end.

(** [a < b]; every comparison with [NaN] is false *)
Definition lt (a b : number) : bool :=
  match a, b with
  | NaN, _ | _, NaN => false
  | Inf s, Inf t => s && negb t
  | Inf s, Fin _ => s
  | Fin _, Inf t => negb t
  | Fin p, Fin q => Qltb p q
  end.

(** [a > b] *)
Definition gt (a b : number) : bool := lt b a.

(** [a <= b] *)
Definition le (a b : number) : bool :=
  match a, b with
  | NaN, _ | _, NaN => false
  | Inf s, Inf t => s || negb t
  | Inf s, Fin _ => s
  | Fin _, Inf t => negb t
  | Fin p, Fin q => Qle_bool p q
  end.

(** [a === b] on numbers *)
Definition seq (a b : number) : bool :=
  match a, b with
  | Inf s, Inf t => Bool.eqb s t
  | Fin p, Fin q => Qeq_bool p q
  | _, _ => false
  end.

(** [Math.max(a, b)] *)
Definition max (a b : number) : number :=
  match a, b with
  | NaN, _ | _, NaN => NaN
  | _, _ => if lt a b then b else a
  end.

(** [Math.min(a, b)] *)
Definition min (a b : number) : number :=
  match a, b with
  | NaN, _ | _, NaN => NaN
  | _, _ => if lt b a then b else a
  end.

(** [Math.abs(a)] *)
Definition abs (a : number) : number :=
  match a with
  | NaN => NaN
  | Inf _ => Inf false
  | Fin q => Fin (Qabs q)
  end.

Definition ofZ (z : Z) : number := Fin (inject_Z z).

(** The least magnitude that rounds to an infinity, [2^1024 - 2^970]:
    halfway between the largest double and [2^1024]. *)
Definition HUGE : Z := 2 ^ 1024 - 2 ^ 970.

(** [|n / d|] is at least [HUGE]. *)
Definition huge (q : Q) : bool := HUGE * Zpos (Qden q) <=? Z.abs (Qnum q).

(** A result that has left the range of the doubles is an infinity. *)
Definition range (a : number) : number :=
  match a with
  | Fin q => if huge q then Inf (qneg q) else a
  | _ => a
  end.

(** The double nearest to a rational, ties to even.  With [e] the binary
    exponent of [|q|], the last place is [2^k] for [k = max e (-1022) - 52];
    [t] counts the last places in [|q|], rounded. *)
Definition double (q : Q) : number :=
  let n := Z.abs (Qnum q) in
  let d := Zpos (Qden q) in
  if n =? 0 then Fin 0
  else if huge q then Inf (qneg q)
  else
    let e0 := Z.log2 n - Z.log2 d in
    let e := if n * 2 ^ Z.max 0 (- e0) <? d * 2 ^ Z.max 0 e0
             then e0 - 1 else e0 in
    let k := Z.max e (-1022) - 52 in
    let num := n * 2 ^ Z.max 0 (- k) in
    let den := d * 2 ^ Z.max 0 k in
    let t := num / den in
    let r := num mod den in
    let t' :=
      if 2 * r <? den then t
      else if den <? 2 * r then t + 1
      else if Z.even t then t else t + 1 in
    Fin (Qred (inject_Z (Z.sgn (Qnum q) * t') * Qpower 2 k)).

(** The double an arithmetic result is rounded to. *)
Definition round (a : number) : number :=
  match a with
  | Fin q => double q
  | _ => a
  end.

(** A number is finite and lies between two rationals. *)
Definition within (lo hi : Q) (a : number) : Prop :=
  match a with
  | Fin q => (lo <= q /\ q <= hi)%Q
  | _ => False
  end.

End Num.

Import Num.

Declare Scope num_scope.
Delimit Scope num_scope with num.
Bind Scope num_scope with number.
Infix "+" := Num.add : num_scope.
Infix "-" := Num.sub : num_scope.
Infix "*" := Num.mul : num_scope.
Infix "/" := Num.div : num_scope.
Infix "<?" := Num.lt : num_scope.
Infix ">?" := Num.gt (at level 70) : num_scope.
Infix "<=?" := Num.le : num_scope.
Infix "===" := Num.seq (at level 70) : num_scope.

(** ** Constants *)

Module Viewport.
Definition CANVAS_WIDTH : Z := 600.
Definition CANVAS_HEIGHT : Z := 400.
End Viewport.

Module bird.
Definition WIDTH : Z := 42.
Definition HEIGHT : Z := 30.
End bird.

Module Constants.
Definition PIPE_WIDTH : Z := 50.
Definition PIPE_SPEED_PX_S : Z := 150.
Definition TICK_RATE_MS : Z := 16.
End Constants.

Module Physics.
Definition GRAVITY : Z := 1200.
Definition FLAP_VELOCITY : Z := -350.
Definition TERMINAL_VEL : Z := 600.
Definition BOUNCE_MIN : Z := 220.
Definition BOUNCE_MAX : Z := 420.
End Physics.

(** ** Data types *)

Module Vec.
Record t : Type := mk { x : number; y : number }.
End Vec.

Module Bird.
Record t : Type := mk { pos : Vec.t; velY : number }.
End Bird.

Module Pipe.
Record t : Type := mk {
  id : Z;
  x : number;
  gapY : number;
  gapH : number;
  passed : bool
}.
End Pipe.

Module SpawnSpec.
Record t : Type := mk { gapY : number; gapH : number; timeMs : number }.
End SpawnSpec.

Module Hitbox.
Record t : Type := mk {
  left : number;
  right : number;
  top : number;
  bottom : number
}.
End Hitbox.

(** The values of a [seed]: the integer a run starts with and the
    integers [RNG.hash] returns, or [NaN], which [RNG.hash] returns where
    its product has left the range of the doubles. *)
Module Seed.
Inductive t : Type :=
| NaN
| Int (z : Z).

Definition toNumber (seed : t) : number :=
  match seed with
  | NaN => Num.NaN
  | Int z => ofZ z
  end.
End Seed.

Coercion Seed.Int : Z >-> Seed.t.

Module CollisionOutcome.
Record t : Type := mk {
  y : number;
  vy : number;
  seed : Seed.t;
  collided : bool
}.
End CollisionOutcome.

Definition Trace : Type := list Vec.t.
Definition GhostList : Type := list Trace.

Module State.
Record t : Type := mk {
  timeMs : Z;
  gameEnd : bool;
  bird : Bird.t;
  pipes : list Pipe.t;
  lives : Z;
  score : Z;
  nextId : Z;
  seed : Seed.t;
  totalPipesPlanned : Z;
  ghosts : GhostList;
  trace : Trace
}.
End State.

(** ** The seeded generator *)

Module RNG.

Definition m : Z := 0x80000000.
Definition a : Z := 1103515245.
Definition c : Z := 12345.

(** An integer cut to its 53 leading bits, ties to even: integers below
    2^53 are kept. *)
Definition nearest (z : Z) : Z :=
  let n := Z.abs z in
  if n <? 2 ^ 53 then z
  else
    let k := Z.log2 n - 52 in
    let q := Z.shiftr n k in
    let r := n - Z.shiftl q k in
    let half := Z.shiftl 1 (k - 1) in
    let q' :=
      if r <? half then q
      else if half <? r then q + 1
      else if Z.even q then q else q + 1 in
    Z.sgn z * Z.shiftl q' k.

(** The double nearest to an integer, when that double is finite: from
    [Num.HUGE] on the result is an infinity, [None] here. *)
Definition round53 (z : Z) : option Z :=
  if Num.HUGE <=? Z.abs z then None else Some (nearest z).

(** [(RNG.a * seed + RNG.c) % RNG.m]: a double product, a double sum and
    the remainder that takes the sign of the dividend.  With [NaN] for
    [seed] all three are [NaN]; where the product or the sum is an infinity
    the remainder is [NaN]. *)
Definition hash (seed : Seed.t) : Seed.t :=
  match seed with
  | Seed.NaN => Seed.NaN
  | Seed.Int z =>
      match round53 (a * z) with
      | None => Seed.NaN
      | Some p =>
          match round53 (p + c) with
          | None => Seed.NaN
          | Some t => Seed.Int (Z.rem t m)
          end
      end
  end.

(** [(2 * hash) / (RNG.m - 1) - 1] *)
Definition scale (hash : number) : number :=
  ((ofZ 2 * hash) / ofZ (m - 1) - ofZ 1)%num.

End RNG.

Module Rand01.
Record t : Type := mk { nextSeed : Seed.t; r01 : number }.
End Rand01.

Module RandInRange.
Record t : Type := mk { nextSeed : Seed.t; value : number }.
End RandInRange.

Definition rand01 (seed : Seed.t) : Rand01.t :=
  let h := RNG.hash seed in
  let r01 := ((RNG.scale (Seed.toNumber h) + ofZ 1) / ofZ 2)%num in
  Rand01.mk h r01.

(** [lo + r01 * (hi - lo)]: the difference, the product and the sum each
    overflow to an infinity when they leave the range of the doubles. *)
Definition randInRange (seed : Seed.t) (lo hi : number) : RandInRange.t :=
  let r := rand01 seed in
  RandInRange.mk (Rand01.nextSeed r)
    (Num.range (lo + Num.range (Rand01.r01 r * Num.range (hi - lo))))%num.

(** ** Collision detection utilities *)

Definition birdHitbox (x y : number) : Hitbox.t :=
  Hitbox.mk
    (x - ofZ bird.WIDTH / ofZ 2)%num
    (x + ofZ bird.WIDTH / ofZ 2)%num
    (y - ofZ bird.HEIGHT / ofZ 2)%num
    (y + ofZ bird.HEIGHT / ofZ 2)%num.

Definition pipeTopHitbox (p : Pipe.t) : Hitbox.t :=
  Hitbox.mk
    (Pipe.x p)
    (Pipe.x p + ofZ Constants.PIPE_WIDTH)%num
    (ofZ 0)
    (Pipe.gapY p - Pipe.gapH p / ofZ 2)%num.

Definition pipeBottomHitbox (p : Pipe.t) : Hitbox.t :=
  Hitbox.mk
    (Pipe.x p)
    (Pipe.x p + ofZ Constants.PIPE_WIDTH)%num
    (Pipe.gapY p + Pipe.gapH p / ofZ 2)%num
    (ofZ Viewport.CANVAS_HEIGHT).

Definition overlaps (a b : Hitbox.t) : bool :=
  (Hitbox.left a <? Hitbox.right b)%num &&
  (Hitbox.right a >? Hitbox.left b)%num &&
  (Hitbox.top a <? Hitbox.bottom b)%num &&
  (Hitbox.bottom a >? Hitbox.top b)%num.

(** ** Initial state and pure reducers *)

(** [initialState]; its [seed] is [Math.floor(Math.random() * 0x7fffffff)],
    taken here as the argument [seed0]. *)
Definition initialState (seed0 : Z) : State.t :=
  State.mk
    0
    false
    (Bird.mk
       (Vec.mk (ofZ Viewport.CANVAS_WIDTH * Fin (3 # 10))%num
               (ofZ Viewport.CANVAS_HEIGHT / ofZ 2)%num)
       (ofZ 0))
    []
    3
    0
    1
    seed0
    0
    []
    [].

(** The local constants of [handleCollisions], in the order of the source. *)
Module Step.

Definition dt : number := (ofZ Constants.TICK_RATE_MS / ofZ 1000)%num.

Definition vy (s : State.t) : number :=
  Num.max (Num.neg (ofZ Physics.TERMINAL_VEL))
    (Num.min (ofZ Physics.TERMINAL_VEL)
       (Bird.velY (State.bird s) + ofZ Physics.GRAVITY * dt)%num).

Definition yNextRaw (s : State.t) : number :=
  (Vec.y (Bird.pos (State.bird s)) + vy s * dt)%num.

Definition minY : number := (ofZ bird.HEIGHT / ofZ 2)%num.

Definition maxY : number :=
  (ofZ Viewport.CANVAS_HEIGHT - ofZ bird.HEIGHT / ofZ 2)%num.

Definition yClamped (s : State.t) : number :=
  Num.max minY (Num.min maxY (yNextRaw s)).

Definition birdRect (s : State.t) : Hitbox.t :=
  birdHitbox (Vec.x (Bird.pos (State.bird s))) (yClamped s).

Definition hitTop (s : State.t) : bool := (yNextRaw s <? minY)%num.

Definition hitBottom (s : State.t) : bool := (yNextRaw s >? maxY)%num.

Definition hitPipeTop (s : State.t) : bool :=
  existsb (fun p => overlaps (birdRect s) (pipeTopHitbox p)) (State.pipes s).

Definition hitPipeBottom (s : State.t) : bool :=
  existsb (fun p => overlaps (birdRect s) (pipeBottomHitbox p))
    (State.pipes s).

Definition collided (s : State.t) : bool :=
  hitTop s || hitBottom s || hitPipeTop s || hitPipeBottom s.

Record Bounce : Type := mkBounce { b_vy : number; b_seed : Seed.t }.

(** [bounce(dir)], with [dir] one of [1] and [-1] *)
Definition bounce (s : State.t) (dir : Z) : Bounce :=
  let r :=
    randInRange (State.seed s)
      (ofZ Physics.BOUNCE_MIN) (ofZ Physics.BOUNCE_MAX) in
  mkBounce (ofZ dir * Num.abs (RandInRange.value r))%num
           (RandInRange.nextSeed r).

Definition stoppedVy (s : State.t) : number :=
  if ((yClamped s === minY)%num && (vy s <? ofZ 0)%num)
     || ((yClamped s === maxY)%num && (vy s >? ofZ 0)%num)
  then ofZ 0 else vy s.

End Step.

Definition handleCollisions (s : State.t) : CollisionOutcome.t :=
  let collided := Step.collided s in
  if Step.hitTop s then
    let b := Step.bounce s 1 in
    CollisionOutcome.mk Step.minY (Step.b_vy b) (Step.b_seed b) collided
  else if Step.hitBottom s then
    let b := Step.bounce s (-1) in
    CollisionOutcome.mk Step.maxY (Step.b_vy b) (Step.b_seed b) collided
  else if Step.hitPipeTop s then
    let b := Step.bounce s 1 in
    CollisionOutcome.mk
      (Num.min (Step.yClamped s + ofZ 1)%num Step.maxY)
      (Step.b_vy b) (Step.b_seed b) collided
  else if Step.hitPipeBottom s then
    let b := Step.bounce s (-1) in
    CollisionOutcome.mk
      (Num.max (Step.yClamped s - ofZ 1)%num Step.minY)
      (Step.b_vy b) (Step.b_seed b) collided
  else
    CollisionOutcome.mk (Step.yClamped s) (Step.stoppedVy s) (State.seed s)
      collided.

Definition spawnPipe (spec : SpawnSpec.t) (s : State.t) : State.t :=
  let p :=
    Pipe.mk (State.nextId s) (ofZ Viewport.CANVAS_WIDTH)
      (SpawnSpec.gapY spec) (SpawnSpec.gapH spec) false in
  State.mk (State.timeMs s) (State.gameEnd s) (State.bird s)
    (State.pipes s ++ [p])
    (State.lives s) (State.score s) (State.nextId s + 1) (State.seed s)
    (State.totalPipesPlanned s) (State.ghosts s) (State.trace s).

(** The pieces of [tick] that work on the pipes. *)
Module Pipes.

(** [{ ...p, x: p.x - PIPE_SPEED_PX_S * dt }] *)
Definition move (p : Pipe.t) : Pipe.t :=
  Pipe.mk (Pipe.id p)
    (Pipe.x p - ofZ Constants.PIPE_SPEED_PX_S * Step.dt)%num
    (Pipe.gapY p) (Pipe.gapH p) (Pipe.passed p).

(** [p.x > -PIPE_WIDTH] *)
Definition onScreen (p : Pipe.t) : bool :=
  (Pipe.x p >? Num.neg (ofZ Constants.PIPE_WIDTH))%num.

Definition birdLeft (s : State.t) : number :=
  (Vec.x (Bird.pos (State.bird s)) - ofZ bird.WIDTH / ofZ 2)%num.

(** [new Set(s.pipes.filter(p => p.passed).map(p => p.id))] *)
Definition prevPassed (s : State.t) : list Z :=
  map Pipe.id (filter Pipe.passed (State.pipes s)).

(** [prevPassed.has(i)] *)
Definition has (set : list Z) (i : Z) : bool := existsb (Z.eqb i) set.

(** [p.passed || p.x + PIPE_WIDTH < birdLeft ? { ...p, passed: true } : p] *)
Definition mark (s : State.t) (p : Pipe.t) : Pipe.t :=
  if Pipe.passed p
     || (Pipe.x p + ofZ Constants.PIPE_WIDTH <? birdLeft s)%num
  then Pipe.mk (Pipe.id p) (Pipe.x p) (Pipe.gapY p) (Pipe.gapH p) true
  else p.

Definition moved (s : State.t) : list Pipe.t := map move (State.pipes s).

Definition kept (s : State.t) : list Pipe.t := filter onScreen (moved s).

Definition updatedPipes (s : State.t) : list Pipe.t :=
  map (mark s) (kept s).

Definition newlyPassedCount (s : State.t) : Z :=
  Z.of_nat
    (length
       (filter (fun p => Pipe.passed p && negb (has (prevPassed s) (Pipe.id p)))
          (updatedPipes s))).

End Pipes.

Definition tick (s : State.t) : State.t :=
  if State.gameEnd s then s
  else
    let col := handleCollisions s in
    let nextY := CollisionOutcome.y col in
    let nextVy := CollisionOutcome.vy col in
    let nextSeed := CollisionOutcome.seed col in
    let nextLives :=
      if CollisionOutcome.collided col
      then Z.max 0 (State.lives s - 1) else State.lives s in
    let updatedPipes := Pipes.updatedPipes s in
    let nextScore := State.score s + Pipes.newlyPassedCount s in
    let allPipesSpawned := State.nextId s - 1 >=? State.totalPipesPlanned s in
    let allPipesCleared := (length updatedPipes =? 0)%nat in
    let nextGameEnd :=
      (nextLives <=? 0) || (allPipesSpawned && allPipesCleared) in
    let birdX := Vec.x (Bird.pos (State.bird s)) in
    let nextTrace := State.trace s ++ [Vec.mk birdX nextY] in
    State.mk
      (State.timeMs s + Constants.TICK_RATE_MS)
      nextGameEnd
      (Bird.mk (Vec.mk birdX nextY) nextVy)
      updatedPipes
      nextLives
      nextScore
      (State.nextId s)
      nextSeed
      (State.totalPipesPlanned s)
      (State.ghosts s)
      nextTrace.

Definition flapR (s : State.t) : State.t :=
  State.mk (State.timeMs s) (State.gameEnd s)
    (Bird.mk (Bird.pos (State.bird s)) (ofZ Physics.FLAP_VELOCITY))
    (State.pipes s)
    (State.lives s) (State.score s) (State.nextId s) (State.seed s)
    (State.totalPipesPlanned s) (State.ghosts s) (State.trace s).

(** ** The state stream *)

(** The three sources merged by [state$], each emitting a reducer. *)
Inductive Event : Type :=
| Tick
| Flap
| Spawn (spec : SpawnSpec.t).

Definition reducer (e : Event) : State.t -> State.t :=
  match e with
  | Tick => tick
  | Flap => flapR
  | Spawn spec => spawnPipe spec
  end.

(** rxjs [scan] with a seed value: one accumulated value per input. *)
Fixpoint scan {A B : Type} (f : A -> B -> A) (acc : A) (xs : list B) : list A :=
  match xs with
  | [] => []
  | x :: xs' => let acc' := f acc x in acc' :: scan f acc' xs'
  end.

(** The seed value of the [scan] in [state$]: [initialState] with a fresh
    seed, the schedule length and the ghosts injected, and an empty trace. *)
Definition startState (seed0 : Z) (schedule : list SpawnSpec.t)
    (ghosts : GhostList) : State.t :=
  let i := initialState seed0 in
  State.mk (State.timeMs i) (State.gameEnd i) (State.bird i) (State.pipes i)
    (State.lives i) (State.score i) (State.nextId i)
    seed0
    (Z.of_nat (length schedule))
    ghosts
    [].

(** The states [state$] emits for a delivery order of the merged events. *)
Definition states (seed0 : Z) (schedule : list SpawnSpec.t)
    (ghosts : GhostList) (events : list Event) : list State.t :=
  scan (fun s r => r s) (startState seed0 schedule ghosts)
    (map reducer events).

(** ** Parsing the schedule *)

(** A JavaScript string: its UTF-16 code units. *)
Definition jsstring : Type := list N.

Module Str.

Local Open Scope N_scope.

Definition LF : N := 10.
Definition CR : N := 13.
Definition COMMA : N := 44.

(** The code units [String.prototype.trim] strips: WhiteSpace and
    LineTerminator of ECMAScript. *)
Definition isWhiteSpace (u : N) : bool :=
  (9 <=? u) && (u <=? 13)
  || (u =? 32) || (u =? 160) || (u =? 5760)
  || (8192 <=? u) && (u <=? 8202)
  || (u =? 8232) || (u =? 8233) || (u =? 8239) || (u =? 8287)
  || (u =? 12288) || (u =? 65279).

Fixpoint trimStart (s : jsstring) : jsstring :=
  match s with
  | [] => []
  | u :: s' => if isWhiteSpace u then trimStart s' else s
  end.

Definition trimEnd (s : jsstring) : jsstring := rev (trimStart (rev s)).

(** [s.trim()] *)
Definition trim (s : jsstring) : jsstring := trimEnd (trimStart s).

(** Puts [u] in front of the first piece. *)
Definition consFirst (u : N) (ps : list jsstring) : list jsstring :=
  match ps with
  | [] => [[u]]
  | p :: ps' => (u :: p) :: ps'
  end.

(** [s.split(/\r?\n/)]: a line ends at a line feed, and a carriage return
    right before that line feed belongs to the separator. *)
Fixpoint splitLines (s : jsstring) : list jsstring :=
  match s with
  | [] => [[]]
  | u :: s' =>
      if u =? LF then [] :: splitLines s'
      else if (u =? CR) && (match s' with v :: _ => v =? LF | [] => false end)
      then splitLines s'
      else consFirst u (splitLines s')
  end.

(** [s.split(",")] *)
Fixpoint splitComma (s : jsstring) : list jsstring :=
  match s with
  | [] => [[]]
  | u :: s' =>
      if u =? COMMA then [] :: splitComma s'
      else consFirst u (splitComma s')
  end.

(** [a.slice(1)] *)
Definition slice1 {A : Type} (a : list A) : list A := tl a.

End Str.

Section ParseMapCsv.

(** The conversion [Number] applies to a string (ECMAScript's
    StringToNumber); [JS.StringToNumber] below is an instance. *)
Variable StringToNumber : jsstring -> number.

(** [Number(v)] for [v] a string or [undefined] *)
Definition Number (v : option jsstring) : number :=
  match v with
  | None => NaN
  | Some s => StringToNumber s
  end.

(** The arrow function mapped over the lines: the fields come from
    [const [yStr, hStr, timeStr] = line.split(",")], and each product is
    rounded to a double. *)
Definition parseLine (line : jsstring) : SpawnSpec.t :=
  let fields := Str.splitComma line in
  let yStr := nth_error fields 0 in
  let hStr := nth_error fields 1 in
  let timeStr := nth_error fields 2 in
  let y := Number yStr in
  let h := Number hStr in
  SpawnSpec.mk
    (Num.round (y * ofZ Viewport.CANVAS_HEIGHT)%num)
    (Num.round (h * ofZ Viewport.CANVAS_HEIGHT)%num)
    (Num.round (Number timeStr * ofZ 1000)%num).

Definition parseMapCsv (csv : jsstring) : list SpawnSpec.t :=
  map parseLine (Str.slice1 (Str.splitLines (Str.trim csv))).

End ParseMapCsv.

(** ECMAScript's StringToNumber on code units: the white space around the
    text is stripped, the empty text is 0, a StrNumericLiteral is the double
    nearest to its mathematical value, and every other text is NaN. *)
Module JS.

Local Open Scope N_scope.

Definition isDigit (u : N) : bool := (48 <=? u) && (u <=? 57).

Definition digitVal (u : N) : Z := Z.of_N (u - 48).

(** The longest prefix of decimal digits, and what follows it. *)
Fixpoint takeDigits (s : jsstring) : list N * jsstring :=
  match s with
  | [] => ([], [])
  | u :: s' =>
      if isDigit u
      then let (ds, r) := takeDigits s' in (u :: ds, r)
      else ([], s)
  end.

Definition decimalValue (ds : list N) : Z :=
  fold_left (fun acc u => (10 * acc + digitVal u)%Z) ds 0%Z.

(** DecimalDigits that reach the end of the string. *)
Definition allDigits (s : jsstring) : option Z :=
  match takeDigits s with
  | (((_ :: _) as ds), []) => Some (decimalValue ds)
  | _ => None
  end.

Definition PLUS : N := 43.
Definition MINUS : N := 45.
Definition POINT : N := 46.

(** SignedInteger *)
Definition signedInteger (s : jsstring) : option Z :=
  match s with
  | u :: r =>
      if u =? PLUS then allDigits r
      else if u =? MINUS then option_map Z.opp (allDigits r)
      else allDigits s
  | [] => None
  end.

(** ExponentIndicator: [e] or [E] *)
Definition isExponentIndicator (u : N) : bool := (u =? 101) || (u =? 69).

(** An optional ExponentPart that reaches the end of the string. *)
Definition exponentPart (s : jsstring) : option Z :=
  match s with
  | [] => Some 0%Z
  | u :: r => if isExponentIndicator u then signedInteger r else None
  end.

(** The mathematical value of a StrUnsignedDecimalLiteral other than
    [Infinity]. *)
Definition unsignedDecimal (s : jsstring) : option Q :=
  let (ip, r1) := takeDigits s in
  let '(fp, r2) :=
    match r1 with
    | u :: r => if u =? POINT then takeDigits r else ([], r1)
    | [] => ([], r1)
    end in
  match ip ++ fp with
  | [] => None
  | ds =>
      match exponentPart r2 with
      | Some e =>
          Some (inject_Z (decimalValue ds)
                * Qpower (10 # 1) (e - Z.of_nat (length fp)))%Q
      | None => None
      end
  end.

Definition INFINITY : jsstring := [73; 110; 102; 105; 110; 105; 116; 121].

Definition isInfinity (s : jsstring) : bool :=
  if list_eq_dec N.eq_dec s INFINITY then true else false.

(** StrUnsignedDecimalLiteral with the sign in front of it *)
Definition unsignedLiteral (sgn : bool) (r : jsstring) : option number :=
  if isInfinity r then Some (Inf sgn)
  else
    match unsignedDecimal r with
    | Some q => Some (Num.double (if sgn then - q else q)%Q)
    | None => None
    end.

(** StrDecimalLiteral *)
Definition strDecimal (s : jsstring) : option number :=
  match s with
  | u :: r =>
      if u =? PLUS then unsignedLiteral false r
      else if u =? MINUS then unsignedLiteral true r
      else unsignedLiteral false s
  | [] => None
  end.

Definition isHexDigit (u : N) : bool :=
  isDigit u || (97 <=? u) && (u <=? 102) || (65 <=? u) && (u <=? 70).

Definition isOctalDigit (u : N) : bool := (48 <=? u) && (u <=? 55).

Definition isBinaryDigit (u : N) : bool := (u =? 48) || (u =? 49).

(** The value of a hexadecimal digit. *)
Definition hexVal (u : N) : Z :=
  Z.of_N (if isDigit u then u - 48 else if 97 <=? u then u - 87 else u - 55).

(** The value of the digits of a base, when all of [s] are such digits. *)
Fixpoint digitsIn (isDigitIn : N -> bool) (base : Z) (acc : Z) (s : jsstring)
    : option Z :=
  match s with
  | [] => Some acc
  | u :: s' =>
      if isDigitIn u
      then digitsIn isDigitIn base (base * acc + hexVal u)%Z s'
      else None
  end.

(** NonDecimalIntegerLiteral: [0x], [0o] and [0b] with their digits. *)
Definition nonDecimal (s : jsstring) : option Z :=
  match s with
  | z :: p :: ((_ :: _) as ds) =>
      if z =? 48 then
        if (p =? 120) || (p =? 88) then digitsIn isHexDigit 16 0%Z ds
        else if (p =? 111) || (p =? 79) then digitsIn isOctalDigit 8 0%Z ds
        else if (p =? 98) || (p =? 66) then digitsIn isBinaryDigit 2 0%Z ds
        else None
      else None
  | _ => None
  end.

Definition StringToNumber (s : jsstring) : number :=
  match Str.trim s with
  | [] => Fin 0
  | t =>
      match nonDecimal t with
      | Some z => Num.double (inject_Z z)
      | None =>
          match strDecimal t with
          | Some v => v
          | None => NaN
          end
      end
  end.

(** The code units of an ASCII literal. *)
Definition units (s : String.string) : jsstring :=
  map Ascii.N_of_ascii (String.list_ascii_of_string s).












End JS.


(** ** Runs and reachable states *)

(** The state sequence a delivery order of events produces from [s]. *)
Inductive Run : State.t -> list Event -> list State.t -> Prop :=
| Run_done : forall s, Run s [] []
| Run_step : forall s e es tr,
    Run (reducer e s) es tr -> Run s (e :: es) (reducer e s :: tr).

(** The seeds [Math.floor(Math.random() * 0x7fffffff)] can return. *)
Definition freshSeed (seed0 : Z) : Prop := 0 <= seed0 < 0x7fffffff.

(** The states of a run: a start state, then any reducer, any number of
    times. *)
Inductive reachable : State.t -> Prop :=
| reach_start : forall seed0 schedule ghosts,
    freshSeed seed0 -> reachable (startState seed0 schedule ghosts)
| reach_step : forall s e, reachable s -> reachable (reducer e s).

(** The seeds the generator hands back in a run: integers of [0, m). *)
Definition seedInRange (seed : Seed.t) : Prop :=
  match seed with
  | Seed.Int z => 0 <= z < RNG.m
  | Seed.NaN => False
  end.

(** The pipes of a state carry pairwise distinct ids. *)
Definition uniqueIds (s : State.t) : Prop :=
  NoDup (map Pipe.id (State.pipes s)).

(** The pipes of [s] that are still on screen once moved. *)
Definition survivors (s : State.t) : list Pipe.t :=
  filter (fun p => Pipes.onScreen (Pipes.move p)) (State.pipes s).

(** The right edge of a pipe lies right of the left edge of the screen. *)
Definition rightOfScreenEdge (p : Pipe.t) : bool :=
  (Pipe.x p + ofZ Constants.PIPE_WIDTH >? ofZ 0)%num.

(** A pipe before and after a tick whose [passed] went from false to true. *)
Definition flipped (pp : Pipe.t * Pipe.t) : bool :=
  negb (Pipe.passed (fst pp)) && Pipe.passed (snd pp).

(** How a surviving pipe [p] of [s] looks after the tick of [s]. *)
Definition ticked (s : State.t) (p p' : Pipe.t) : Prop :=
  Pipe.id p' = Pipe.id p /\
  Pipe.x p' = (Pipe.x p - ofZ Constants.PIPE_SPEED_PX_S * Step.dt)%num /\
  Pipe.gapY p' = Pipe.gapY p /\
  Pipe.gapH p' = Pipe.gapH p /\
  Pipe.passed p' =
    Pipe.passed p
    || (Pipe.x p' + ofZ Constants.PIPE_WIDTH <? Pipes.birdLeft s)%num.

(** The right edge of a pipe: the right side of its hitboxes. *)
Definition rightEdge (p : Pipe.t) : number := Hitbox.right (pipeTopHitbox p).

(** The left edge of the bird of [s]: the left side of its hitbox. *)
Definition birdLeftEdge (s : State.t) : number :=
  Hitbox.left
    (birdHitbox (Vec.x (Bird.pos (State.bird s)))
       (Vec.y (Bird.pos (State.bird s)))).

(** The scoring rule in the words of the specification, for a pipe [p]
    before the tick of [s] and the same pipe [p'] after it: [p'] is passed
    exactly when [p] was, or when the right edge of [p'] is left of the
    bird's left edge. *)
Definition passedRule (s : State.t) (p p' : Pipe.t) : Prop :=
  Pipe.passed p' = Pipe.passed p || (rightEdge p' <? birdLeftEdge s)%num.

(** ** The collision rule in the words of the specification *)

(** The four collision conditions of one physics step. *)
Inductive Condition : Type :=
| TopBoundary
| BottomBoundary
| ObstacleTop
| ObstacleBottom.

(** The fixed order in which the conditions are tried. *)
Definition priority : list Condition :=
  [TopBoundary; BottomBoundary; ObstacleTop; ObstacleBottom].

Definition holds (s : State.t) (c : Condition) : bool :=
  match c with
  | TopBoundary => Step.hitTop s
  | BottomBoundary => Step.hitBottom s
  | ObstacleTop => Step.hitPipeTop s
  | ObstacleBottom => Step.hitPipeBottom s
  end.

(** The direction of the bounce: [1] is downward, away from a top surface. *)
Definition away (c : Condition) : Z :=
  match c with
  | TopBoundary | ObstacleTop => 1
  | BottomBoundary | ObstacleBottom => -1
  end.

(** Where the bird is put when condition [c] decides the step. *)
Definition landing (s : State.t) (c : Condition) : number :=
  match c with
  | TopBoundary => Step.minY
  | BottomBoundary => Step.maxY
  | ObstacleTop => Num.min (Step.yClamped s + ofZ 1)%num Step.maxY
  | ObstacleBottom => Num.max (Step.yClamped s - ofZ 1)%num Step.minY
  end.

(** The first condition of [priority] that holds decides position and
    velocity; the flag is the disjunction over all of [priority]. *)
Definition firstMatch (s : State.t) : CollisionOutcome.t :=
  let flag := existsb (holds s) priority in
  match find (holds s) priority with
  | Some c =>
      let b := Step.bounce s (away c) in
      CollisionOutcome.mk (landing s c) (Step.b_vy b) (Step.b_seed b) flag
  | None =>
      CollisionOutcome.mk (Step.yClamped s) (Step.stoppedVy s) (State.seed s)
        flag
  end.

(** The edge of the obstacle a condition is about, for a pipe [p]: the lower
    edge of its top part, the upper edge of its bottom part. *)
Definition gapEdge (c : Condition) (p : Pipe.t) : number :=
  match c with
  | ObstacleBottom => Hitbox.top (pipeBottomHitbox p)
  | _ => Hitbox.bottom (pipeTopHitbox p)
  end.

(** The side of the bird that faces that edge, for a bird centred at [y]. *)
Definition facingSide (c : Condition) (x y : number) : number :=
  match c with
  | ObstacleBottom => Hitbox.bottom (birdHitbox x y)
  | _ => Hitbox.top (birdHitbox x y)
  end.

(** Two numbers differ by at most [tol]. *)
Definition near (tol : Q) (a b : number) : Prop :=
  within (- tol) tol (a - b)%num.

(** The position clause of the bounce as the specification words it: after a
    boundary hit the bird sits on the boundary, after an obstacle hit the
    side of the bird that faces the obstacle is within [tol] of the gap edge
    of some pipe. *)
Definition snappedToEdge (tol : Q) (s : State.t) (c : Condition) : Prop :=
  let o := handleCollisions s in
  match c with
  | TopBoundary => CollisionOutcome.y o = Step.minY
  | BottomBoundary => CollisionOutcome.y o = Step.maxY
  | ObstacleTop | ObstacleBottom =>
      exists p, In p (State.pipes s) /\
        near tol
          (facingSide c (Vec.x (Bird.pos (State.bird s)))
             (CollisionOutcome.y o))
          (gapEdge c p)
  end.

(** A bird at height 100 meeting the face of the upper part of a pipe whose
    gap starts at height 250. *)
Definition faceHit : State.t :=
  State.mk 2672 false
    (Bird.mk (Vec.mk (Fin 180) (Fin 100)) (Fin 0))
    [Pipe.mk 1 (Fin (996 # 5)) (Fin 300) (Fin 100) false]
    3 0 2 42 1 [] [].

(** The run of an empty schedule after its first tick: nothing is planned
    and nothing is on screen, so the game has ended. *)
Definition gameOver : State.t := tick (startState 42 [] []).

(** A pipe with its gap in the middle of the canvas. *)
Definition midGap : SpawnSpec.t :=
  SpawnSpec.mk (Fin 200) (Fin 100) (Fin 2000).

(** A run that flapped once and then ticked once. *)
Definition afterFlap : State.t := tick (flapR (startState 42 [midGap] [])).

(** The velocity is finite and within the terminal velocity, and the seed is
    one the generator can hold. *)
Definition bounded (s : State.t) : Prop :=
  within (- inject_Z Physics.TERMINAL_VEL) (inject_Z Physics.TERMINAL_VEL)
    (Bird.velY (State.bird s)) /\
  seedInRange (State.seed s).

(** A running state with one pipe just behind the bird and one ahead. *)
Definition passing : State.t :=
  State.mk 5248 false
    (Bird.mk (Vec.mk (Fin 180) (Fin 200)) (Fin 0))
    [Pipe.mk 1 (Fin 108) (Fin 200) (Fin 100) false;
     Pipe.mk 2 (Fin 400) (Fin 180) (Fin 120) false]
    3 0 3 42 4 [] [].

(** A running state with three pipes: the right edge of the first will be
    left of the bird's left edge after the tick, that of the second between
    the bird's left edge and its centre, the third is far ahead. *)
Definition alongside : State.t :=
  State.mk 5248 false
    (Bird.mk (Vec.mk (Fin 180) (Fin 200)) (Fin 0))
    [Pipe.mk 1 (Fin 108) (Fin 200) (Fin 100) false;
     Pipe.mk 2 (Fin 120) (Fin 200) (Fin 100) false;
     Pipe.mk 3 (Fin 400) (Fin 180) (Fin 120) false]
    3 0 4 42 4 [] [].

(** A running state whose first pipe has left the screen. *)
Definition leaving : State.t :=
  State.mk 9600 false
    (Bird.mk (Vec.mk (Fin 180) (Fin 200)) (Fin 0))
    [Pipe.mk 1 (Fin (-50)) (Fin 200) (Fin 100) true;
     Pipe.mk 2 (Fin 250) (Fin 180) (Fin 120) false]
    3 1 3 42 4 [] [].

(** [ps.join(sep)] for a one-unit separator *)
Fixpoint joinWith (sep : N) (ps : list jsstring) : jsstring :=
  match ps with
  | [] => []
  | [p] => p
  | p :: ps' => p ++ sep :: joinWith sep ps'
  end.

(** A header and four rows: a good one ended by CR LF, one with a field that
    is not a number, an empty one, and one with two fields only. *)
Definition sampleCsv : jsstring :=
  JS.units "gap_y,gap_height,time"%string ++ [Str.LF]
  ++ JS.units "0.5,0.25,2"%string ++ [Str.CR; Str.LF]
  ++ JS.units "0.75,oops,4.5"%string ++ [Str.LF]
  ++ [Str.LF]
  ++ JS.units "0.125,0.25"%string ++ [Str.LF].

(** ** Ghost replay and the ghost store *)

(** [Math.floor(timeMs / Constants.TICK_RATE_MS)] *)
Definition ghostIdx (timeMs : Z) : Z := timeMs / Constants.TICK_RATE_MS.

(** What [makeRenderGhosts] does with the image of one ghost: it places the
    image and shows it, or hides it, or fails on reading a coordinate of
    [undefined]. *)
Inductive GhostFrame : Type :=
| Shown (x y : number)
| Hidden
| TypeError.

(** [trace[i]]: [undefined] outside the array *)
Definition at_ (trace : Trace) (i : Z) : option Vec.t :=
  if i <? 0 then None else nth_error trace (Z.to_nat i).

(** The callback of [ghosts.forEach] in [makeRenderGhosts], for one trace. *)
Definition replayGhost (trace : Trace) (timeMs : Z) : GhostFrame :=
  let idx := ghostIdx timeMs in
  let len := Z.of_nat (length trace) in
  if (len >? 0) && (idx <? len) then
    match at_ trace idx with
    | Some g =>
        Shown (Vec.x g - ofZ bird.WIDTH / ofZ 2)%num
              (Vec.y g - ofZ bird.HEIGHT / ofZ 2)%num
    | None => TypeError
    end
  else Hidden.

(** The [tap] on the state stream: a state whose game has ended appends its
    trace to the value of [ghostStore$]. *)
Definition recordGhost (store : GhostList) (s : State.t) : GhostList :=
  if State.gameEnd s then store ++ [State.trace s] else store.

(** The value of [ghostStore$] once the states [emitted] went through the
    [tap]. *)
Definition ghostStoreAfter (store : GhostList) (emitted : list State.t)
    : GhostList :=
  fold_left recordGhost emitted store.

(** ** Invariants of a run *)

(** Where the bird starts: 30% from the left, vertically centred. *)
Definition startPos : Vec.t := Bird.pos (State.bird (initialState 0)).

(** The bird keeps its column and stays inside the vertical band. *)
Definition birdOnScreen (s : State.t) : Prop :=
  Vec.x (Bird.pos (State.bird s)) = Vec.x startPos /\
  within 15 385 (Vec.y (Bird.pos (State.bird s))).

(** Lives stay between 0 and 3, and a running game has one left. *)
Definition livesOk (s : State.t) : Prop :=
  0 <= State.lives s <= 3 /\
  (State.gameEnd s = false -> 1 <= State.lives s).

(** The clock counts the recorded ticks, and the trace ends where the bird
    is. *)
Definition traceOk (s : State.t) : Prop :=
  State.timeMs s
  = Constants.TICK_RATE_MS * Z.of_nat (length (State.trace s)) /\
  last (State.trace s) startPos = Bird.pos (State.bird s).

(** A pipe is on the canvas, and is marked passed exactly when its right
    edge is left of the left edge of the bird. *)
Definition pipeOk (s : State.t) (p : Pipe.t) : Prop :=
  (exists q, Pipe.x p = Fin q /\ (- (50) < q <= 600)%Q) /\
  Pipe.passed p
  = (Pipe.x p + ofZ Constants.PIPE_WIDTH <? Pipes.birdLeft s)%num.

(** The ids of a list of pipes increase strictly and stay below [bound]. *)
Fixpoint ascending (bound : Z) (ps : list Pipe.t) : Prop :=
  match ps with
  | [] => True
  | p :: ps' =>
      Pipe.id p < bound /\
      Forall (fun q => Pipe.id p < Pipe.id q) ps' /\
      ascending bound ps'
  end.

(** The number of pipes of a list not passed yet. *)
Definition unpassed (ps : list Pipe.t) : Z :=
  Z.of_nat (length (filter (fun p => negb (Pipe.passed p)) ps)).

(** The score counts pipes, each once: it is not negative, and with the
    pipes still to pass it stays within the pipes spawned so far. *)
Definition scoreOk (s : State.t) : Prop :=
  0 <= State.score s /\
  State.score s + unpassed (State.pipes s) <= State.nextId s - 1.

(** The kinds of events of a run. *)
Definition isSpawn (e : Event) : bool :=
  match e with Spawn _ => true | _ => false end.

Definition isTick (e : Event) : bool :=
  match e with Tick => true | _ => false end.

(** [ls.join(sep)] *)
Fixpoint joinLines (sep : jsstring) (ls : list jsstring) : jsstring :=
  match ls with
  | [] => []
  | [l] => l
  | l :: ls' => l ++ sep ++ joinLines sep ls'
  end.

(** A string of white space only. *)
Definition allWhite (w : jsstring) : Prop :=
  Forall (fun u => Str.isWhiteSpace u = true) w.

(** A string with no line feed in it that does not end in a carriage
    return. *)
Definition plainLine (l : jsstring) : Prop :=
  Forall (fun u => u <> Str.LF) l /\ last l Str.LF <> Str.CR.

(** A string with no comma in it. *)
Definition plainField (f : jsstring) : Prop :=
  Forall (fun u => u <> Str.COMMA) f.

(** The head of a string is not white space, when there is one. *)
Definition headBlack (s : jsstring) : Prop :=
  match s with
  | [] => True
  | u :: _ => Str.isWhiteSpace u = false
  end.

(** ** The pipes on the canvas *)

(** The part of the document the pipe renderer touches: the elements it
    holds references to, by handle, and the children of the svg canvas, in
    order. *)
Module Dom.

Definition handle : Type := nat.

Record Element : Type := mkElement {
  namespace : option jsstring;
  name : jsstring;
  attrs : list (jsstring * jsstring)
}.

Record t : Type := mk { elems : list Element; children : list handle }.

Definition streq (a b : jsstring) : bool :=
  if list_eq_dec N.eq_dec a b then true else false.

(** The attributes after [setAttribute(k, v)]: an attribute keeps its
    place, a new one goes last. *)
Fixpoint setAttr (k v : jsstring) (l : list (jsstring * jsstring))
    : list (jsstring * jsstring) :=
  match l with
  | [] => [(k, v)]
  | (k', v') :: l' =>
      if streq k k' then (k, v) :: l' else (k', v') :: setAttr k v l'
  end.

Fixpoint getAttr (k : jsstring) (l : list (jsstring * jsstring))
    : option jsstring :=
  match l with
  | [] => None
  | (k', v') :: l' => if streq k k' then Some v' else getAttr k l'
  end.

Fixpoint updateAt {A : Type} (f : A -> A) (i : nat) (l : list A) : list A :=
  match l, i with
  | [], _ => []
  | a :: l', O => f a :: l'
  | a :: l', S i' => a :: updateAt f i' l'
  end.

(** [elem.setAttribute(k, v)] for the element behind [h] *)
Definition setAttribute (d : t) (h : handle) (k v : jsstring) : t :=
  mk (updateAt
        (fun e => mkElement (namespace e) (name e) (setAttr k v (attrs e)))
        h (elems d))
     (children d).

(** [elem.getAttribute(k)] *)
Definition getAttribute (d : t) (h : handle) (k : jsstring)
    : option jsstring :=
  match nth_error (elems d) h with
  | Some e => getAttr k (attrs e)
  | None => None
  end.

(** [createSvgElement(namespace, name, props)]: a new element with every
    entry of [props] set on it. *)
Definition createSvgElement (d : t) (ns : option jsstring) (nm : jsstring)
    (props : list (jsstring * jsstring)) : handle * t :=
  let e :=
    mkElement ns nm
      (fold_left (fun l kv => setAttr (fst kv) (snd kv) l) props []) in
  (length (elems d), mk (elems d ++ [e]) (children d)).

(** [svg.appendChild(h)]: the node goes last, leaving its old place if it
    had one. *)
Definition appendChild (d : t) (h : handle) : t :=
  mk (elems d) (filter (fun c => negb (Nat.eqb c h)) (children d) ++ [h]).

(** [svg.removeChild(h)]: fails when [h] is not a child. *)
Definition removeChild (d : t) (h : handle) : option t :=
  if existsb (Nat.eqb h) (children d)
  then Some (mk (elems d)
               (filter (fun c => negb (Nat.eqb c h)) (children d)))
  else None.

End Dom.

Module PipeElems.
Record t : Type := mk { top : Dom.handle; bottom : Dom.handle }.
End PipeElems.

(** [Map<number, PipeElems>]: the entries in insertion order, one per key. *)
Module PipeMap.

Definition t : Type := list (Z * PipeElems.t).

Fixpoint get (m : t) (id : Z) : option PipeElems.t :=
  match m with
  | [] => None
  | (k, v) :: m' => if Z.eqb id k then Some v else get m' id
  end.

Fixpoint set (m : t) (id : Z) (v : PipeElems.t) : t :=
  match m with
  | [] => [(id, v)]
  | (k, w) :: m' => if Z.eqb id k then (k, v) :: m' else (k, w) :: set m' id v
  end.

Definition delete (m : t) (id : Z) : t :=
  filter (fun kv => negb (Z.eqb id (fst kv))) m.

Definition keys (m : t) : list Z := map fst m.

Definition handles (m : t) : list Dom.handle :=
  flat_map (fun kv => [PipeElems.top (snd kv); PipeElems.bottom (snd kv)]) m.

End PipeMap.

Section SyncPipes.

(** The text a template literal puts for a number, and the namespace of the
    svg canvas. *)
Variable show : number -> jsstring.
Variable namespaceURI : option jsstring.

Definition attrX : jsstring := JS.units "x"%string.

(** The body of [pipes.forEach] in [makeSyncPipes]: get the pair of
    rectangles of the pipe or create it, then scroll it. *)
Definition syncPipe (st : Dom.t * PipeMap.t) (p : Pipe.t)
    : Dom.t * PipeMap.t :=
  let (d, pipeElems) := st in
  let '(pair_, d, pipeElems) :=
    match PipeMap.get pipeElems (Pipe.id p) with
    | Some pair_ => (pair_, d, pipeElems)
    | None =>
        let (top, d) :=
          Dom.createSvgElement d namespaceURI (JS.units "rect"%string)
            [(attrX, show (Pipe.x p));
             (JS.units "y"%string, JS.units "0"%string);
             (JS.units "width"%string, show (ofZ Constants.PIPE_WIDTH));
             (JS.units "height"%string,
              show (Pipe.gapY p - Pipe.gapH p / ofZ 2)%num);
             (JS.units "fill"%string, JS.units "green"%string)] in
        let (bottom, d) :=
          Dom.createSvgElement d namespaceURI (JS.units "rect"%string)
            [(attrX, show (Pipe.x p));
             (JS.units "y"%string,
              show (Pipe.gapY p + Pipe.gapH p / ofZ 2)%num);
             (JS.units "width"%string, show (ofZ Constants.PIPE_WIDTH));
             (JS.units "height"%string,
              show (ofZ Viewport.CANVAS_HEIGHT
                    - (Pipe.gapY p + Pipe.gapH p / ofZ 2))%num);
             (JS.units "fill"%string, JS.units "green"%string)] in
        let d := Dom.appendChild d top in
        let d := Dom.appendChild d bottom in
        let created := PipeElems.mk top bottom in
        (created, d, PipeMap.set pipeElems (Pipe.id p) created)
    end in
  let d := Dom.setAttribute d (PipeElems.top pair_) attrX (show (Pipe.x p)) in
  let d :=
    Dom.setAttribute d (PipeElems.bottom pair_) attrX (show (Pipe.x p)) in
  (d, pipeElems).

(** The body of [pipeElems.forEach]: drop the rectangles of an id that was
    not seen. *)
Definition dropUnseen (seen : list Z) (st : option (Dom.t * PipeMap.t))
    (entry : Z * PipeElems.t) : option (Dom.t * PipeMap.t) :=
  match st with
  | None => None
  | Some (d, pipeElems) =>
      if negb (Pipes.has seen (fst entry)) then
        match Dom.removeChild d (PipeElems.top (snd entry)) with
        | None => None
        | Some d =>
            match Dom.removeChild d (PipeElems.bottom (snd entry)) with
            | None => None
            | Some d => Some (d, PipeMap.delete pipeElems (fst entry))
            end
        end
      else Some (d, pipeElems)
  end.

(** The function [makeSyncPipes] returns, on the document and the map it
    closes over; [None] when a [removeChild] fails. *)
Definition makeSyncPipes (st : Dom.t * PipeMap.t) (pipes : list Pipe.t)
    : option (Dom.t * PipeMap.t) :=
  let seen := map Pipe.id pipes in
  let st := fold_left syncPipe pipes st in
  fold_left (dropUnseen seen) (snd st) (Some st).

End SyncPipes.

(** The rectangles the map refers to are distinct children of the canvas,
    one pair per id, and every child is an element of the document. *)
Definition synced (st : Dom.t * PipeMap.t) : Prop :=
  NoDup (PipeMap.keys (snd st)) /\
  NoDup (PipeMap.handles (snd st)) /\
  incl (PipeMap.handles (snd st)) (Dom.children (fst st)) /\
  Forall (fun h => (h < length (Dom.elems (fst st)))%nat)
    (Dom.children (fst st)).

(** The pipe has its pair of rectangles in the map, and both carry the text
    of its [x] as their [x] attribute. *)
Definition scrolled (show : number -> jsstring) (st : Dom.t * PipeMap.t)
    (p : Pipe.t) : Prop :=
  exists v,
    PipeMap.get (snd st) (Pipe.id p) = Some v /\
    Dom.getAttribute (fst st) (PipeElems.top v) attrX
    = Some (show (Pipe.x p)) /\
    Dom.getAttribute (fst st) (PipeElems.bottom v) attrX
    = Some (show (Pipe.x p)).

(** A canvas that holds the image of the bird and no pipe yet. *)
Definition birdOnlyCanvas : Dom.t * PipeMap.t :=
  (Dom.mk [Dom.mkElement None (JS.units "image"%string) []] [0%nat], []).

(** A stand-in for the text of a number: the text of its integer part when
    it is a small natural number, the empty text otherwise. *)
Definition showSample (a : number) : jsstring :=
  match a with
  | Fin q =>
      if (Qle_bool 0 q && Qle_bool q 9)%bool
      then [(48 + Z.to_N (Qnum q / Z.pos (Qden q)))%N]
      else []
  | _ => []
  end.

(** ** Facts about numbers *)

Lemma Qltb_true (a b : Q) : Qltb a b = true <-> (a < b)%Q.
Proof.
  unfold Qltb. rewrite negb_true_iff.
  split; intro H.
  - apply Qnot_le_lt. intro L. apply Qle_bool_iff in L. congruence.
  - destruct (Qle_bool b a) eqn:E; [|reflexivity].
    apply Qle_bool_iff in E. exfalso. revert E. apply Qlt_not_le, H.
Qed.

Lemma Qltb_false (a b : Q) : Qltb a b = false <-> (b <= a)%Q.
Proof.
  unfold Qltb. rewrite negb_false_iff. apply Qle_bool_iff.
Qed.

(** Case analysis on the comparisons of rationals a goal or a hypothesis
    mentions, leaving linear arithmetic. *)
Ltac qcases :=
  repeat match goal with
  | H : Qltb _ _ = true |- _ => apply Qltb_true in H
  | H : Qltb _ _ = false |- _ => apply Qltb_false in H
  | H : Qle_bool _ _ = true |- _ => apply Qle_bool_iff in H
  | H : Qeq_bool _ _ = true |- _ => apply Qeq_bool_iff in H
  | |- context [Qltb ?a ?b] => destruct (Qltb a b) eqn:?
  | |- context [Qle_bool ?a ?b] => destruct (Qle_bool a b) eqn:?
  | H : context [Qltb ?a ?b] |- _ => destruct (Qltb a b) eqn:?
  end.

Lemma clamp_within (lo hi q : Q) :
  (lo <= hi)%Q ->
  within lo hi (Num.max (Fin lo) (Num.min (Fin hi) (Fin q))).
Proof.
  intro Hle. unfold Num.max, Num.min, Num.lt.
  destruct (Qltb q hi) eqn:E1; simpl; unfold Num.lt;
    [destruct (Qltb lo q) eqn:E2 | destruct (Qltb lo hi) eqn:E2];
    simpl; qcases; lra.
Qed.

Lemma within_abs_le (b : Q) (a : number) :
  within (- b) b a -> Num.le (Num.abs a) (Fin b) = true.
Proof.
  destruct a as [| |q]; simpl; try tauto.
  intros [H1 H2]. apply Qle_bool_iff. apply Qabs_Qle_condition. split; assumption.
Qed.

(** Linear arithmetic on rationals where the only divisions are by
    constants. *)
Ltac qconst :=
  unfold Physics.GRAVITY, Physics.FLAP_VELOCITY, Physics.TERMINAL_VEL,
    Physics.BOUNCE_MIN, Physics.BOUNCE_MAX, Constants.PIPE_WIDTH,
    Constants.PIPE_SPEED_PX_S, Constants.TICK_RATE_MS,
    Viewport.CANVAS_WIDTH, Viewport.CANVAS_HEIGHT, bird.WIDTH, bird.HEIGHT
    in *;
  unfold inject_Z, Qdiv in *;
  repeat match goal with
  | |- context [Qinv (?n # ?d)] =>
      let v := eval compute in (Qinv (n # d)) in
      change (Qinv (n # d)) with v
  | H : context [Qinv (?n # ?d)] |- _ =>
      let v := eval compute in (Qinv (n # d)) in
      change (Qinv (n # d)) with v in H
  end.

Ltac qlra := qconst; lra.

(** ** The generator *)

Lemma nearest_small (z : Z) : Z.abs z < 2 ^ 53 -> RNG.nearest z = z.
Proof.
  intro H. unfold RNG.nearest. apply Z.ltb_lt in H. rewrite H. reflexivity.
Qed.

Lemma nearest_nonneg (z : Z) : 0 <= z -> 0 <= RNG.nearest z.
Proof.
  intro H. unfold RNG.nearest.
  destruct (Z.abs z <? 2 ^ 53); [assumption|].
  apply Z.mul_nonneg_nonneg; [apply Z.sgn_nonneg, H|].
  apply Z.shiftl_nonneg.
  assert (Hq : 0 <= Z.shiftr (Z.abs z) (Z.log2 (Z.abs z) - 52))
    by (apply Z.shiftr_nonneg, Z.abs_nonneg).
  repeat match goal with
         | |- context [if ?b then _ else _] => destruct b
         end; lia.
Qed.

(** Cutting to 53 bits at most doubles an integer. *)
Lemma nearest_le_double (z : Z) : 0 <= z -> RNG.nearest z <= 2 * z.
Proof.
  intro H. unfold RNG.nearest. rewrite (Z.abs_eq z H).
  destruct (Z.ltb_spec z (2 ^ 53)) as [|Hbig]; [lia|].
  assert (Hpos : 0 < z) by lia.
  rewrite (Z.sgn_pos z Hpos), Z.mul_1_l.
  pose proof (Z.log2_spec z Hpos) as [Hlo _].
  assert (Hlog : 53 <= Z.log2 z)
    by (apply Z.log2_le_pow2; [exact Hpos | exact Hbig]).
  set (k := Z.log2 z - 52) in *.
  assert (Hk : 0 <= k) by (unfold k; lia).
  rewrite Z.shiftl_mul_pow2 by exact Hk.
  rewrite Z.shiftr_div_pow2 by exact Hk.
  assert (Hp : 0 < 2 ^ k) by (apply Z.pow_pos_nonneg; lia).
  assert (Hsplit : 2 ^ Z.log2 z = 2 ^ 52 * 2 ^ k).
  { replace (Z.log2 z) with (52 + k) by (unfold k; lia).
    apply Z.pow_add_r; lia. }
  assert (Hq : 2 ^ 52 <= z / 2 ^ k)
    by (apply Z.div_le_lower_bound; [exact Hp | lia]).
  pose proof (Z.mul_div_le z (2 ^ k) Hp) as Hdiv.
  assert (H52 : 0 < 2 ^ 52) by reflexivity.
  set (q := z / 2 ^ k) in *.
  assert (Hstep : (q + 1) * 2 ^ k <= 2 * z) by nia.
  assert (Hq0 : q * 2 ^ k <= 2 * z) by nia.
  repeat match goal with
         | |- context [if ?b then _ else _] => destruct b
         end; assumption.
Qed.

Lemma HUGE_large : 2 ^ 100 < Num.HUGE.
Proof. reflexivity. Qed.

(** Over the integers every double holds exactly, [hash] meets no
    infinity. *)
Lemma hash_finite (z : Z) :
  0 <= z < 2 ^ 53 ->
  RNG.hash z
  = Seed.Int (Z.rem (RNG.nearest (RNG.nearest (RNG.a * z) + RNG.c)) RNG.m).
Proof.
  intros [H0 H1]. pose proof HUGE_large as Hh.
  assert (Ha : 0 <= RNG.a * z) by (unfold RNG.a; lia).
  assert (Ha' : RNG.a * z < 2 ^ 31 * 2 ^ 53) by (unfold RNG.a; lia).
  change (2 ^ 31 * 2 ^ 53) with (2 ^ 84) in Ha'.
  assert (Hs : 2 ^ 84 < 2 ^ 100) by reflexivity.
  pose proof (nearest_nonneg _ Ha) as Hn0.
  pose proof (nearest_le_double _ Ha) as Hn1.
  assert (Hd : 2 * 2 ^ 84 + RNG.c < 2 ^ 100) by reflexivity.
  unfold RNG.hash, RNG.round53.
  destruct (Z.leb_spec Num.HUGE (Z.abs (RNG.a * z))) as [Hbad|_]; [lia|].
  destruct (Z.leb_spec Num.HUGE
              (Z.abs (RNG.nearest (RNG.a * z) + RNG.c))) as [Hbad|_];
    [unfold RNG.c in *; lia | reflexivity].
Qed.

Lemma hash_range (z : Z) :
  0 <= z < 2 ^ 53 ->
  exists h, RNG.hash z = Seed.Int h /\ 0 <= h < RNG.m.
Proof.
  intro H. rewrite (hash_finite z H). eexists. split; [reflexivity|].
  apply Z.rem_bound_pos; [|reflexivity].
  apply nearest_nonneg.
  assert (0 <= RNG.nearest (RNG.a * z))
    by (apply nearest_nonneg; unfold RNG.a; lia).
  unfold RNG.c. lia.
Qed.

Lemma seedInRange_safe (seed : Seed.t) :
  seedInRange seed -> exists z, seed = Seed.Int z /\ 0 <= z < 2 ^ 53.
Proof.
  destruct seed as [|z]; simpl; [tauto|]. intro H. exists z.
  split; [reflexivity|]. unfold RNG.m in H.
  assert (0x80000000 < 2 ^ 53) by reflexivity. lia.
Qed.

Lemma hash_seedInRange (seed : Seed.t) :
  seedInRange seed -> seedInRange (RNG.hash seed).
Proof.
  intro H. destruct (seedInRange_safe seed H) as [z [-> Hz]].
  destruct (hash_range z Hz) as [h [-> Hh]]. exact Hh.
Qed.

Lemma hash_exact (z : Z) :
  0 <= z -> RNG.a * z + RNG.c < 2 ^ 53 ->
  RNG.hash z = Seed.Int ((RNG.a * z + RNG.c) mod RNG.m).
Proof.
  intros H0 H.
  assert (Ha : 0 <= RNG.a * z) by (unfold RNG.a; lia).
  assert (Hc : 0 <= RNG.c) by (unfold RNG.c; lia).
  assert (Hz : 0 <= z < 2 ^ 53) by (unfold RNG.a in *; lia).
  rewrite (hash_finite z Hz).
  rewrite (nearest_small (RNG.a * z)) by lia.
  rewrite nearest_small by lia.
  f_equal. apply Z.rem_mod_nonneg; [lia | reflexivity].
Qed.

(** Where the product leaves the integers a double holds exactly, [hash] is
    not the exact linear-congruential value any more. *)
Lemma hash_rounds :
  RNG.hash 123456789 = 231794736 /\
  (RNG.a * 123456789 + RNG.c) mod RNG.m = 231794730.
Proof. split; vm_compute; reflexivity. Qed.

Lemma r01_value (seed : Seed.t) (h : Z) :
  RNG.hash seed = Seed.Int h ->
  Rand01.r01 (rand01 seed) =
  Fin ((inject_Z 2 * inject_Z h / inject_Z (RNG.m - 1)
        + - inject_Z 1 + inject_Z 1) / inject_Z 2).
Proof. intro H. unfold rand01. rewrite H. reflexivity. Qed.

Lemma r01_unit (z : Z) :
  0 <= z < 2 ^ 53 -> within 0 1 (Rand01.r01 (rand01 z)).
Proof.
  intro H. destruct (hash_range z H) as [h [E [H1 H2]]].
  rewrite (r01_value _ h E). simpl.
  assert (B1 : (0 <= inject_Z h)%Q)
    by (rewrite <- (Zle_Qle 0); exact H1).
  assert (B2 : (inject_Z h <= inject_Z (RNG.m - 1))%Q)
    by (rewrite <- Zle_Qle; lia).
  set (h' := inject_Z h) in *.
  change (inject_Z (RNG.m - 1)) with (2147483647 # 1)%Q in *.
  clearbody h'. qlra.
Qed.

(** Outside the seeds of a run.  The remainder takes the sign of the
    dividend, so a negative seed gives a negative hash and a value below 0;
    a seed whose product is an infinity gives [NaN] for both, and so does
    [NaN]. *)
Lemma rand01_negative_seed :
  RNG.hash (-1) = -1103502900 /\
  ~ within 0 1 (Rand01.r01 (rand01 (-1))).
Proof.
  assert (E : RNG.hash (-1) = -1103502900) by (vm_compute; reflexivity).
  split; [exact E|].
  rewrite (r01_value _ _ E). simpl. intros [H _]. revert H.
  apply Qlt_not_le. reflexivity.
Qed.

Lemma rand01_overflowing_seed :
  rand01 (2 ^ 1000) = Rand01.mk Seed.NaN NaN /\
  rand01 Seed.NaN = Rand01.mk Seed.NaN NaN.
Proof. split; vm_compute; reflexivity. Qed.

(** C8: for every seed, [rand01] returns the pair of [hash seed] and
    [(scale (hash seed) + 1) / 2], and equal seeds give equal pairs.  For
    every seed a run can hold (the integers from 0 that a double holds
    exactly cover them), [hash] is the double product and sum
    [a * seed + c] reduced modulo [m = 2^31] (the exact linear-congruential
    value as long as it stays below 2^53), an integer of [0, m), and the
    second component of the pair is a value of [0, 1]. *)
Theorem prng_contract (seed : Seed.t) :
  RNG.a = 1103515245 /\ RNG.c = 12345 /\ RNG.m = 2 ^ 31 /\
  rand01 seed
  = Rand01.mk (RNG.hash seed)
      ((RNG.scale (Seed.toNumber (RNG.hash seed)) + ofZ 1) / ofZ 2)%num /\
  (forall seed', seed' = seed -> rand01 seed' = rand01 seed) /\
  (forall z : Z,
      seed = Seed.Int z -> 0 <= z < 2 ^ 53 ->
      exists h : Z,
        RNG.hash seed = Seed.Int h /\
        h = (RNG.nearest (RNG.nearest (RNG.a * z) + RNG.c)) mod RNG.m /\
        (RNG.a * z + RNG.c < 2 ^ 53 -> h = (RNG.a * z + RNG.c) mod RNG.m) /\
        0 <= h < RNG.m /\
        Rand01.nextSeed (rand01 seed) = Seed.Int h /\
        Rand01.r01 (rand01 seed)
        = ((RNG.scale (ofZ h) + ofZ 1) / ofZ 2)%num /\
        within 0 1 (Rand01.r01 (rand01 seed))).
Proof.
  split; [reflexivity|]. split; [reflexivity|]. split; [reflexivity|].
  split; [reflexivity|].
  split; [intros seed' ->; reflexivity|].
  intros z -> H.
  pose proof (hash_finite z H) as E.
  destruct (hash_range z H) as [h [Eh Hh]].
  exists h. split; [exact Eh|].
  assert (Hrem : h = Z.rem (RNG.nearest (RNG.nearest (RNG.a * z) + RNG.c))
                       RNG.m) by congruence.
  assert (Hn : 0 <= RNG.nearest (RNG.nearest (RNG.a * z) + RNG.c)).
  { apply nearest_nonneg.
    assert (0 <= RNG.nearest (RNG.a * z))
      by (apply nearest_nonneg; unfold RNG.a; lia).
    unfold RNG.c. lia. }
  split.
  { rewrite Hrem. apply Z.rem_mod_nonneg; [exact Hn | reflexivity]. }
  split.
  { intro Hs. assert (E' : RNG.hash z
                          = Seed.Int ((RNG.a * z + RNG.c) mod RNG.m))
      by (apply hash_exact; lia).
    congruence. }
  split; [exact Hh|].
  split; [exact Eh|].
  split; [unfold rand01; rewrite Eh; reflexivity|].
  apply r01_unit, H.
Qed.

Lemma prng_contract_witness :
  0 <= 42 < 2 ^ 53 /\
  RNG.hash 42 = 1250496027 /\
  within 0 1 (Rand01.r01 (rand01 42)).
Proof.
  assert (R : 0 <= 42 < 2 ^ 53) by (split; [lia | reflexivity]).
  split; [exact R|].
  destruct (prng_contract 42) as (_ & _ & _ & _ & _ & H).
  destruct (H 42 eq_refl R) as (h & Eh & _ & Hx & _ & _ & _ & Hw).
  split; [|exact Hw].
  rewrite Eh, Hx by (vm_compute; reflexivity). reflexivity.
Defined.

Lemma range_fits (b : Z) (q : Q) :
  b < Num.HUGE ->
  (- inject_Z b <= q <= inject_Z b)%Q -> Num.range (Fin q) = Fin q.
Proof.
  intros Hb [H1 H2]. destruct q as [n d].
  unfold Qle, inject_Z, Qopp in H1, H2. cbn [Qnum Qden] in H1, H2.
  unfold Num.range, Num.huge. cbn [Qnum Qden].
  destruct (Z.leb_spec (Num.HUGE * Z.pos d) (Z.abs n)) as [Hbad|]; [|reflexivity].
  exfalso.
  assert (Hd : 0 < Z.pos d) by reflexivity.
  assert (Z.abs n <= b * Z.pos d) by lia.
  assert (b * Z.pos d < Num.HUGE * Z.pos d)
    by (apply Z.mul_lt_mono_pos_r; assumption).
  lia.
Qed.

(** ** One physics step *)

Lemma value_range seed :
  seedInRange seed ->
  exists v, RandInRange.value
              (randInRange seed (ofZ Physics.BOUNCE_MIN) (ofZ Physics.BOUNCE_MAX))
            = Fin v /\ (220 <= v <= 420)%Q.
Proof.
  intro Hs. destruct (seedInRange_safe seed Hs) as [z [-> Hz]].
  pose proof (r01_unit z Hz) as W. pose proof HUGE_large as Hh.
  assert (H1000 : 1000 < Num.HUGE) by (assert (1000 < 2 ^ 100) by reflexivity; lia).
  unfold randInRange. cbn [RandInRange.value Rand01.nextSeed].
  destruct (Rand01.r01 (rand01 z)) as [| |r]; simpl in W; try tauto.
  unfold Num.sub, Num.neg, Num.add, Num.mul, ofZ.
  rewrite (range_fits 1000) by (exact H1000 || (unfold Physics.BOUNCE_MIN, Physics.BOUNCE_MAX; qlra)).
  unfold Num.mul.
  rewrite (range_fits 1000) by (exact H1000 || (unfold Physics.BOUNCE_MIN, Physics.BOUNCE_MAX; qlra)).
  unfold Num.add.
  rewrite (range_fits 1000) by (exact H1000 || (unfold Physics.BOUNCE_MIN, Physics.BOUNCE_MAX; qlra)).
  eexists. split; [reflexivity|].
  unfold Physics.BOUNCE_MIN, Physics.BOUNCE_MAX. qlra.
Qed.

Lemma minY_value : Step.minY = Fin (inject_Z 30 / inject_Z 2).
Proof. reflexivity. Qed.

Lemma maxY_value : Step.maxY = Fin (inject_Z 400 + - (inject_Z 30 / inject_Z 2)).
Proof. reflexivity. Qed.

Lemma band_values :
  (Step.minY === ofZ 15)%num = true /\ (Step.maxY === ofZ 385)%num = true.
Proof. split; reflexivity. Qed.

Lemma clamp_band (a : number) :
  a <> NaN -> within 15 385 (Num.max Step.minY (Num.min Step.maxY a)).
Proof.
  intro Hn. rewrite minY_value, maxY_value.
  destruct a as [|[|]|q]; [congruence | | |].
  - vm_compute. split; discriminate.
  - vm_compute. split; discriminate.
  - pose proof (clamp_within (inject_Z 30 / inject_Z 2)
                  (inject_Z 400 + - (inject_Z 30 / inject_Z 2)) q) as W.
    destruct (Num.max _ _); simpl in *; try (apply W; qlra).
    assert (W' := W ltac:(qlra)). qlra.
Qed.

Lemma yClamped_cases (s : State.t) :
  Step.yClamped s = NaN \/ within 15 385 (Step.yClamped s).
Proof.
  unfold Step.yClamped.
  destruct (Step.yNextRaw s) eqn:E.
  - left. reflexivity.
  - right. apply clamp_band. discriminate.
  - right. apply clamp_band. discriminate.
Qed.

Lemma overlaps_top_defined (a b : Hitbox.t) :
  overlaps a b = true -> Hitbox.top a <> NaN.
Proof.
  unfold overlaps. intros H E. rewrite E in H.
  rewrite !andb_true_iff in H. destruct H as [[_ H] _]. discriminate.
Qed.

Lemma birdRect_defined (s : State.t) :
  Hitbox.top (Step.birdRect s) <> NaN -> within 15 385 (Step.yClamped s).
Proof.
  intro H. destruct (yClamped_cases s) as [E|W]; [|exact W].
  exfalso. apply H. unfold Step.birdRect, birdHitbox. simpl. rewrite E. reflexivity.
Qed.

Lemma hitPipeTop_band (s : State.t) :
  Step.hitPipeTop s = true -> within 15 385 (Step.yClamped s).
Proof.
  unfold Step.hitPipeTop. intro H. apply existsb_exists in H.
  destruct H as [p [_ H]]. apply birdRect_defined.
  eapply overlaps_top_defined, H.
Qed.

Lemma hitPipeBottom_band (s : State.t) :
  Step.hitPipeBottom s = true -> within 15 385 (Step.yClamped s).
Proof.
  unfold Step.hitPipeBottom. intro H. apply existsb_exists in H.
  destruct H as [p [_ H]]. apply birdRect_defined.
  eapply overlaps_top_defined, H.
Qed.

Lemma landing_band (s : State.t) (c : Condition) :
  holds s c = true -> within 15 385 (landing s c).
Proof.
  destruct c; simpl; intro H.
  - vm_compute. split; discriminate.
  - vm_compute. split; discriminate.
  - apply hitPipeTop_band in H. rewrite maxY_value.
    destruct (Step.yClamped s) as [| |q]; simpl in H; try tauto.
    unfold Num.min, Num.add, Num.lt, ofZ. qcases; simpl; qlra.
  - apply hitPipeBottom_band in H. rewrite minY_value.
    destruct (Step.yClamped s) as [| |q]; simpl in H; try tauto.
    unfold Num.max, Num.sub, Num.add, Num.neg, Num.lt, ofZ. qcases; simpl; qlra.
Qed.

Lemma find_holds (s : State.t) (c : Condition) :
  find (holds s) priority = Some c -> holds s c = true.
Proof. intro H. apply find_some in H. apply H. Qed.

Lemma handleCollisions_firstMatch (s : State.t) :
  handleCollisions s = firstMatch s.
Proof.
  unfold handleCollisions, firstMatch, Step.collided, priority.
  cbn [find existsb holds].
  destruct (Step.hitTop s), (Step.hitBottom s), (Step.hitPipeTop s),
    (Step.hitPipeBottom s); reflexivity.
Qed.

Lemma existsb_find_holds (s : State.t) :
  existsb (holds s) priority
  = match find (holds s) priority with Some _ => true | None => false end.
Proof.
  unfold priority. cbn [find existsb holds].
  destruct (Step.hitTop s), (Step.hitBottom s), (Step.hitPipeTop s),
    (Step.hitPipeBottom s); reflexivity.
Qed.

(** C4: in every physics step the outcome of [handleCollisions] is the one of
    the first condition that holds in the order top boundary, bottom
    boundary, obstacle top, obstacle bottom ([firstMatch]), and the
    [collided] flag is the disjunction of the four conditions, whichever of
    them decided position and velocity. *)
Theorem collision_priority (s : State.t) :
  handleCollisions s = firstMatch s /\
  CollisionOutcome.collided (handleCollisions s)
  = Step.hitTop s || Step.hitBottom s || Step.hitPipeTop s
    || Step.hitPipeBottom s.
Proof.
  split; [apply handleCollisions_firstMatch|].
  unfold handleCollisions, Step.collided.
  destruct (Step.hitTop s), (Step.hitBottom s), (Step.hitPipeTop s),
    (Step.hitPipeBottom s); reflexivity.
Qed.

Lemma bounce_velocity (s : State.t) (c : Condition) :
  seedInRange (State.seed s) ->
  exists mag v,
    RandInRange.value
      (randInRange (State.seed s)
         (ofZ Physics.BOUNCE_MIN) (ofZ Physics.BOUNCE_MAX)) = Fin mag /\
    (220 <= mag <= 420)%Q /\
    Step.b_vy (Step.bounce s (away c)) = Fin v /\
    (v == inject_Z (away c) * mag)%Q.
Proof.
  intro Hseed. destruct (value_range _ Hseed) as [mag [Hv Hm]].
  exists mag. unfold Step.bounce. cbn [Step.b_vy]. rewrite Hv.
  eexists. split; [reflexivity|]. split; [exact Hm|].
  split; [reflexivity|]. rewrite Qabs_pos by lra. reflexivity.
Qed.

(** C5 (amended): in a state whose seed the generator can hold, when a
    collision condition holds, the step draws once from the generator (the
    seed of the outcome is that draw's next seed, one [hash] step on), the
    drawn magnitude lies in [220, 420], the velocity is that magnitude signed
    away from the surface of the deciding condition, and the bird is put on
    the boundary after a boundary hit, and after an obstacle hit at its
    clamped predicted height moved by one pixel away from the obstacle part,
    always inside the band [15, 385]. *)
Theorem bounce_outcome (s : State.t) (c : Condition) :
  seedInRange (State.seed s) ->
  find (holds s) priority = Some c ->
  let o := handleCollisions s in
  let r :=
    randInRange (State.seed s)
      (ofZ Physics.BOUNCE_MIN) (ofZ Physics.BOUNCE_MAX) in
  CollisionOutcome.collided o = true /\
  CollisionOutcome.seed o = RandInRange.nextSeed r /\
  CollisionOutcome.seed o = RNG.hash (State.seed s) /\
  (exists mag v,
      RandInRange.value r = Fin mag /\ (220 <= mag <= 420)%Q /\
      CollisionOutcome.vy o = Fin v /\ (v == inject_Z (away c) * mag)%Q) /\
  CollisionOutcome.y o = landing s c /\
  within 15 385 (CollisionOutcome.y o).
Proof.
  intros Hseed Hfind o r. subst o.
  rewrite handleCollisions_firstMatch. unfold firstMatch.
  rewrite existsb_find_holds, Hfind. cbn [CollisionOutcome.collided
    CollisionOutcome.seed CollisionOutcome.vy CollisionOutcome.y].
  split; [reflexivity|]. split; [reflexivity|]. split; [reflexivity|].
  split; [subst r; apply bounce_velocity, Hseed|].
  split; [reflexivity|]. apply landing_band, find_holds, Hfind.
Qed.

Lemma bounce_outcome_witness :
  seedInRange (State.seed faceHit) /\
  find (holds faceHit) priority = Some ObstacleTop /\
  CollisionOutcome.seed (handleCollisions faceHit) = 1250496027 /\
  within 15 385 (CollisionOutcome.y (handleCollisions faceHit)).
Proof.
  assert (S : seedInRange (State.seed faceHit))
    by (vm_compute; split; [discriminate | reflexivity]).
  assert (F : find (holds faceHit) priority = Some ObstacleTop)
    by (vm_compute; reflexivity).
  split; [exact S|]. split; [exact F|].
  destruct (bounce_outcome faceHit ObstacleTop S F) as (_ & _ & Hs & _ & _ & Hy).
  split; [rewrite Hs; reflexivity | exact Hy].
Defined.

Lemma tick_running (s : State.t) :
  State.gameEnd s = false ->
  tick s =
  let col := handleCollisions s in
  let nextLives :=
    if CollisionOutcome.collided col
    then Z.max 0 (State.lives s - 1) else State.lives s in
  State.mk
    (State.timeMs s + Constants.TICK_RATE_MS)
    ((nextLives <=? 0)
     || ((State.nextId s - 1 >=? State.totalPipesPlanned s)
         && (length (Pipes.updatedPipes s) =? 0)%nat))
    (Bird.mk (Vec.mk (Vec.x (Bird.pos (State.bird s))) (CollisionOutcome.y col))
       (CollisionOutcome.vy col))
    (Pipes.updatedPipes s)
    nextLives
    (State.score s + Pipes.newlyPassedCount s)
    (State.nextId s)
    (CollisionOutcome.seed col)
    (State.totalPipesPlanned s)
    (State.ghosts s)
    (State.trace s ++ [Vec.mk (Vec.x (Bird.pos (State.bird s))) (CollisionOutcome.y col)]).
Proof. intro H. unfold tick. rewrite H. reflexivity. Qed.

(** C10: a tick of a running state leaves the seed alone when none of the
    four collision conditions holds, and replaces it by its [hash] when one
    does. *)
Theorem seed_advances_on_collision (s : State.t) :
  State.gameEnd s = false ->
  State.seed (tick s)
  = if Step.hitTop s || Step.hitBottom s || Step.hitPipeTop s
       || Step.hitPipeBottom s
    then RNG.hash (State.seed s) else State.seed s.
Proof.
  intro H. rewrite (tick_running s H). cbn [State.seed].
  rewrite handleCollisions_firstMatch. unfold firstMatch.
  rewrite existsb_find_holds. unfold priority. cbn [find holds].
  destruct (Step.hitTop s), (Step.hitBottom s), (Step.hitPipeTop s),
    (Step.hitPipeBottom s); reflexivity.
Qed.

Lemma seed_advances_on_collision_witness :
  State.gameEnd faceHit = false /\
  State.seed (tick faceHit) = RNG.hash 42.
Proof.
  split; [reflexivity|].
  rewrite (seed_advances_on_collision faceHit) by reflexivity.
  vm_compute. reflexivity.
Defined.

(** C5, as stated, fails for obstacle hits: the bird of [faceHit] meets the
    face of the upper pipe part and is moved one pixel down, which leaves
    its top side more than a hundred pixels from the gap edge. *)
Lemma faceHit_far_from_edge :
  seedInRange (State.seed faceHit) /\
  find (holds faceHit) priority = Some ObstacleTop /\
  ~ snappedToEdge 100 faceHit ObstacleTop.
Proof.
  split; [vm_compute; split; [discriminate | reflexivity]|].
  split; [vm_compute; reflexivity|].
  intros [p [[<-|[]] N]].
  vm_compute in N. destruct N as [N _]. apply N. reflexivity.
Qed.

(** ** The velocity bound *)

Lemma vy_bounded (s : State.t) :
  bounded s ->
  within (- inject_Z Physics.TERMINAL_VEL) (inject_Z Physics.TERMINAL_VEL)
    (Step.vy s).
Proof.
  intros [Hv _]. unfold Step.vy.
  destruct (Bird.velY (State.bird s)) as [| |v]; simpl in Hv; try tauto.
  apply clamp_within. unfold Physics.TERMINAL_VEL. qlra.
Qed.

Lemma stoppedVy_bounded (s : State.t) :
  bounded s ->
  within (- inject_Z Physics.TERMINAL_VEL) (inject_Z Physics.TERMINAL_VEL)
    (Step.stoppedVy s).
Proof.
  intro H. unfold Step.stoppedVy.
  destruct (_ || _); [|apply vy_bounded, H].
  unfold Physics.TERMINAL_VEL. simpl. qlra.
Qed.

Lemma outcome_bounded (s : State.t) :
  bounded s ->
  within (- inject_Z Physics.TERMINAL_VEL) (inject_Z Physics.TERMINAL_VEL)
    (CollisionOutcome.vy (handleCollisions s)) /\
  seedInRange (CollisionOutcome.seed (handleCollisions s)).
Proof.
  intro H. destruct (find (holds s) priority) as [c|] eqn:F.
  - destruct (bounce_velocity s c (proj2 H)) as (mag & v & _ & Hm & Hv & Hq).
    rewrite handleCollisions_firstMatch. unfold firstMatch. rewrite F.
    cbn [CollisionOutcome.vy CollisionOutcome.seed]. rewrite Hv.
    split; [|apply hash_seedInRange, H].
    simpl. destruct c; simpl in Hq; qlra.
  - rewrite handleCollisions_firstMatch. unfold firstMatch. rewrite F.
    split; [apply stoppedVy_bounded, H | apply H].
Qed.

Lemma bounded_start (seed0 : Z) (schedule : list SpawnSpec.t)
    (ghosts : GhostList) :
  freshSeed seed0 -> bounded (startState seed0 schedule ghosts).
Proof.
  intros [H1 H2]. split.
  - unfold Physics.TERMINAL_VEL. simpl. qlra.
  - unfold seedInRange, RNG.m. simpl. lia.
Qed.

Lemma bounded_reducer (e : Event) (s : State.t) :
  bounded s -> bounded (reducer e s).
Proof.
  intro H. destruct e; simpl.
  - destruct (State.gameEnd s) eqn:E.
    + unfold tick. rewrite E. exact H.
    + rewrite (tick_running s E). apply outcome_bounded, H.
  - split; [|apply H]. unfold Physics.TERMINAL_VEL, Physics.FLAP_VELOCITY.
    simpl. qlra.
  - exact H.
Qed.

Lemma reachable_bounded (s : State.t) : reachable s -> bounded s.
Proof.
  induction 1 as [seed0 schedule ghosts Hf | s e _ IH].
  - apply bounded_start, Hf.
  - apply bounded_reducer, IH.
Qed.

(** C3: in every state reachable from a start state through ticks, flaps and
    spawns, the vertical velocity of the bird is at most the terminal
    velocity 600 in absolute value. *)
Theorem velocity_bound (s : State.t) :
  reachable s ->
  (Num.abs (Bird.velY (State.bird s)) <=? ofZ Physics.TERMINAL_VEL)%num = true.
Proof.
  intro H. apply within_abs_le. apply reachable_bounded, H.
Qed.

Lemma velocity_bound_witness :
  reachable afterFlap /\
  (Num.abs (Bird.velY (State.bird afterFlap)) <=? ofZ 600)%num = true.
Proof.
  assert (R : reachable afterFlap).
  { apply (reach_step _ Tick), (reach_step _ Flap), reach_start.
    unfold freshSeed. lia. }
  split; [exact R | exact (velocity_bound afterFlap R)].
Defined.

(** ** Pipes: culling and scoring *)

Lemma filter_map_swap {A B : Type} (f : B -> bool) (g : A -> B) (l : list A) :
  filter f (map g l) = map g (filter (fun a => f (g a)) l).
Proof.
  induction l as [|a l IH]; [reflexivity|].
  simpl. destruct (f (g a)); simpl; rewrite IH; reflexivity.
Qed.

Lemma Forall2_map_r {A B : Type} (R : A -> B -> Prop) (f : A -> B)
    (l : list A) :
  (forall a, In a l -> R a (f a)) -> Forall2 R l (map f l).
Proof.
  induction l as [|a l IH]; intro H; simpl; constructor.
  - apply H. left. reflexivity.
  - apply IH. intros b Hb. apply H. right. exact Hb.
Qed.

Lemma combine_map_r {A B : Type} (f : A -> B) (l : list A) :
  combine l (map f l) = map (fun a => (a, f a)) l.
Proof.
  induction l as [|a l IH]; [reflexivity|]. simpl. rewrite IH. reflexivity.
Qed.

Lemma updatedPipes_survivors (s : State.t) :
  Pipes.updatedPipes s
  = map (fun p => Pipes.mark s (Pipes.move p)) (survivors s).
Proof.
  unfold Pipes.updatedPipes, Pipes.kept, Pipes.moved, survivors.
  rewrite filter_map_swap, map_map. reflexivity.
Qed.

Lemma mark_move_ticked (s : State.t) (p : Pipe.t) :
  ticked s p (Pipes.mark s (Pipes.move p)).
Proof.
  unfold ticked, Pipes.mark.
  destruct (Pipe.passed (Pipes.move p) || _) eqn:E;
    cbn [Pipe.id Pipe.x Pipe.gapY Pipe.gapH Pipe.passed Pipes.move] in *;
    rewrite E; repeat split; try reflexivity.
  apply orb_false_iff in E. apply E.
Qed.

Lemma ticked_monotone (s : State.t) (p p' : Pipe.t) :
  ticked s p p' -> Pipe.passed p = true -> Pipe.passed p' = true.
Proof.
  intros (_ & _ & _ & _ & H) Hp. rewrite H, Hp. reflexivity.
Qed.

Lemma unique_by_id (l : list Pipe.t) (p q : Pipe.t) :
  NoDup (map Pipe.id l) -> In p l -> In q l -> Pipe.id p = Pipe.id q -> p = q.
Proof.
  induction l as [|a l IH]; simpl; intros Hn Hp Hq E; [contradiction|].
  inversion Hn as [|? ? Hnot Hn']; subst.
  destruct Hp as [->|Hp], Hq as [->|Hq].
  - reflexivity.
  - exfalso. apply Hnot. rewrite E. apply in_map, Hq.
  - exfalso. apply Hnot. rewrite <- E. apply in_map, Hp.
  - apply IH; assumption.
Qed.

Lemma has_spec (set : list Z) (i : Z) : Pipes.has set i = true <-> In i set.
Proof.
  unfold Pipes.has. rewrite existsb_exists. split.
  - intros [j [Hj E]]. apply Z.eqb_eq in E. subst. exact Hj.
  - intro H. exists i. split; [exact H | apply Z.eqb_refl].
Qed.

Lemma has_prevPassed (s : State.t) (p : Pipe.t) :
  uniqueIds s -> In p (State.pipes s) ->
  Pipes.has (Pipes.prevPassed s) (Pipe.id p) = Pipe.passed p.
Proof.
  intros Hu Hp. unfold Pipes.prevPassed.
  destruct (Pipe.passed p) eqn:E.
  - apply has_spec. apply in_map. apply filter_In. split; assumption.
  - destruct (Pipes.has _ _) eqn:F; [|reflexivity].
    apply has_spec in F. apply in_map_iff in F.
    destruct F as [q [Hid Hq]]. apply filter_In in Hq. destruct Hq as [Hq Hpass].
    assert (q = p) by (eapply unique_by_id; eassumption).
    subst. congruence.
Qed.

Lemma survivors_incl (s : State.t) (p : Pipe.t) :
  In p (survivors s) -> In p (State.pipes s).
Proof. unfold survivors. intro H. apply filter_In in H. apply H. Qed.

Lemma newlyPassedCount_flipped (s : State.t) :
  uniqueIds s ->
  Pipes.newlyPassedCount s
  = Z.of_nat
      (length (filter flipped (combine (survivors s) (Pipes.updatedPipes s)))).
Proof.
  intro Hu. unfold Pipes.newlyPassedCount. f_equal.
  rewrite updatedPipes_survivors, combine_map_r.
  rewrite !filter_map_swap, !length_map. f_equal.
  apply filter_ext_in. intros p Hp. unfold flipped. cbn [fst snd].
  assert (Hid : Pipe.id (Pipes.mark s (Pipes.move p)) = Pipe.id p)
    by apply mark_move_ticked.
  rewrite Hid, has_prevPassed by (auto using survivors_incl).
  apply andb_comm.
Qed.

Lemma score_monotone (e : Event) (s : State.t) :
  State.score s <= State.score (reducer e s).
Proof.
  destruct e; simpl; try lia.
  unfold tick. destruct (State.gameEnd s); simpl; [lia|].
  unfold Pipes.newlyPassedCount. lia.
Qed.

Lemma birdLeftEdge_code (s : State.t) : birdLeftEdge s = Pipes.birdLeft s.
Proof. reflexivity. Qed.

Lemma ticked_passedRule (s : State.t) (p p' : Pipe.t) :
  ticked s p p' -> passedRule s p p'.
Proof. intros (_ & _ & _ & _ & H). exact H. Qed.

(** C6: one tick of a running state whose pipes carry distinct ids keeps
    the surviving pipes in order, each moved left and otherwise unchanged
    but for its flag; it never resets a [passed] flag, and sets it exactly
    when it was set or the right edge of the moved pipe (the right side of
    its hitbox, [x + 50]) is left of the bird's left edge (the left side of
    the bird's hitbox, [x - 21]); it raises the score by the number of pipes
    whose flag went from false to true; no reducer lowers the score. *)
Theorem scoring_exact (s : State.t) :
  State.gameEnd s = false ->
  uniqueIds s ->
  Forall2 (ticked s) (survivors s) (State.pipes (tick s)) /\
  Forall2 (passedRule s) (survivors s) (State.pipes (tick s)) /\
  (forall p, rightEdge p = (Pipe.x p + Fin 50)%num) /\
  birdLeftEdge s = (Vec.x (Bird.pos (State.bird s)) - Fin 42 / Fin 2)%num /\
  birdLeftEdge (tick s) = birdLeftEdge s /\
  Forall2 (fun p p' => Pipe.passed p = true -> Pipe.passed p' = true)
    (survivors s) (State.pipes (tick s)) /\
  State.score (tick s)
  = State.score s
    + Z.of_nat
        (length
           (filter flipped (combine (survivors s) (State.pipes (tick s))))) /\
  (forall e, State.score s <= State.score (reducer e s)).
Proof.
  intros He Hu. rewrite (tick_running s He). cbn [State.pipes State.score].
  split; [|split; [|split; [|split; [|split; [|split; [|split]]]]]].
  - rewrite updatedPipes_survivors. apply Forall2_map_r.
    intros p _. apply mark_move_ticked.
  - rewrite updatedPipes_survivors. apply Forall2_map_r.
    intros p _. apply ticked_passedRule, mark_move_ticked.
  - intro p. reflexivity.
  - reflexivity.
  - reflexivity.
  - rewrite updatedPipes_survivors. apply Forall2_map_r.
    intros p _. apply (ticked_monotone s), mark_move_ticked.
  - rewrite newlyPassedCount_flipped by exact Hu. reflexivity.
  - intro e. apply score_monotone.
Qed.

Lemma passing_uniqueIds : uniqueIds passing.
Proof.
  unfold uniqueIds. simpl. repeat constructor; simpl; intuition discriminate.
Qed.

Lemma alongside_uniqueIds : uniqueIds alongside.
Proof.
  unfold uniqueIds. simpl. repeat constructor; simpl; intuition discriminate.
Qed.

Lemma scoring_exact_witness :
  State.gameEnd alongside = false /\
  uniqueIds alongside /\
  map Pipe.passed (State.pipes (tick alongside)) = [true; false; false] /\
  State.score (tick alongside) = State.score alongside + 1.
Proof.
  split; [reflexivity|]. split; [exact alongside_uniqueIds|].
  destruct (scoring_exact alongside eq_refl alongside_uniqueIds)
    as (_ & _ & _ & _ & _ & _ & H & _).
  split; [vm_compute; reflexivity|].
  rewrite H. vm_compute. reflexivity.
Defined.

Lemma rightOfScreenEdge_onScreen (p : Pipe.t) :
  rightOfScreenEdge p = Pipes.onScreen p.
Proof.
  unfold rightOfScreenEdge, Pipes.onScreen, Num.gt.
  destruct (Pipe.x p) as [|[|]|q]; try reflexivity.
  unfold Num.add, Num.neg, Num.lt, ofZ.
  destruct (Qltb (inject_Z 0) _) eqn:E1, (Qltb (- inject_Z _) q) eqn:E2;
    try reflexivity; exfalso; qcases; qlra.
Qed.

Lemma offscreen_culled (p : Pipe.t) :
  (Pipe.x p <=? Num.neg (ofZ Constants.PIPE_WIDTH))%num = true ->
  Pipes.onScreen (Pipes.move p) = false.
Proof.
  unfold Pipes.onScreen, Pipes.move, Num.gt. cbn [Pipe.x].
  destruct (Pipe.x p) as [|[|]|q]; try discriminate; [reflexivity|].
  unfold Num.le, Num.neg, ofZ. intro H.
  change (Num.lt (Fin (- inject_Z Constants.PIPE_WIDTH))
            (Fin (q + - (inject_Z Constants.PIPE_SPEED_PX_S
                         * (inject_Z Constants.TICK_RATE_MS / inject_Z 1000))))
          = false).
  unfold Num.lt. apply Qltb_false. qcases. qlra.
Qed.

Lemma ticked_pipes (s : State.t) :
  State.gameEnd s = false ->
  State.pipes (tick s)
  = map (fun p => Pipes.mark s (Pipes.move p)) (survivors s).
Proof.
  intro He. rewrite (tick_running s He). cbn [State.pipes].
  apply updatedPipes_survivors.
Qed.

Lemma retained_iff (s : State.t) (p : Pipe.t) :
  State.gameEnd s = false -> uniqueIds s -> In p (State.pipes s) ->
  (exists p', In p' (State.pipes (tick s)) /\ Pipe.id p' = Pipe.id p)
  <-> Pipes.onScreen (Pipes.move p) = true.
Proof.
  intros He Hu Hp. rewrite (ticked_pipes s He). split.
  - intros [p' [Hin Hid]]. apply in_map_iff in Hin.
    destruct Hin as [q [<- Hq]].
    assert (Hqid : Pipe.id (Pipes.mark s (Pipes.move q)) = Pipe.id q)
      by apply mark_move_ticked.
    rewrite Hqid in Hid.
    assert (q = p)
      by (eapply unique_by_id; eauto using survivors_incl).
    subst q. unfold survivors in Hq. apply filter_In in Hq. apply Hq.
  - intro Hon. exists (Pipes.mark s (Pipes.move p)). split.
    + apply (in_map (fun q => Pipes.mark s (Pipes.move q))).
      unfold survivors. apply filter_In. split; assumption.
    + apply mark_move_ticked.
Qed.

(** C7: one tick of a running state whose pipes carry distinct ids keeps
    exactly the pipes whose right edge, once moved, is right of the left
    edge of the screen, in order; in particular a pipe with
    [x <= -PIPE_WIDTH] before the tick has no successor after it. *)
Theorem culling_exact (s : State.t) :
  State.gameEnd s = false ->
  uniqueIds s ->
  Forall2 (ticked s)
    (filter (fun p => rightOfScreenEdge (Pipes.move p)) (State.pipes s))
    (State.pipes (tick s)) /\
  (forall p, In p (State.pipes s) ->
     ((exists p', In p' (State.pipes (tick s)) /\ Pipe.id p' = Pipe.id p)
      <-> rightOfScreenEdge (Pipes.move p) = true)) /\
  (forall p, In p (State.pipes s) ->
     (Pipe.x p <=? Num.neg (ofZ Constants.PIPE_WIDTH))%num = true ->
     forall p', In p' (State.pipes (tick s)) -> Pipe.id p' <> Pipe.id p).
Proof.
  intros He Hu. split; [|split].
  - rewrite (filter_ext _ (fun p => Pipes.onScreen (Pipes.move p)))
      by (intro p; apply rightOfScreenEdge_onScreen).
    rewrite (ticked_pipes s He). apply Forall2_map_r.
    intros p _. apply mark_move_ticked.
  - intros p Hp. rewrite rightOfScreenEdge_onScreen.
    apply retained_iff; assumption.
  - intros p Hp Hx p' Hp' Hid.
    assert (Hon : Pipes.onScreen (Pipes.move p) = true)
      by (apply (retained_iff s p He Hu Hp); exists p'; split; assumption).
    rewrite (offscreen_culled p Hx) in Hon. discriminate.
Qed.

Lemma leaving_uniqueIds : uniqueIds leaving.
Proof.
  unfold uniqueIds. simpl. repeat constructor; simpl; intuition discriminate.
Qed.

Lemma culling_exact_witness :
  State.gameEnd leaving = false /\
  uniqueIds leaving /\
  map Pipe.id (State.pipes leaving) = [1; 2] /\
  forall p', In p' (State.pipes (tick leaving)) -> Pipe.id p' <> 1.
Proof.
  split; [reflexivity|]. split; [exact leaving_uniqueIds|].
  split; [reflexivity|].
  destruct (culling_exact leaving eq_refl leaving_uniqueIds) as (_ & _ & H).
  apply (H (Pipe.mk 1 (Fin (-50)) (Fin 200) (Fin 100) true)).
  - left. reflexivity.
  - reflexivity.
Defined.

(** Every state of a run has pipes with distinct ids, all below [nextId]. *)
Lemma ids_filter (f : Pipe.t -> bool) (l : list Pipe.t) :
  NoDup (map Pipe.id l) -> NoDup (map Pipe.id (filter f l)).
Proof.
  induction l as [|a l IH]; simpl; intro H; [constructor|].
  inversion H as [|? ? Hnot Hn]; subst.
  destruct (f a); simpl; [constructor|]; auto.
  intro Hin. apply Hnot. apply in_map_iff in Hin.
  destruct Hin as [q [E Hq]]. apply filter_In in Hq.
  rewrite <- E. apply in_map, Hq.
Qed.

Lemma ticked_ids (s : State.t) :
  State.gameEnd s = false ->
  map Pipe.id (State.pipes (tick s)) = map Pipe.id (survivors s).
Proof.
  intro He. rewrite (ticked_pipes s He), map_map.
  apply map_ext. intro p. apply mark_move_ticked.
Qed.

Lemma reachable_ids (s : State.t) :
  reachable s ->
  uniqueIds s /\
  Forall (fun p => Pipe.id p < State.nextId s) (State.pipes s).
Proof.
  induction 1 as [seed0 schedule ghosts _ | s e _ [IHu IHb]].
  - split; constructor.
  - destruct e; simpl.
    + destruct (State.gameEnd s) eqn:He.
      * unfold tick. rewrite He. split; assumption.
      * split.
        -- unfold uniqueIds. rewrite (ticked_ids s He).
           apply ids_filter, IHu.
        -- rewrite (tick_running s He). cbn [State.pipes State.nextId].
           rewrite updatedPipes_survivors. apply Forall_forall.
           intros p' Hp'. apply in_map_iff in Hp'.
           destruct Hp' as [p [<- Hp]].
           assert (Hid : Pipe.id (Pipes.mark s (Pipes.move p)) = Pipe.id p)
             by apply mark_move_ticked.
           rewrite Hid. rewrite Forall_forall in IHb.
           apply IHb, survivors_incl, Hp.
    + split; assumption.
    + split.
      * unfold uniqueIds. simpl. rewrite map_app. simpl.
        apply NoDup_app; [exact IHu | repeat constructor; intros [] |].
        intros i Hi [<-|[]]. apply in_map_iff in Hi.
        destruct Hi as [p [E Hp]]. rewrite Forall_forall in IHb.
        specialize (IHb p Hp). lia.
      * simpl. apply Forall_app. split.
        -- eapply Forall_impl; [|exact IHb]. simpl. intros; lia.
        -- repeat constructor. simpl. lia.
Qed.

(** ** Determinism of a run *)

Lemma Run_scan (s : State.t) (events : list Event) :
  Run s events (scan (fun s r => r s) s (map reducer events)).
Proof.
  revert s. induction events as [|e es IH]; intro s; simpl.
  - constructor.
  - constructor. apply IH.
Qed.

Lemma Run_functional (s : State.t) (events : list Event)
    (tr1 tr2 : list State.t) :
  Run s events tr1 -> Run s events tr2 -> tr1 = tr2.
Proof.
  intro R1. revert tr2.
  induction R1 as [s | s e es tr R1 IH]; intros tr2 R2; inversion R2; subst.
  - reflexivity.
  - f_equal. apply IH. assumption.
Qed.

(** C1: for a fixed initial seed (with the schedule and the ghosts of the
    run) and a fixed order of ticks, flaps and spawns, the engine produces
    one sequence of states: [states] is a run, and two runs of the same
    events from the same start state are equal state by state, velocities
    and seeds included. *)
Theorem determinism (seed0 : Z) (schedule : list SpawnSpec.t)
    (ghosts : GhostList) (events : list Event) :
  Run (startState seed0 schedule ghosts) events
    (states seed0 schedule ghosts events) /\
  (forall tr1 tr2,
      Run (startState seed0 schedule ghosts) events tr1 ->
      Run (startState seed0 schedule ghosts) events tr2 ->
      tr1 = tr2 /\
      map (fun s => Bird.velY (State.bird s)) tr1
      = map (fun s => Bird.velY (State.bird s)) tr2).
Proof.
  split.
  - apply Run_scan.
  - intros tr1 tr2 R1 R2.
    assert (tr1 = tr2) by (eapply Run_functional; eassumption).
    subst. split; reflexivity.
Qed.

(** ** After the game has ended *)

Lemma tick_ended (s : State.t) : State.gameEnd s = true -> tick s = s.
Proof. intro H. unfold tick. rewrite H. reflexivity. Qed.

Lemma spawnPipe_changes (spec : SpawnSpec.t) (s : State.t) :
  spawnPipe spec s <> s.
Proof.
  intro H. apply (f_equal State.nextId) in H. simpl in H. lia.
Qed.

Lemma flapR_changes (s : State.t) :
  (Bird.velY (State.bird s) === ofZ Physics.FLAP_VELOCITY)%num = false ->
  flapR s <> s.
Proof.
  intros Hv H. apply (f_equal (fun t => Bird.velY (State.bird t))) in H.
  simpl in H. rewrite <- H in Hv. vm_compute in Hv. discriminate.
Qed.

(** C2 does not hold of the code: [gameOver] has ended, and [tick] leaves
    it alone, but [flapR] overwrites its velocity and [spawnPipe] appends a
    pipe and advances [nextId]. *)
Theorem ended_state_not_fixed :
  reachable gameOver /\
  State.gameEnd gameOver = true /\
  tick gameOver = gameOver /\
  flapR gameOver <> gameOver /\
  spawnPipe midGap gameOver <> gameOver /\
  Bird.velY (State.bird gameOver) = Fin (0 + 1200 * (16 / 1000)) /\
  Bird.velY (State.bird (flapR gameOver)) = Fin (-350) /\
  length (State.pipes (spawnPipe midGap gameOver)) = 1%nat /\
  State.nextId (spawnPipe midGap gameOver) = State.nextId gameOver + 1.
Proof.
  split.
  { apply (reach_step _ Tick), reach_start. unfold freshSeed. lia. }
  split; [reflexivity|].
  split; [apply tick_ended; reflexivity|].
  split; [apply flapR_changes; reflexivity|].
  split; [apply spawnPipe_changes|].
  repeat split; reflexivity.
Qed.

(** ** The schedule parser *)




Lemma consFirst_Forall (P : N -> Prop) (u : N) (ps : list jsstring) :
  P u -> Forall (Forall P) ps -> Forall (Forall P) (Str.consFirst u ps).
Proof.
  intros Hu Hps. destruct ps as [|p ps]; simpl.
  - repeat constructor. exact Hu.
  - inversion Hps; subst. constructor; [constructor|]; assumption.
Qed.

Lemma splitLines_no_LF (s : jsstring) :
  Forall (Forall (fun u => u <> Str.LF)) (Str.splitLines s).
Proof.
  induction s as [|u s IH]; simpl; [repeat constructor|].
  destruct (N.eqb_spec u Str.LF) as [->|Hne]; [constructor; [constructor|exact IH]|].
  destruct (_ && _); [exact IH|].
  apply consFirst_Forall; assumption.
Qed.






Lemma mul_NaN_l (b : number) : (NaN * b)%num = NaN.
Proof. reflexivity. Qed.

Section ParseFacts.

Variable StringToNumber : jsstring -> number.



End ParseFacts.

(** *** What [Number] takes for a number *)




























(** ** What the reducers keep *)

(** Induction over a run: a property of the start states that every reducer
    keeps holds in every reachable state. *)
Lemma reachable_ind_inv (P : State.t -> Prop) :
  (forall seed0 schedule ghosts,
      freshSeed seed0 -> P (startState seed0 schedule ghosts)) ->
  (forall s e, reachable s -> P s -> P (reducer e s)) ->
  forall s, reachable s -> P s.
Proof.
  intros H0 Hstep s R. induction R; [apply H0 | apply Hstep]; assumption.
Qed.

Lemma handleCollisions_y (s : State.t) :
  CollisionOutcome.y (handleCollisions s)
  = match find (holds s) priority with
    | Some c => landing s c
    | None => Step.yClamped s
    end.
Proof.
  rewrite handleCollisions_firstMatch. unfold firstMatch.
  destruct (find (holds s) priority); reflexivity.
Qed.

Lemma yNextRaw_finite (s : State.t) :
  bounded s ->
  (exists y, Vec.y (Bird.pos (State.bird s)) = Fin y) ->
  exists r, Step.yNextRaw s = Fin r.
Proof.
  intros Hb [y Hy]. pose proof (vy_bounded s Hb) as Hv.
  unfold Step.yNextRaw. rewrite Hy.
  destruct (Step.vy s) as [| |v]; simpl in Hv; try tauto.
  eexists. reflexivity.
Qed.

Lemma within_finite (lo hi : Q) (a : number) :
  within lo hi a -> exists q, a = Fin q.
Proof. destruct a; simpl; try tauto. intros _. eexists. reflexivity. Qed.

Lemma outcome_in_band (s : State.t) :
  bounded s ->
  within 15 385 (Vec.y (Bird.pos (State.bird s))) ->
  within 15 385 (CollisionOutcome.y (handleCollisions s)).
Proof.
  intros Hb Hy. rewrite handleCollisions_y.
  destruct (find (holds s) priority) as [c|] eqn:F.
  - apply landing_band, find_holds, F.
  - destruct (yNextRaw_finite s Hb (within_finite _ _ _ Hy)) as [r Hr].
    unfold Step.yClamped. apply clamp_band. rewrite Hr. discriminate.
Qed.

Lemma birdOnScreen_reducer (e : Event) (s : State.t) :
  bounded s -> birdOnScreen s -> birdOnScreen (reducer e s).
Proof.
  intros Hb [Hx Hy]. destruct e; cbn [reducer].
  - destruct (State.gameEnd s) eqn:E.
    + rewrite tick_ended by exact E. split; assumption.
    + rewrite (tick_running s E). split; [exact Hx|].
      apply outcome_in_band; assumption.
  - split; [exact Hx | exact Hy].
  - split; [exact Hx | exact Hy].
Qed.

Lemma reachable_birdOnScreen (s : State.t) :
  reachable s -> birdOnScreen s.
Proof.
  intro R. induction R as [seed0 schedule ghosts Hf | s e R IH].
  - split; [reflexivity|]. vm_compute. split; discriminate.
  - apply birdOnScreen_reducer; [apply reachable_bounded, R | exact IH].
Qed.

(** X1: in every reachable state the bird is in the column it started in
    (30% of the canvas width) and its height is a finite number between
    [minY = 15] and [maxY = 385]: the bird never leaves the canvas. *)
Theorem bird_stays_on_screen (s : State.t) :
  reachable s ->
  (Vec.x (Bird.pos (State.bird s)) === ofZ 180)%num = true /\
  exists y,
    Vec.y (Bird.pos (State.bird s)) = Fin y /\ (15 <= y <= 385)%Q.
Proof.
  intro R. destruct (reachable_birdOnScreen s R) as [Hx Hy].
  split; [rewrite Hx; reflexivity|].
  destruct (Vec.y (Bird.pos (State.bird s))) as [| |y]; simpl in Hy;
    try tauto.
  exists y. split; [reflexivity | exact Hy].
Qed.

Lemma bird_stays_on_screen_witness :
  reachable afterFlap /\ birdOnScreen afterFlap.
Proof.
  assert (R : reachable afterFlap).
  { apply (reach_step _ Tick), (reach_step _ Flap), reach_start.
    unfold freshSeed. lia. }
  split; [exact R|].
  destruct (bird_stays_on_screen afterFlap R) as [_ [y [Hy Hb]]].
  unfold birdOnScreen. rewrite Hy. split; [reflexivity | exact Hb].
Defined.

Lemma livesOk_reducer (e : Event) (s : State.t) :
  livesOk s -> livesOk (reducer e s).
Proof.
  intro H0. destruct e; cbn [reducer]; [|exact H0..].
  destruct (State.gameEnd s) eqn:E.
  - rewrite tick_ended by exact E. exact H0.
  - destruct H0 as [Hl Hr]. rewrite E in Hr.
    rewrite (tick_running s E). unfold livesOk. cbv zeta.
    cbn [State.lives State.gameEnd].
    specialize (Hr eq_refl).
    destruct (CollisionOutcome.collided (handleCollisions s)).
    + split; [lia|]. intro H. apply orb_false_iff in H. destruct H as [H _].
      apply Z.leb_gt in H. lia.
    + split; [lia|]. intros _. exact Hr.
Qed.

Lemma reachable_livesOk (s : State.t) :
  reachable s -> livesOk s.
Proof.
  intro R. induction R as [seed0 schedule ghosts Hf | s e R IH].
  - split; [simpl; lia | intros _; simpl; lia].
  - apply livesOk_reducer, IH.
Qed.

(** X2: in every reachable state the lives are between 0 and 3, a game
    that has not ended has at least one life left, and a state without
    lives has ended. *)
Theorem lives_in_range (s : State.t) :
  reachable s ->
  0 <= State.lives s <= 3 /\
  (State.gameEnd s = false -> 1 <= State.lives s) /\
  (State.lives s = 0 -> State.gameEnd s = true).
Proof.
  intro R. destruct (reachable_livesOk s R) as [Hl Hr].
  split; [exact Hl|]. split; [exact Hr|].
  intro H0. destruct (State.gameEnd s); [reflexivity|].
  specialize (Hr eq_refl). lia.
Qed.

Lemma lives_in_range_witness :
  reachable gameOver /\ livesOk gameOver.
Proof.
  assert (R : reachable gameOver).
  { apply (reach_step _ Tick), reach_start. unfold freshSeed. lia. }
  split; [exact R|].
  destruct (lives_in_range gameOver R) as (H1 & H2 & _).
  split; assumption.
Defined.

Lemma ended_state_frozen_fields_aux (e : Event) (s : State.t) :
  State.gameEnd s = true ->
  State.gameEnd (reducer e s) = true /\
  State.trace (reducer e s) = State.trace s.
Proof.
  intro H. destruct e; cbn [reducer].
  - rewrite tick_ended by exact H. split; [exact H | reflexivity].
  - split; [exact H | reflexivity].
  - split; [exact H | reflexivity].
Qed.

(** X3: once the game has ended no reducer restarts it, and no reducer
    changes the clock, the position of the bird, the lives, the score, the
    seed, the trace, the ghosts or the plan size; what [flapR] and
    [spawnPipe] still change is the velocity, the pipes and [nextId]. *)
Theorem ended_state_frozen_fields (e : Event) (s : State.t) :
  State.gameEnd s = true ->
  State.gameEnd (reducer e s) = true /\
  State.timeMs (reducer e s) = State.timeMs s /\
  Bird.pos (State.bird (reducer e s)) = Bird.pos (State.bird s) /\
  State.lives (reducer e s) = State.lives s /\
  State.score (reducer e s) = State.score s /\
  State.seed (reducer e s) = State.seed s /\
  State.trace (reducer e s) = State.trace s /\
  State.ghosts (reducer e s) = State.ghosts s /\
  State.totalPipesPlanned (reducer e s) = State.totalPipesPlanned s.
Proof.
  intro H. destruct e; cbn [reducer].
  - rewrite tick_ended by exact H. repeat split; try reflexivity. exact H.
  - repeat split; try reflexivity. exact H.
  - repeat split; try reflexivity. exact H.
Qed.

Lemma ended_state_frozen_fields_witness :
  State.gameEnd gameOver = true /\
  State.trace (reducer (Spawn midGap) gameOver) = State.trace gameOver.
Proof.
  split; [reflexivity|].
  apply (ended_state_frozen_fields (Spawn midGap) gameOver). reflexivity.
Defined.

Lemma traceOk_reducer (e : Event) (s : State.t) :
  traceOk s -> traceOk (reducer e s).
Proof.
  intros [Ht Hl]. destruct e; cbn [reducer]; [|split; [exact Ht | exact Hl]..].
  destruct (State.gameEnd s) eqn:E.
  - rewrite tick_ended by exact E. split; assumption.
  - rewrite (tick_running s E). unfold traceOk. cbv zeta.
    cbn [State.timeMs State.trace State.bird Bird.pos]. split.
    + rewrite Ht, length_app. cbn [length]. unfold Constants.TICK_RATE_MS. lia.
    + apply last_last.
Qed.

Lemma reachable_traceOk (s : State.t) :
  reachable s -> traceOk s.
Proof.
  intro R. induction R as [seed0 schedule ghosts Hf | s e R IH].
  - split; reflexivity.
  - apply traceOk_reducer, IH.
Qed.

(** X4: in every reachable state the clock is the tick interval times the
    length of the trace (one entry per tick that ran), and the last entry of
    the trace is the position of the bird (the start position while the
    trace is empty). *)
Theorem clock_counts_trace (s : State.t) :
  reachable s ->
  State.timeMs s = 16 * Z.of_nat (length (State.trace s)) /\
  last (State.trace s) startPos = Bird.pos (State.bird s) /\
  (State.trace s <> [] -> In (Bird.pos (State.bird s)) (State.trace s)).
Proof.
  intro R. destruct (reachable_traceOk s R) as [Ht Hl].
  split; [exact Ht|]. split; [exact Hl|].
  intro Hne. rewrite <- Hl.
  destruct (exists_last Hne) as [l [a E]]. rewrite E, last_last.
  apply in_or_app. right. left. reflexivity.
Qed.

Lemma clock_counts_trace_witness :
  reachable afterFlap /\ traceOk afterFlap.
Proof.
  assert (R : reachable afterFlap).
  { apply (reach_step _ Tick), (reach_step _ Flap), reach_start.
    unfold freshSeed. lia. }
  split; [exact R|].
  destruct (clock_counts_trace afterFlap R) as (H1 & H2 & _).
  split; assumption.
Defined.

(** ** Ghost replay and the ghost store *)

Lemma replayGhost_nonneg (trace : Trace) (timeMs : Z) :
  0 <= timeMs ->
  replayGhost trace timeMs
  = match nth_error trace (Z.to_nat (ghostIdx timeMs)) with
    | Some g =>
        Shown (Vec.x g - ofZ bird.WIDTH / ofZ 2)%num
              (Vec.y g - ofZ bird.HEIGHT / ofZ 2)%num
    | None => Hidden
    end.
Proof.
  intro H. unfold replayGhost, at_.
  assert (Hi : 0 <= ghostIdx timeMs)
    by (unfold ghostIdx, Constants.TICK_RATE_MS; apply Z.div_pos; lia).
  destruct (ghostIdx timeMs <? 0) eqn:Hneg; [apply Z.ltb_lt in Hneg; lia|].
  destruct (ghostIdx timeMs <? Z.of_nat (length trace)) eqn:Hlt.
  - apply Z.ltb_lt in Hlt.
    assert (Hpos : (Z.of_nat (length trace) >? 0) = true)
      by (apply Z.gtb_lt; lia).
    rewrite Hpos. cbn [andb].
    destruct (nth_error trace (Z.to_nat (ghostIdx timeMs))) eqn:Hn;
      [reflexivity|].
    apply nth_error_None in Hn. lia.
  - rewrite andb_false_r. apply Z.ltb_ge in Hlt.
    assert (Hn : nth_error trace (Z.to_nat (ghostIdx timeMs)) = None)
      by (apply nth_error_None; lia).
    rewrite Hn. reflexivity.
Qed.

(** X5: when a reachable state is rendered, the image of a ghost is placed
    at the entry of the ghost's trace whose index is the number of ticks the
    current run has recorded (shifted by half the size of the bird), and it
    is hidden once the current run has recorded at least as many ticks as
    the ghost's trace holds; the renderer never reads outside the trace. *)
Theorem ghost_replay_in_step (s : State.t) (ghost : Trace) :
  reachable s ->
  replayGhost ghost (State.timeMs s)
  = match nth_error ghost (length (State.trace s)) with
    | Some g =>
        Shown (Vec.x g - ofZ bird.WIDTH / ofZ 2)%num
              (Vec.y g - ofZ bird.HEIGHT / ofZ 2)%num
    | None => Hidden
    end.
Proof.
  intro R. destruct (reachable_traceOk s R) as [Ht _].
  rewrite replayGhost_nonneg
    by (rewrite Ht; unfold Constants.TICK_RATE_MS; lia).
  rewrite Ht. unfold ghostIdx.
  rewrite Z.mul_comm, Z.div_mul by discriminate.
  rewrite Nat2Z.id. reflexivity.
Qed.

Lemma ghost_replay_in_step_witness :
  reachable afterFlap /\
  replayGhost (State.trace afterFlap) (State.timeMs afterFlap) = Hidden.
Proof.
  assert (R : reachable afterFlap).
  { apply (reach_step _ Tick), (reach_step _ Flap), reach_start.
    unfold freshSeed. lia. }
  split; [exact R|].
  rewrite (ghost_replay_in_step afterFlap (State.trace afterFlap) R).
  reflexivity.
Defined.

(** X6: with a negative clock and a ghost that has a trace, the renderer
    reads [trace[-1]], which is [undefined], and fails; with a clock that is
    not negative it never fails. *)
Theorem ghost_replay_failure (trace : Trace) (timeMs : Z) :
  trace <> [] ->
  (replayGhost trace timeMs = TypeError <-> timeMs < 0).
Proof.
  intro Hne. split.
  - intro H. destruct (Z.lt_ge_cases timeMs 0) as [Hlt|Hge]; [exact Hlt|].
    rewrite replayGhost_nonneg in H by exact Hge.
    destruct (nth_error trace _); discriminate.
  - intro Hlt. unfold replayGhost, at_.
    assert (Hi : ghostIdx timeMs < 0)
      by (unfold ghostIdx, Constants.TICK_RATE_MS;
          apply Z.div_lt_upper_bound; lia).
    assert (Hlen : 0 < Z.of_nat (length trace))
      by (destruct trace; [congruence | simpl; lia]).
    assert (H1 : (Z.of_nat (length trace) >? 0) = true)
      by (apply Z.gtb_lt; lia).
    assert (H2 : (ghostIdx timeMs <? Z.of_nat (length trace)) = true)
      by (apply Z.ltb_lt; lia).
    assert (H3 : (ghostIdx timeMs <? 0) = true) by (apply Z.ltb_lt; lia).
    rewrite H1, H2, H3. reflexivity.
Qed.

Lemma ghost_replay_failure_witness :
  [startPos] <> [] /\ replayGhost [startPos] (-1) = TypeError.
Proof.
  assert (H : [startPos] <> []) by discriminate.
  split; [exact H|].
  apply (ghost_replay_failure [startPos] (-1) H). lia.
Defined.

Lemma ended_run_same_trace (s : State.t) (events : list Event) :
  State.gameEnd s = true ->
  Forall (fun t => State.gameEnd t = true /\ State.trace t = State.trace s)
    (scan (fun s r => r s) s (map reducer events)).
Proof.
  revert s. induction events as [|e es IH]; intros s H; simpl; constructor.
  - destruct (ended_state_frozen_fields_aux e s H) as [H1 H2]. split; assumption.
  - destruct (ended_state_frozen_fields_aux e s H) as [H1 H2].
    specialize (IH _ H1). rewrite H2 in IH. exact IH.
Qed.

Lemma last_cons_default {A : Type} (a d : A) (l : list A) :
  last (a :: l) d = last l a.
Proof.
  revert a d. induction l as [|b l IH]; intros a d; [reflexivity|].
  change (last (a :: b :: l) d) with (last (b :: l) d).
  rewrite (IH b d), (IH b a). reflexivity.
Qed.

Lemma Forall_last {A : Type} (P : A -> Prop) (l : list A) (d : A) :
  Forall P l -> P d -> P (last l d).
Proof.
  intros H Hd. induction H as [|a l Ha Hl IH]; [exact Hd|].
  rewrite last_cons_default. clear IH.
  revert a Ha. induction Hl as [|b l Hb Hl IH]; intros a Ha; [exact Ha|].
  rewrite last_cons_default. apply IH, Hb.
Qed.

Lemma ghostStoreAfter_ended (store : GhostList) (tr : Trace)
    (emitted : list State.t) :
  Forall (fun t => State.gameEnd t = true /\ State.trace t = tr) emitted ->
  ghostStoreAfter store emitted = store ++ repeat tr (length emitted) /\
  filter State.gameEnd emitted = emitted.
Proof.
  revert store. induction emitted as [|t l IH]; intros store H.
  - simpl. rewrite app_nil_r. split; reflexivity.
  - inversion H as [|? ? [He Ht] Hl]; subst.
    destruct (IH (store ++ [State.trace t]) Hl) as [IH1 IH2].
    unfold ghostStoreAfter in *. cbn [fold_left filter length repeat].
    unfold recordGhost at 2. rewrite He, IH1, IH2, <- app_assoc.
    split; reflexivity.
Qed.

(** X7: the store of ghost traces gains one copy of the trace for every
    emitted state whose game has ended, not one per run: every reducer that
    arrives after the end (a tick, a flap, a spawn) emits an ended state
    with the same trace, and the tap appends that trace again. *)
Theorem ghost_store_growth (store : GhostList) (s : State.t)
    (events : list Event) :
  let emitted := scan (fun s r => r s) s (map reducer events) in
  ghostStoreAfter store emitted
  = store
    ++ repeat (State.trace (last emitted s))
         (length (filter State.gameEnd emitted)).
Proof.
  cbv zeta. revert store s.
  induction events as [|e es IH]; intros store s.
  - simpl. rewrite app_nil_r. reflexivity.
  - cbn [map scan]. set (s1 := reducer e s).
    set (rest := scan (fun s r => r s) s1 (map reducer es)).
    rewrite last_cons_default.
    unfold ghostStoreAfter. cbn [fold_left filter].
    fold (ghostStoreAfter (recordGhost store s1) rest).
    unfold recordGhost. destruct (State.gameEnd s1) eqn:He.
    + pose proof (ended_run_same_trace s1 es He) as Hall. fold rest in Hall.
      destruct (ghostStoreAfter_ended (store ++ [State.trace s1])
                  (State.trace s1) rest Hall) as [H1 H2].
      rewrite H1, H2, <- app_assoc. cbn [length repeat app].
      assert (Hlast : State.trace (last rest s1) = State.trace s1).
      { apply (Forall_last (fun t => State.trace t = State.trace s1));
          [|reflexivity].
        eapply Forall_impl; [|exact Hall]. intros t [_ Ht]. exact Ht. }
      rewrite Hlast. reflexivity.
    + apply IH.
Qed.

(** ** Pipes along a run *)

Lemma birdLeft_start (s : State.t) :
  birdOnScreen s ->
  Pipes.birdLeft s
  = Fin (inject_Z 600 * (3 # 10) + - (inject_Z 42 / inject_Z 2)).
Proof. intros [Hx _]. unfold Pipes.birdLeft. rewrite Hx. reflexivity. Qed.

Lemma birdLeft_reducer (e : Event) (s : State.t) :
  Pipes.birdLeft (reducer e s) = Pipes.birdLeft s.
Proof.
  destruct e; cbn [reducer]; try reflexivity.
  destruct (State.gameEnd s) eqn:E.
  - rewrite tick_ended by exact E. reflexivity.
  - rewrite (tick_running s E). reflexivity.
Qed.

Lemma pipeOk_birdLeft (s t : State.t) (p : Pipe.t) :
  Pipes.birdLeft t = Pipes.birdLeft s -> pipeOk s p -> pipeOk t p.
Proof. unfold pipeOk. intros ->. exact (fun H => H). Qed.

Lemma moved_x (q : Q) :
  (Fin q - ofZ Constants.PIPE_SPEED_PX_S * Step.dt)%num
  = Fin (q + - (inject_Z 150 * (inject_Z 16 / inject_Z 1000))).
Proof. reflexivity. Qed.

Lemma pipeOk_moved (s : State.t) (p : Pipe.t) :
  birdOnScreen s -> pipeOk s p ->
  Pipes.onScreen (Pipes.move p) = true ->
  pipeOk s (Pipes.mark s (Pipes.move p)).
Proof.
  intros Hb [[q [Hq Hr]] Hp] Hon.
  destruct (mark_move_ticked s p) as (_ & Hx & _ & _ & Hpass).
  unfold Pipes.onScreen, Pipes.move in Hon. cbn [Pipe.x] in Hon.
  rewrite Hq, moved_x in Hx, Hon.
  unfold pipeOk. rewrite Hpass, Hx. clear Hpass Hx.
  rewrite (birdLeft_start s Hb), Hq in *.
  unfold Num.gt, Num.neg, Num.lt, ofZ in Hon. apply Qltb_true in Hon.
  split.
  - eexists. split; [reflexivity|]. qlra.
  - destruct (Pipe.passed p); [|reflexivity].
    symmetry in Hp. unfold Num.add, Num.lt, ofZ in Hp |- *.
    apply Qltb_true in Hp. cbn [orb]. symmetry. apply Qltb_true. qlra.
Qed.

Lemma pipeOk_spawned (spec : SpawnSpec.t) (s : State.t) :
  birdOnScreen s ->
  pipeOk s
    (Pipe.mk (State.nextId s) (ofZ Viewport.CANVAS_WIDTH)
       (SpawnSpec.gapY spec) (SpawnSpec.gapH spec) false).
Proof.
  intro Hb. unfold pipeOk. cbn [Pipe.x Pipe.passed].
  rewrite (birdLeft_start s Hb). split.
  - eexists. split; [reflexivity|]. qlra.
  - reflexivity.
Qed.

Lemma reachable_pipesOk (s : State.t) :
  reachable s -> Forall (pipeOk s) (State.pipes s).
Proof.
  intro R. induction R as [seed0 schedule ghosts Hf | s e R IH].
  - constructor.
  - pose proof (reachable_birdOnScreen s R) as Hb.
    assert (H : Forall (pipeOk s) (State.pipes (reducer e s))).
    { destruct e; cbn [reducer].
      - destruct (State.gameEnd s) eqn:E.
        + rewrite tick_ended by exact E. exact IH.
        + rewrite (ticked_pipes s E). apply Forall_forall.
          intros p' Hp'. apply in_map_iff in Hp'.
          destruct Hp' as [p [<- Hp]].
          unfold survivors in Hp. apply filter_In in Hp.
          destruct Hp as [Hin Hon].
          rewrite Forall_forall in IH. apply pipeOk_moved; auto.
      - exact IH.
      - cbn [spawnPipe State.pipes]. apply Forall_app. split; [exact IH|].
        constructor; [|constructor]. apply pipeOk_spawned, Hb. }
    eapply Forall_impl; [|exact H].
    intros p Hp. eapply pipeOk_birdLeft; [apply birdLeft_reducer | exact Hp].
Qed.

(** X8: in every reachable state every pipe has a finite [x] with
    [-PIPE_WIDTH < x <= CANVAS_WIDTH], and its [passed] flag is set exactly
    when its right edge [x + PIPE_WIDTH] is left of the left edge of the
    bird, which is at 159. *)
Theorem pipes_on_canvas (s : State.t) :
  reachable s ->
  Forall
    (fun p =>
       exists q,
         Pipe.x p = Fin q /\ (- (50) < q <= 600)%Q /\
         (Pipe.passed p = true <-> (q + 50 < 159)%Q))
    (State.pipes s).
Proof.
  intro R. pose proof (reachable_birdOnScreen s R) as Hb.
  eapply Forall_impl; [|apply reachable_pipesOk, R].
  intros p [[q [Hq Hr]] Hp]. exists q. split; [exact Hq|]. split; [exact Hr|].
  rewrite Hp, (birdLeft_start s Hb), Hq.
  unfold Num.add, Num.lt, ofZ. rewrite Qltb_true. split; intro H; qlra.
Qed.

Lemma pipes_on_canvas_witness :
  reachable (spawnPipe midGap (startState 42 [midGap] [])) /\
  Forall
    (fun p =>
       exists q,
         Pipe.x p = Fin q /\ (- (50) < q <= 600)%Q /\
         (Pipe.passed p = true <-> (q + 50 < 159)%Q))
    (State.pipes (spawnPipe midGap (startState 42 [midGap] []))).
Proof.
  assert (R : reachable (spawnPipe midGap (startState 42 [midGap] []))).
  { apply (reach_step _ (Spawn midGap)), reach_start. unfold freshSeed. lia. }
  split; [exact R | exact (pipes_on_canvas _ R)].
Defined.

Lemma ascending_weaken (b b' : Z) (ps : list Pipe.t) :
  b <= b' -> ascending b ps -> ascending b' ps.
Proof.
  intro Hb. induction ps as [|p ps IH]; simpl; [trivial|].
  intros (H1 & H2 & H3). repeat split; [lia | exact H2 | apply IH, H3].
Qed.

Lemma ascending_filter (b : Z) (f : Pipe.t -> bool) (ps : list Pipe.t) :
  ascending b ps -> ascending b (filter f ps).
Proof.
  induction ps as [|p ps IH]; simpl; [trivial|].
  intros (H1 & H2 & H3). destruct (f p); [|apply IH, H3].
  simpl. repeat split; [exact H1 | | apply IH, H3].
  rewrite Forall_forall in *. intros q Hq. apply filter_In in Hq.
  apply H2, Hq.
Qed.

Lemma ascending_map (b : Z) (g : Pipe.t -> Pipe.t) (ps : list Pipe.t) :
  (forall p, Pipe.id (g p) = Pipe.id p) ->
  ascending b ps -> ascending b (map g ps).
Proof.
  intro Hg. induction ps as [|p ps IH]; simpl; [trivial|].
  intros (H1 & H2 & H3). rewrite Hg. repeat split; [exact H1 | | apply IH, H3].
  rewrite Forall_forall in *. intros q Hq. apply in_map_iff in Hq.
  destruct Hq as [q0 [<- Hq0]]. rewrite Hg. apply H2, Hq0.
Qed.

Lemma ascending_snoc (b : Z) (ps : list Pipe.t) (p : Pipe.t) :
  Pipe.id p = b -> ascending b ps -> ascending (b + 1) (ps ++ [p]).
Proof.
  intro Hp. induction ps as [|a ps IH]; simpl.
  - intros _. repeat split; [lia | constructor].
  - intros (H1 & H2 & H3). repeat split; [lia | | apply IH, H3].
    apply Forall_app. split; [exact H2|]. constructor; [lia | constructor].
Qed.

Lemma ascending_below (b : Z) (ps : list Pipe.t) :
  ascending b ps -> Forall (fun p => Pipe.id p < b) ps.
Proof.
  induction ps as [|p ps IH]; simpl; [constructor|].
  intros (H1 & _ & H3). constructor; [exact H1 | apply IH, H3].
Qed.

Lemma reachable_ascending (s : State.t) :
  reachable s ->
  ascending (State.nextId s) (State.pipes s) /\
  Forall (fun p => 1 <= Pipe.id p) (State.pipes s) /\
  1 <= State.nextId s.
Proof.
  intro R. induction R as [seed0 schedule ghosts Hf | s e R (IH1 & IH2 & IH3)].
  - simpl. repeat split; [constructor | lia].
  - destruct e; cbn [reducer].
    + destruct (State.gameEnd s) eqn:E.
      * rewrite tick_ended by exact E. repeat split; assumption.
      * rewrite (ticked_pipes s E). rewrite (tick_running s E).
        cbn [State.nextId]. split; [|split; [|exact IH3]].
        -- apply ascending_map; [intro p; apply mark_move_ticked|].
           apply ascending_filter, IH1.
        -- apply Forall_forall. intros p' Hp'. apply in_map_iff in Hp'.
           destruct Hp' as [p [<- Hp]].
           assert (Hid : Pipe.id (Pipes.mark s (Pipes.move p)) = Pipe.id p)
             by apply mark_move_ticked.
           rewrite Hid. rewrite Forall_forall in IH2.
           apply IH2, survivors_incl, Hp.
    + repeat split; assumption.
    + cbn [spawnPipe State.pipes State.nextId]. split; [|split; [|lia]].
      * apply ascending_snoc; [reflexivity | exact IH1].
      * apply Forall_app. split; [exact IH2|].
        constructor; [exact IH3 | constructor].
Qed.

(** X9: in every reachable state the pipes are listed by strictly
    increasing id, every id lies between 1 and [nextId - 1], and [nextId] is
    at least 1: an id is never handed out twice and never runs ahead of the
    counter. *)
Theorem pipe_ids_ascending (s : State.t) :
  reachable s ->
  ascending (State.nextId s) (State.pipes s) /\
  Forall (fun p => 1 <= Pipe.id p < State.nextId s) (State.pipes s) /\
  NoDup (map Pipe.id (State.pipes s)).
Proof.
  intro R. destruct (reachable_ascending s R) as (H1 & H2 & _).
  split; [exact H1|]. split.
  - pose proof (ascending_below _ _ H1) as H3.
    rewrite Forall_forall in *. intros p Hp. split; [apply H2 | apply H3]; exact Hp.
  - apply reachable_ids, R.
Qed.

Lemma pipe_ids_ascending_witness :
  reachable (spawnPipe midGap (spawnPipe midGap (startState 42 [] []))) /\
  map Pipe.id
    (State.pipes (spawnPipe midGap (spawnPipe midGap (startState 42 [] []))))
  = [1; 2].
Proof.
  assert (R : reachable
                (spawnPipe midGap (spawnPipe midGap (startState 42 [] [])))).
  { apply (reach_step _ (Spawn midGap)), (reach_step _ (Spawn midGap)),
      reach_start. unfold freshSeed. lia. }
  split; [exact R|].
  destruct (pipe_ids_ascending _ R) as (_ & _ & H). reflexivity.
Defined.

(** ** The score along a run *)

Lemma filter_length_le {A : Type} (f : A -> bool) (l : list A) :
  (length (filter f l) <= length l)%nat.
Proof.
  induction l as [|a l IH]; simpl; [lia|]. destruct (f a); simpl; lia.
Qed.

Lemma filter_count_split {A : Type} (a b c : A -> bool) (l : list A) :
  (forall x, In x l ->
     (a x = true -> c x = true) /\ (b x = true -> c x = true) /\
     (a x = true -> b x = false)) ->
  (length (filter a l) + length (filter b l) <= length (filter c l))%nat.
Proof.
  induction l as [|x l IH]; intro H; simpl; [lia|].
  assert (IH' := IH (fun y Hy => H y (or_intror Hy))).
  destruct (H x (or_introl eq_refl)) as (H1 & H2 & H3).
  destruct (a x) eqn:Ea, (b x) eqn:Eb, (c x) eqn:Ec; simpl;
    try lia; try (specialize (H1 eq_refl); discriminate);
    try (specialize (H2 eq_refl); discriminate);
    try (specialize (H3 eq_refl); discriminate).
Qed.

Lemma filter_filter_le {A : Type} (f g : A -> bool) (l : list A) :
  (length (filter f (filter g l)) <= length (filter f l))%nat.
Proof.
  induction l as [|x l IH]; simpl; [lia|].
  destruct (g x), (f x) eqn:E; simpl; rewrite ?E; simpl; lia.
Qed.

Lemma newly_passed_budget (s : State.t) :
  uniqueIds s ->
  Pipes.newlyPassedCount s + unpassed (Pipes.updatedPipes s)
  <= unpassed (State.pipes s).
Proof.
  intro Hu. unfold Pipes.newlyPassedCount, unpassed.
  rewrite updatedPipes_survivors, !filter_map_swap, !length_map.
  cbv beta.
  rewrite (filter_ext_in
             (fun p => Pipe.passed (Pipes.mark s (Pipes.move p))
                       && negb (Pipes.has (Pipes.prevPassed s)
                                  (Pipe.id (Pipes.mark s (Pipes.move p)))))
             (fun p => Pipe.passed (Pipes.mark s (Pipes.move p))
                       && negb (Pipe.passed p))).
  - pose proof (filter_count_split
                  (fun p => Pipe.passed (Pipes.mark s (Pipes.move p))
                            && negb (Pipe.passed p))
                  (fun p => negb (Pipe.passed (Pipes.mark s (Pipes.move p))))
                  (fun p => negb (Pipe.passed p))
                  (survivors s)) as H.
    pose proof (filter_filter_le (fun p => negb (Pipe.passed p))
                  (fun p => Pipes.onScreen (Pipes.move p)) (State.pipes s))
      as H'.
    fold (survivors s) in H'.
    assert (Hc : forall x, In x (survivors s) ->
      ((Pipe.passed (Pipes.mark s (Pipes.move x)) && negb (Pipe.passed x)
        = true -> negb (Pipe.passed x) = true) /\
       (negb (Pipe.passed (Pipes.mark s (Pipes.move x))) = true ->
        negb (Pipe.passed x) = true) /\
       (Pipe.passed (Pipes.mark s (Pipes.move x)) && negb (Pipe.passed x)
        = true ->
        negb (Pipe.passed (Pipes.mark s (Pipes.move x))) = false))).
    { intros x _.
      pose proof (ticked_monotone s x _ (mark_move_ticked s x)) as Hm.
      destruct (Pipe.passed x), (Pipe.passed (Pipes.mark s (Pipes.move x)));
        simpl; repeat split; try tauto; try discriminate. }
    specialize (H Hc). rewrite <- Nat2Z.inj_add. apply Nat2Z.inj_le.
    eapply Nat.le_trans; [exact H | exact H'].
  - intros p Hp.
    assert (Hid : Pipe.id (Pipes.mark s (Pipes.move p)) = Pipe.id p)
      by apply mark_move_ticked.
    rewrite Hid, has_prevPassed by (auto using survivors_incl).
    reflexivity.
Qed.

Lemma reachable_scoreOk (s : State.t) : reachable s -> scoreOk s.
Proof.
  intro R. induction R as [seed0 schedule ghosts Hf | s e R [IH1 IH2]].
  - unfold scoreOk, unpassed. simpl. lia.
  - destruct e; cbn [reducer].
    + destruct (State.gameEnd s) eqn:E.
      * rewrite tick_ended by exact E. split; assumption.
      * pose proof (newly_passed_budget s (proj1 (reachable_ids s R))) as H.
        rewrite (tick_running s E). unfold scoreOk. cbv zeta.
        cbn [State.score State.pipes State.nextId].
        assert (0 <= Pipes.newlyPassedCount s)
          by (unfold Pipes.newlyPassedCount; lia).
        split; lia.
    + split; [exact IH1 | exact IH2].
    + unfold scoreOk, unpassed in *.
      cbn [spawnPipe State.score State.pipes State.nextId].
      rewrite filter_app, length_app. cbn [filter Pipe.passed negb length].
      split; lia.
Qed.

(** X10: in every reachable state the score is not negative and, together
    with the number of pipes on screen that are not passed yet, it does not
    exceed the number of pipes spawned so far ([nextId - 1]): a pipe is
    never counted twice. *)
Theorem score_within_spawned (s : State.t) :
  reachable s ->
  0 <= State.score s /\
  State.score s + unpassed (State.pipes s) <= State.nextId s - 1 /\
  State.score s <= State.nextId s - 1.
Proof.
  intro R. destruct (reachable_scoreOk s R) as [H1 H2].
  split; [exact H1|]. split; [exact H2|].
  unfold unpassed in H2. lia.
Qed.

Lemma score_within_spawned_witness :
  reachable afterFlap /\ State.score afterFlap <= State.nextId afterFlap - 1.
Proof.
  assert (R : reachable afterFlap).
  { apply (reach_step _ Tick), (reach_step _ Flap), reach_start.
    unfold freshSeed. lia. }
  split; [exact R|].
  destruct (score_within_spawned afterFlap R) as (_ & _ & H). exact H.
Defined.

(** ** A step without collision, and a step with one *)

Lemma clamp_identity (r : Q) :
  Num.lt (Fin r) Step.minY = false ->
  Num.gt (Fin r) Step.maxY = false ->
  (Num.max Step.minY (Num.min Step.maxY (Fin r)) === Fin r)%num = true.
Proof.
  rewrite minY_value, maxY_value. unfold Num.gt, Num.lt.
  intros H1 H2. apply Qltb_false in H1, H2.
  unfold Num.min, Num.lt.
  destruct (Qltb r _) eqn:E1; unfold Num.max, Num.lt.
  - destruct (Qltb _ r) eqn:E2; unfold Num.seq; apply Qeq_bool_iff.
    + reflexivity.
    + apply Qltb_false in E2. qlra.
  - apply Qltb_false in E1.
    destruct (Qltb _ _) eqn:E2; unfold Num.seq; apply Qeq_bool_iff; qcases;
      qlra.
Qed.

Lemma free_step_outcome (s : State.t) :
  bounded s ->
  (exists y, Vec.y (Bird.pos (State.bird s)) = Fin y) ->
  Step.collided s = false ->
  (CollisionOutcome.y (handleCollisions s) === Step.yNextRaw s)%num = true /\
  CollisionOutcome.collided (handleCollisions s) = false /\
  CollisionOutcome.seed (handleCollisions s) = State.seed s /\
  CollisionOutcome.vy (handleCollisions s) = Step.stoppedVy s.
Proof.
  intros Hb Hy Hc.
  destruct (yNextRaw_finite s Hb Hy) as [r Hr].
  unfold Step.collided in Hc. rewrite !orb_false_iff in Hc.
  destruct Hc as [[[H1 H2] H3] H4].
  unfold handleCollisions, Step.collided. rewrite H1, H2, H3, H4.
  cbn [CollisionOutcome.y CollisionOutcome.collided CollisionOutcome.seed
       CollisionOutcome.vy orb].
  split; [|repeat split].
  unfold Step.yClamped. unfold Step.hitTop, Step.hitBottom in H1, H2.
  rewrite Hr in *. apply clamp_identity; assumption.
Qed.

(** X11: a tick of a reachable running state in which no collision
    condition holds moves the bird by exactly [vy * dt], where [vy] is the
    old velocity plus gravity, clamped; it costs no life and leaves the
    seed alone; the new velocity is [vy], or 0 when the bird has landed
    exactly on a boundary while moving towards it. *)
Theorem free_flight (s : State.t) :
  reachable s ->
  State.gameEnd s = false ->
  Step.collided s = false ->
  (Vec.y (Bird.pos (State.bird (tick s)))
   === Vec.y (Bird.pos (State.bird s)) + Step.vy s * Step.dt)%num = true /\
  State.lives (tick s) = State.lives s /\
  State.seed (tick s) = State.seed s /\
  (Bird.velY (State.bird (tick s)) = Step.vy s \/
   Bird.velY (State.bird (tick s)) = ofZ 0 /\
   ((Step.yClamped s === Step.minY)%num
    || (Step.yClamped s === Step.maxY)%num) = true).
Proof.
  intros R He Hc.
  pose proof (reachable_bounded s R) as Hb.
  destruct (reachable_birdOnScreen s R) as [_ Hy].
  destruct (free_step_outcome s Hb (within_finite _ _ _ Hy) Hc)
    as (H1 & H2 & H3 & H4).
  rewrite (tick_running s He). cbv zeta.
  cbn [State.bird Bird.pos Bird.velY Vec.y State.lives State.seed].
  rewrite H2, H3, H4. split; [exact H1|]. split; [reflexivity|].
  split; [reflexivity|].
  unfold Step.stoppedVy.
  destruct (Step.yClamped s === Step.minY)%num,
    (Step.yClamped s === Step.maxY)%num,
    (Step.vy s <? ofZ 0)%num, (Step.vy s >? ofZ 0)%num; cbn [andb orb];
    auto.
Qed.

Lemma free_flight_witness :
  reachable (flapR (startState 42 [midGap] [])) /\
  State.gameEnd (flapR (startState 42 [midGap] [])) = false /\
  Step.collided (flapR (startState 42 [midGap] [])) = false /\
  State.lives afterFlap = 3.
Proof.
  assert (R : reachable (flapR (startState 42 [midGap] []))).
  { apply (reach_step _ Flap), reach_start. unfold freshSeed. lia. }
  split; [exact R|]. split; [reflexivity|].
  assert (C : Step.collided (flapR (startState 42 [midGap] [])) = false)
    by (vm_compute; reflexivity).
  split; [exact C|].
  destruct (free_flight _ R eq_refl C) as (_ & H & _).
  unfold afterFlap. rewrite H. reflexivity.
Defined.

(** X12: a tick of a reachable running state in which a collision condition
    holds costs exactly one life, and it ends the game when that was the
    last life; without a collision the lives stay. The game ends after a
    tick exactly when no life is left, or all planned pipes have been
    spawned and none is left on screen. *)
Theorem life_lost_per_collision (s : State.t) :
  reachable s ->
  State.gameEnd s = false ->
  State.lives (tick s)
  = (if Step.collided s then State.lives s - 1 else State.lives s) /\
  (Step.collided s = true -> State.lives s = 1 ->
   State.gameEnd (tick s) = true) /\
  (State.gameEnd (tick s) = true <->
   State.lives (tick s) = 0 \/
   (State.totalPipesPlanned s <= State.nextId s - 1 /\
    State.pipes (tick s) = [])).
Proof.
  intros R He.
  destruct (reachable_livesOk s R) as [Hl Hr]. specialize (Hr He).
  assert (Hcol : CollisionOutcome.collided (handleCollisions s)
                 = Step.collided s).
  { unfold handleCollisions.
    destruct (Step.hitTop s), (Step.hitBottom s), (Step.hitPipeTop s),
      (Step.hitPipeBottom s); reflexivity. }
  rewrite (tick_running s He). cbv zeta.
  cbn [State.lives State.gameEnd State.pipes]. rewrite Hcol.
  assert (Hlen : forall l : list Pipe.t,
             (length l =? 0)%nat = true <-> l = []).
  { intro l. destruct l; simpl; split; congruence. }
  destruct (Step.collided s).
  - rewrite Z.max_r by lia. split; [reflexivity|]. split.
    + intros _ H1. rewrite H1. reflexivity.
    + rewrite orb_true_iff, andb_true_iff, Z.leb_le, Z.geb_le, Hlen.
      split; intros [H|H]; [left; lia | right; exact H | left; lia
                           | right; exact H].
  - split; [reflexivity|]. split; [discriminate|].
    rewrite orb_true_iff, andb_true_iff, Z.leb_le, Z.geb_le, Hlen.
    split; intros [H|H]; [left; lia | right; exact H | left; lia
                         | right; exact H].
Qed.

Lemma life_lost_per_collision_witness :
  reachable (startState 42 [] []) /\
  State.gameEnd (startState 42 [] []) = false /\
  State.lives gameOver = 3.
Proof.
  assert (R : reachable (startState 42 [] [])).
  { apply reach_start. unfold freshSeed. lia. }
  split; [exact R|]. split; [reflexivity|].
  destruct (life_lost_per_collision _ R eq_refl) as (H & _).
  unfold gameOver. rewrite H. reflexivity.
Defined.

(** ** Hitboxes *)

Lemma le_not_gt (a b : number) :
  Num.le a b = true -> Num.lt b a = false.
Proof.
  destruct a as [|s|p], b as [|t|q]; simpl; try discriminate; intro H.
  - destruct s, t; simpl in *; congruence.
  - rewrite H. reflexivity.
  - destruct t; simpl in *; congruence.
  - apply Qle_bool_iff in H. apply Qltb_false. exact H.
Qed.

(** X13: the overlap test is symmetric, and it is false as soon as the two
    boxes lie side by side or one above the other: when the right edge of
    one is not right of the left edge of the other, or the bottom of one is
    not below the top of the other. Touching boxes do not overlap. *)
Theorem overlaps_symmetric_separated (a b : Hitbox.t) :
  overlaps a b = overlaps b a /\
  ((Hitbox.right a <=? Hitbox.left b)%num = true -> overlaps a b = false) /\
  ((Hitbox.bottom a <=? Hitbox.top b)%num = true -> overlaps a b = false).
Proof.
  unfold overlaps, Num.gt. split; [|split].
  - destruct (Hitbox.left a <? Hitbox.right b)%num,
      (Hitbox.left b <? Hitbox.right a)%num,
      (Hitbox.top a <? Hitbox.bottom b)%num,
      (Hitbox.top b <? Hitbox.bottom a)%num; reflexivity.
  - intro H. rewrite (le_not_gt _ _ H).
    rewrite andb_false_r. reflexivity.
  - intro H. rewrite (le_not_gt _ _ H).
    rewrite andb_false_r. reflexivity.
Qed.

(** X14: a bird whose box lies inside the gap of a pipe, its top not above
    the lower edge of the upper part and its bottom not below the upper edge
    of the lower part, overlaps neither part of that pipe, wherever the pipe
    is; and a bird whose box lies left or right of the pipe overlaps
    neither part, whatever the gap. *)
Theorem gap_and_sides_are_safe (x y : number) (p : Pipe.t) :
  let r := birdHitbox x y in
  ((Hitbox.bottom (pipeTopHitbox p) <=? Hitbox.top r)%num = true /\
   (Hitbox.bottom r <=? Hitbox.top (pipeBottomHitbox p))%num = true) \/
  (Hitbox.right r <=? Pipe.x p)%num = true \/
  (Pipe.x p + ofZ Constants.PIPE_WIDTH <=? Hitbox.left r)%num = true ->
  overlaps r (pipeTopHitbox p) = false /\
  overlaps r (pipeBottomHitbox p) = false.
Proof.
  intros r [[H1 H2]|[H|H]]; unfold overlaps, Num.gt.
  - split.
    + rewrite (le_not_gt _ _ H1). rewrite andb_false_r. reflexivity.
    + rewrite (le_not_gt _ _ H2). rewrite andb_false_r. reflexivity.
  - change (Hitbox.left (pipeTopHitbox p)) with (Pipe.x p).
    change (Hitbox.left (pipeBottomHitbox p)) with (Pipe.x p).
    rewrite (le_not_gt _ _ H). rewrite !andb_false_r. split; reflexivity.
  - change (Hitbox.right (pipeTopHitbox p))
      with (Pipe.x p + ofZ Constants.PIPE_WIDTH)%num.
    change (Hitbox.right (pipeBottomHitbox p))
      with (Pipe.x p + ofZ Constants.PIPE_WIDTH)%num.
    rewrite (le_not_gt _ _ H). split; reflexivity.
Qed.

Lemma gap_and_sides_are_safe_witness :
  (Hitbox.right (birdHitbox (Fin 180) (Fin 100)) <=? Fin 250)%num = true /\
  overlaps (birdHitbox (Fin 180) (Fin 100))
    (pipeTopHitbox (Pipe.mk 1 (Fin 250) (Fin 300) (Fin 100) false)) = false.
Proof.
  assert (H : (Hitbox.right (birdHitbox (Fin 180) (Fin 100))
               <=? Pipe.x (Pipe.mk 1 (Fin 250) (Fin 300) (Fin 100) false))%num
              = true) by reflexivity.
  split; [exact H|].
  apply (gap_and_sides_are_safe (Fin 180) (Fin 100)
           (Pipe.mk 1 (Fin 250) (Fin 300) (Fin 100) false)).
  right. left. exact H.
Defined.

(** ** More on the generator *)

(** X15: for a seed a run can hold and integer bounds [lo <= hi] of
    magnitude up to 2^52, [randInRange] returns a finite value of [lo, hi]
    together with the next seed [hash seed], an integer of [0, m).  (With
    such bounds the difference is exact, and neither the rounding of the
    product nor that of the sum can leave [lo, hi].) *)
Theorem randInRange_within (seed lo hi : Z) :
  0 <= seed < 2 ^ 53 ->
  - 2 ^ 52 <= lo -> lo <= hi -> hi <= 2 ^ 52 ->
  let r := randInRange seed (ofZ lo) (ofZ hi) in
  RandInRange.nextSeed r = RNG.hash seed /\
  (exists h, RandInRange.nextSeed r = Seed.Int h /\ 0 <= h < RNG.m) /\
  exists v,
    RandInRange.value r = Fin v /\ (inject_Z lo <= v <= inject_Z hi)%Q.
Proof.
  intros Hs Hlo Hle Hhi r. subst r.
  split; [reflexivity|]. split; [apply hash_range, Hs|].
  pose proof (r01_unit seed Hs) as W. pose proof HUGE_large as Hh.
  assert (Hb : 2 ^ 60 < Num.HUGE)
    by (assert (2 ^ 60 < 2 ^ 100) by reflexivity; lia).
  assert (L0 : (- inject_Z (2 ^ 52) <= inject_Z lo)%Q)
    by (rewrite <- inject_Z_opp, <- Zle_Qle; exact Hlo).
  assert (L1 : (inject_Z lo <= inject_Z hi)%Q)
    by (rewrite <- Zle_Qle; exact Hle).
  assert (L2 : (inject_Z hi <= inject_Z (2 ^ 52))%Q)
    by (rewrite <- Zle_Qle; exact Hhi).
  unfold randInRange. cbn [RandInRange.value Rand01.nextSeed].
  destruct (Rand01.r01 (rand01 seed)) as [| |q]; simpl in W; try tauto.
  destruct W as [W0 W1].
  unfold ofZ. set (l := inject_Z lo) in *. set (u := inject_Z hi) in *.
  clearbody l u.
  change (inject_Z (2 ^ 52)) with (4503599627370496 # 1)%Q in *.
  assert (H0 : (0 <= q * (u + - l))%Q)
    by (apply Qmult_le_0_compat; lra).
  assert (H1 : (q * (u + - l) <= 1 * (u + - l))%Q)
    by (apply Qmult_le_compat_r; lra).
  unfold Num.sub, Num.neg, Num.add.
  rewrite (range_fits (2 ^ 60) _ Hb)
    by (change (inject_Z (2 ^ 60)) with (1152921504606846976 # 1)%Q; lra).
  unfold Num.mul.
  rewrite (range_fits (2 ^ 60) _ Hb)
    by (change (inject_Z (2 ^ 60)) with (1152921504606846976 # 1)%Q; lra).
  rewrite (range_fits (2 ^ 60) _ Hb)
    by (change (inject_Z (2 ^ 60)) with (1152921504606846976 # 1)%Q; lra).
  eexists. split; [reflexivity|]. lra.
Qed.

Lemma randInRange_within_witness :
  0 <= 42 < 2 ^ 53 /\ - 2 ^ 52 <= 220 <= 420 /\ 420 <= 2 ^ 52 /\
  RandInRange.nextSeed (randInRange 42 (ofZ 220) (ofZ 420)) = 1250496027.
Proof.
  assert (R : 0 <= 42 < 2 ^ 53) by (split; [lia | reflexivity]).
  assert (L : - 2 ^ 52 <= 220) by (vm_compute; discriminate).
  assert (U : 420 <= 2 ^ 52) by (vm_compute; discriminate).
  split; [exact R|]. split; [split; [exact L | lia]|]. split; [exact U|].
  destruct (randInRange_within 42 220 420 R L) as (H & _); [lia | exact U |].
  rewrite H. vm_compute. reflexivity.
Defined.

(** The overflow the hypotheses of X15 keep out: bounds whose difference
    leaves the range of the doubles give an infinity. *)
Lemma randInRange_overflow :
  RandInRange.value
    (randInRange 42 (ofZ (- 2 ^ 1023)) (ofZ (2 ^ 1023)))
  = Inf false.
Proof. vm_compute. reflexivity. Qed.

(** X16: [scale] maps the hashes [0 .. m - 1] into [-1, 1], order
    preserved, with [scale 0 = -1] and [scale (m - 1) = 1]. *)
Theorem scale_range (h h' : Z) :
  0 <= h <= h' -> h' <= RNG.m - 1 ->
  exists v v',
    RNG.scale (ofZ h) = Fin v /\ RNG.scale (ofZ h') = Fin v' /\
    (- (1) <= v)%Q /\ (v <= v')%Q /\ (v' <= 1)%Q /\
    (RNG.scale (ofZ 0) === ofZ (-1))%num = true /\
    (RNG.scale (ofZ (RNG.m - 1)) === ofZ 1)%num = true.
Proof.
  intros [H0 Hh] Hm.
  exists (inject_Z 2 * inject_Z h / inject_Z (RNG.m - 1) + - inject_Z 1)%Q,
    (inject_Z 2 * inject_Z h' / inject_Z (RNG.m - 1) + - inject_Z 1)%Q.
  split; [reflexivity|]. split; [reflexivity|].
  assert (B0 : (0 <= inject_Z h)%Q) by (rewrite <- (Zle_Qle 0); exact H0).
  assert (B1 : (inject_Z h <= inject_Z h')%Q) by (rewrite <- Zle_Qle; exact Hh).
  assert (B2 : (inject_Z h' <= inject_Z (RNG.m - 1))%Q)
    by (rewrite <- Zle_Qle; exact Hm).
  change (inject_Z (RNG.m - 1)) with (2147483647 # 1)%Q in *.
  set (a := inject_Z h) in *. set (b := inject_Z h') in *. clearbody a b.
  split; [qlra|]. split; [qlra|]. split; [qlra|].
  split; reflexivity.
Qed.

Lemma scale_range_witness :
  0 <= 0 <= RNG.m - 1 /\ RNG.m - 1 <= RNG.m - 1 /\
  (RNG.scale (ofZ 0) === ofZ (-1))%num = true.
Proof.
  assert (H1 : 0 <= 0 <= RNG.m - 1) by (unfold RNG.m; lia).
  assert (H2 : RNG.m - 1 <= RNG.m - 1) by lia.
  split; [exact H1|]. split; [exact H2|].
  destruct (scale_range 0 (RNG.m - 1) H1 H2) as (v & v' & _ & _ & _ & _ & _ & H & _).
  exact H.
Defined.

(** ** How the reducers compose *)

(** X17: a flap after a flap changes nothing, and a flap and a spawn can be
    applied in either order; a tick and a spawn cannot: the pipe spawned
    before the tick has already moved after it. *)
Theorem flap_spawn_order (spec : SpawnSpec.t) (s : State.t) :
  flapR (flapR s) = flapR s /\
  flapR (spawnPipe spec s) = spawnPipe spec (flapR s) /\
  (State.gameEnd s = false ->
   tick (spawnPipe spec s) <> spawnPipe spec (tick s)).
Proof.
  split; [reflexivity|]. split; [reflexivity|].
  intros He H.
  assert (He' : State.gameEnd (spawnPipe spec s) = false) by exact He.
  apply (f_equal (fun t => map Pipe.x (State.pipes t))) in H.
  rewrite (ticked_pipes _ He') in H.
  cbn [spawnPipe State.pipes] in H. rewrite (ticked_pipes s He) in H.
  unfold survivors in H. cbn [spawnPipe State.pipes] in H.
  rewrite filter_app, !map_app in H.
  apply (f_equal (fun l => last l NaN)) in H.
  cbn [filter] in H.
  change (Pipes.onScreen
            (Pipes.move
               (Pipe.mk (State.nextId s) (ofZ Viewport.CANVAS_WIDTH)
                  (SpawnSpec.gapY spec) (SpawnSpec.gapH spec) false)))
    with true in H.
  cbn [map] in H. rewrite !last_last in H.
  assert (Hx : Pipe.x
                 (Pipes.mark (spawnPipe spec s)
                    (Pipes.move
                       (Pipe.mk (State.nextId s) (ofZ Viewport.CANVAS_WIDTH)
                          (SpawnSpec.gapY spec) (SpawnSpec.gapH spec) false)))
               = (ofZ Viewport.CANVAS_WIDTH
                  - ofZ Constants.PIPE_SPEED_PX_S * Step.dt)%num)
    by apply mark_move_ticked.
  rewrite Hx in H. cbn [Pipe.x] in H. vm_compute in H. discriminate.
Qed.

Lemma flap_spawn_order_witness :
  State.gameEnd (startState 42 [midGap] []) = false /\
  tick (spawnPipe midGap (startState 42 [midGap] []))
  <> spawnPipe midGap (tick (startState 42 [midGap] [])).
Proof.
  split; [reflexivity|].
  apply (flap_spawn_order midGap (startState 42 [midGap] [])). reflexivity.
Defined.

(** ** Counters of a run *)

Lemma scan_length {A B : Type} (f : A -> B -> A) (acc : A) (xs : list B) :
  length (scan f acc xs) = length xs.
Proof.
  revert acc. induction xs as [|x xs IH]; intro acc; simpl; [reflexivity|].
  rewrite IH. reflexivity.
Qed.

Lemma reducer_frame (e : Event) (s : State.t) :
  State.nextId (reducer e s)
  = State.nextId s + (if isSpawn e then 1 else 0) /\
  State.ghosts (reducer e s) = State.ghosts s /\
  State.totalPipesPlanned (reducer e s) = State.totalPipesPlanned s.
Proof.
  destruct e; cbn [reducer isSpawn].
  - destruct (State.gameEnd s) eqn:E.
    + rewrite tick_ended by exact E. repeat split; lia.
    + rewrite (tick_running s E). cbn. repeat split; lia.
  - cbn. repeat split; lia.
  - cbn. repeat split; lia.
Qed.

Lemma reducer_clock (e : Event) (s : State.t) :
  State.gameEnd s = false ->
  State.timeMs (reducer e s)
  = State.timeMs s + (if isTick e then 16 else 0).
Proof.
  intro E. destruct e; cbn [reducer isTick].
  - rewrite (tick_running s E). cbn. reflexivity.
  - cbn. lia.
  - cbn. lia.
Qed.

Lemma run_counters_from (s : State.t) (events : list Event) :
  let final := last (scan (fun s r => r s) s (map reducer events)) s in
  State.nextId final
  = State.nextId s + Z.of_nat (length (filter isSpawn events)) /\
  State.ghosts final = State.ghosts s /\
  State.totalPipesPlanned final = State.totalPipesPlanned s /\
  (State.gameEnd final = false ->
   State.timeMs final
   = State.timeMs s + 16 * Z.of_nat (length (filter isTick events))).
Proof.
  cbv zeta. revert s. induction events as [|e es IH]; intro s.
  - simpl. repeat split; lia.
  - cbn [map scan]. rewrite last_cons_default.
    destruct (IH (reducer e s)) as (H1 & H2 & H3 & H4).
    destruct (reducer_frame e s) as (F1 & F2 & F3).
    rewrite H1, H2, H3, F1, F2, F3. cbn [filter].
    split; [destruct (isSpawn e); cbn [length]; lia|].
    split; [reflexivity|]. split; [reflexivity|].
    intro Hf. rewrite (H4 Hf).
    assert (E : State.gameEnd s = false).
    { destruct (State.gameEnd s) eqn:E; [|reflexivity].
      destruct (ended_state_frozen_fields_aux e s E) as [E1 _].
      pose proof (ended_run_same_trace (reducer e s) es E1) as Hall.
      assert (Hl : State.gameEnd
                     (last (scan (fun s r => r s) (reducer e s)
                              (map reducer es)) (reducer e s)) = true).
      { apply (Forall_last (fun t => State.gameEnd t = true)); [|exact E1].
        eapply Forall_impl; [|exact Hall]. intros t [Ht _]. exact Ht. }
      congruence. }
    rewrite (reducer_clock e s E).
    destruct (isTick e); cbn [length]; lia.
Qed.

(** X18: a run emits one state per event; in its last state [nextId] is 1
    plus the number of spawn events delivered (spawns count after the end
    of the game too), the ghosts and the plan size are those the run
    started with, and as long as the game has not ended the clock is the
    tick interval times the number of ticks delivered. *)
Theorem run_counters (seed0 : Z) (schedule : list SpawnSpec.t)
    (ghosts : GhostList) (events : list Event) :
  let final :=
    last (states seed0 schedule ghosts events)
      (startState seed0 schedule ghosts) in
  length (states seed0 schedule ghosts events) = length events /\
  State.nextId final = 1 + Z.of_nat (length (filter isSpawn events)) /\
  State.ghosts final = ghosts /\
  State.totalPipesPlanned final = Z.of_nat (length schedule) /\
  (State.gameEnd final = false ->
   State.timeMs final = 16 * Z.of_nat (length (filter isTick events))).
Proof.
  cbv zeta. unfold states.
  split; [rewrite scan_length, length_map; reflexivity|].
  destruct (run_counters_from (startState seed0 schedule ghosts) events)
    as (H1 & H2 & H3 & H4).
  split; [exact H1|]. split; [exact H2|]. split; [exact H3|].
  intro Hf. rewrite (H4 Hf). cbn [startState State.timeMs initialState]. lia.
Qed.

(** ** Splitting and joining *)

Lemma splitComma_plain (f : jsstring) :
  plainField f -> Str.splitComma f = [f].
Proof.
  induction 1 as [|u f Hu _ IH]; [reflexivity|].
  simpl. destruct (N.eqb_spec u Str.COMMA); [contradiction|].
  rewrite IH. reflexivity.
Qed.

Lemma splitComma_app (f rest : jsstring) :
  plainField f ->
  Str.splitComma (f ++ Str.COMMA :: rest) = f :: Str.splitComma rest.
Proof.
  induction 1 as [|u f Hu _ IH]; [reflexivity|].
  simpl. destruct (N.eqb_spec u Str.COMMA); [contradiction|].
  rewrite IH. reflexivity.
Qed.

Lemma splitComma_joinWith (fs : list jsstring) :
  fs <> [] -> Forall plainField fs ->
  Str.splitComma (joinWith Str.COMMA fs) = fs.
Proof.
  intros Hne H. induction H as [|f fs Hf Hfs IH]; [congruence|].
  destruct fs as [|g fs'].
  - simpl. apply splitComma_plain, Hf.
  - change (joinWith Str.COMMA (f :: g :: fs'))
      with (f ++ Str.COMMA :: joinWith Str.COMMA (g :: fs')).
    rewrite splitComma_app by exact Hf. rewrite IH by discriminate.
    reflexivity.
Qed.

Lemma splitLines_plain (l : jsstring) :
  Forall (fun u => u <> Str.LF) l -> Str.splitLines l = [l].
Proof.
  induction 1 as [|u l Hu Hl IH]; [reflexivity|].
  cbn [Str.splitLines]. destruct (N.eqb_spec u Str.LF); [contradiction|].
  assert (Hn : (match l with v :: _ => (v =? Str.LF)%N | [] => false end)
               = false).
  { destruct l as [|v l']; [reflexivity|].
    inversion Hl; subst. apply N.eqb_neq. assumption. }
  rewrite Hn, andb_false_r, IH. reflexivity.
Qed.

Lemma splitLines_app_LF (l rest : jsstring) :
  plainLine l ->
  Str.splitLines (l ++ Str.LF :: rest) = l :: Str.splitLines rest.
Proof.
  intros [H Hlast]. induction H as [|u l Hu Hl IH].
  - simpl. reflexivity.
  - cbn [app Str.splitLines].
    destruct (N.eqb_spec u Str.LF); [contradiction|].
    destruct l as [|v l'].
    + cbn [app]. simpl in Hlast.
      destruct (N.eqb_spec u Str.CR); [contradiction|].
      cbn [andb]. simpl. reflexivity.
    + inversion Hl; subst.
      assert (Hv : (v =? Str.LF)%N = false) by (apply N.eqb_neq; assumption).
      cbn [app]. rewrite Hv, andb_false_r.
      change (v :: l' ++ Str.LF :: rest) with ((v :: l') ++ Str.LF :: rest).
      rewrite IH by exact Hlast. reflexivity.
Qed.

Lemma splitLines_app_CRLF (l rest : jsstring) :
  Forall (fun u => u <> Str.LF) l ->
  Str.splitLines (l ++ Str.CR :: Str.LF :: rest) = l :: Str.splitLines rest.
Proof.
  induction 1 as [|u l Hu Hl IH].
  - simpl. reflexivity.
  - cbn [app Str.splitLines].
    destruct (N.eqb_spec u Str.LF); [contradiction|].
    assert (Hn : (match l ++ Str.CR :: Str.LF :: rest with
                  | v :: _ => (v =? Str.LF)%N
                  | [] => false
                  end) = false).
    { destruct l as [|v l']; [reflexivity|].
      inversion Hl; subst. apply N.eqb_neq. assumption. }
    rewrite Hn, andb_false_r, IH. reflexivity.
Qed.

Lemma split_after_join_lines :
  (forall ls, ls <> [] -> Forall (Forall (fun u => u <> Str.LF)) ls ->
     Str.splitLines (joinLines [Str.CR; Str.LF] ls) = ls) /\
  (forall ls, ls <> [] -> Forall plainLine ls ->
     Str.splitLines (joinLines [Str.LF] ls) = ls).
Proof.
  split.
  - intros ls Hne H. induction H as [|l ls Hl Hls IH]; [congruence|].
    destruct ls as [|k ls'].
    + simpl. apply splitLines_plain, Hl.
    + change (joinLines [Str.CR; Str.LF] (l :: k :: ls'))
        with (l ++ Str.CR :: Str.LF :: joinLines [Str.CR; Str.LF] (k :: ls')).
      rewrite splitLines_app_CRLF by exact Hl.
      rewrite IH by discriminate. reflexivity.
  - intros ls Hne H. induction H as [|l ls Hl Hls IH]; [congruence|].
    destruct ls as [|k ls'].
    + simpl. apply splitLines_plain, Hl.
    + change (joinLines [Str.LF] (l :: k :: ls'))
        with (l ++ Str.LF :: joinLines [Str.LF] (k :: ls')).
      rewrite splitLines_app_LF by exact Hl.
      rewrite IH by discriminate. reflexivity.
Qed.

(** X19: splitting undoes joining. Fields without a comma joined by commas
    split back into the same fields; lines without a line feed joined by
    CR LF split back into the same lines, and so do lines joined by a bare
    line feed provided none of them ends in a carriage return; a line that
    does loses it, the split taking it for a part of the separator. *)
Theorem split_after_join :
  (forall fs, fs <> [] -> Forall plainField fs ->
     Str.splitComma (joinWith Str.COMMA fs) = fs) /\
  (forall ls, ls <> [] -> Forall (Forall (fun u => u <> Str.LF)) ls ->
     Str.splitLines (joinLines [Str.CR; Str.LF] ls) = ls) /\
  (forall ls, ls <> [] -> Forall plainLine ls ->
     Str.splitLines (joinLines [Str.LF] ls) = ls) /\
  (forall l k, Forall (fun u => u <> Str.LF) l ->
     Str.splitLines (joinLines [Str.LF] [l ++ [Str.CR]; k])
     = l :: Str.splitLines k).
Proof.
  split; [exact splitComma_joinWith|].
  destruct split_after_join_lines as [H1 H2].
  split; [exact H1|]. split; [exact H2|].
  intros l k Hl. cbn [joinLines app]. rewrite <- app_assoc. cbn [app].
  apply splitLines_app_CRLF, Hl.
Qed.

(** ** Trimming *)

Lemma trimStart_white (w s : jsstring) :
  allWhite w -> Str.trimStart (w ++ s) = Str.trimStart s.
Proof.
  induction 1 as [|u w Hu _ IH]; [reflexivity|].
  cbn [app Str.trimStart]. rewrite Hu. exact IH.
Qed.

Lemma trimStart_app_white (s w : jsstring) :
  allWhite w ->
  Str.trimStart (s ++ w)
  = match Str.trimStart s with
    | [] => []
    | t => t ++ w
    end.
Proof.
  intro Hw. induction s as [|u s IH].
  - simpl. rewrite <- (app_nil_r w). rewrite trimStart_white by exact Hw.
    reflexivity.
  - cbn [app Str.trimStart]. destruct (Str.isWhiteSpace u); [exact IH|].
    reflexivity.
Qed.

Lemma allWhite_rev (w : jsstring) : allWhite w -> allWhite (rev w).
Proof.
  unfold allWhite. rewrite !Forall_forall. intros H u Hu.
  apply H. apply in_rev. exact Hu.
Qed.

Lemma trimEnd_app_white (s w : jsstring) :
  allWhite w -> Str.trimEnd (s ++ w) = Str.trimEnd s.
Proof.
  intro Hw. unfold Str.trimEnd. rewrite rev_app_distr.
  rewrite trimStart_white by (apply allWhite_rev, Hw). reflexivity.
Qed.

Lemma trimEnd_nil : Str.trimEnd [] = [].
Proof. reflexivity. Qed.

Lemma trim_surrounded (w1 s w2 : jsstring) :
  allWhite w1 -> allWhite w2 -> Str.trim (w1 ++ s ++ w2) = Str.trim s.
Proof.
  intros H1 H2. unfold Str.trim.
  rewrite trimStart_white by exact H1.
  rewrite trimStart_app_white by exact H2.
  destruct (Str.trimStart s) as [|u t] eqn:E; [reflexivity|].
  apply trimEnd_app_white, H2.
Qed.

Lemma trimStart_headBlack (s : jsstring) : headBlack (Str.trimStart s).
Proof.
  induction s as [|u s IH]; simpl; [trivial|].
  destruct (Str.isWhiteSpace u) eqn:E; [exact IH | exact E].
Qed.

Lemma trimStart_fixed (s : jsstring) : headBlack s -> Str.trimStart s = s.
Proof. destruct s as [|u s]; simpl; [reflexivity|]. intros ->. reflexivity. Qed.

Lemma trimStart_snoc_black (s : jsstring) (u : N) :
  Str.isWhiteSpace u = false ->
  Str.trimStart (s ++ [u]) = Str.trimStart s ++ [u].
Proof.
  intro Hu. induction s as [|v s IH]; simpl; [rewrite Hu; reflexivity|].
  destruct (Str.isWhiteSpace v); [exact IH | reflexivity].
Qed.

Lemma trimEnd_headBlack (s : jsstring) :
  headBlack s -> headBlack (Str.trimEnd s).
Proof.
  destruct s as [|u s]; [trivial|]. simpl. intro Hu.
  unfold Str.trimEnd. cbn [rev].
  rewrite trimStart_snoc_black by exact Hu.
  rewrite rev_app_distr. simpl. exact Hu.
Qed.

Lemma trimEnd_trimEnd (s : jsstring) :
  Str.trimEnd (Str.trimEnd s) = Str.trimEnd s.
Proof.
  unfold Str.trimEnd. rewrite rev_involutive.
  rewrite (trimStart_fixed (Str.trimStart (rev s)))
    by apply trimStart_headBlack.
  reflexivity.
Qed.

Lemma trim_idempotent (s : jsstring) : Str.trim (Str.trim s) = Str.trim s.
Proof.
  unfold Str.trim.
  rewrite (trimStart_fixed (Str.trimEnd (Str.trimStart s)))
    by (apply trimEnd_headBlack, trimStart_headBlack).
  apply trimEnd_trimEnd.
Qed.

Section ParseMore.

Variable StringToNumber : jsstring -> number.

(** X20: white space around the schedule text (blank lines before the
    header, line ends after the last row) does not change what is parsed;
    and trimming is idempotent, its result neither starting nor ending with
    white space. *)
Theorem schedule_ignores_surrounding_space (w1 csv w2 : jsstring) :
  allWhite w1 -> allWhite w2 ->
  parseMapCsv StringToNumber (w1 ++ csv ++ w2)
  = parseMapCsv StringToNumber csv /\
  Str.trim (Str.trim csv) = Str.trim csv /\
  headBlack (Str.trim csv) /\ headBlack (rev (Str.trim csv)).
Proof.
  intros H1 H2. split; [|split; [|split]].
  - unfold parseMapCsv. rewrite trim_surrounded by assumption. reflexivity.
  - apply trim_idempotent.
  - unfold Str.trim. apply trimEnd_headBlack, trimStart_headBlack.
  - unfold Str.trim, Str.trimEnd. rewrite rev_involutive.
    apply trimStart_headBlack.
Qed.

(** X21: a row made of three or more fields without commas, joined by
    commas, parses to the first field times CANVAS_HEIGHT, the second field
    times CANVAS_HEIGHT and the third field times 1000; fields after the
    third are ignored. *)
Theorem row_parsing (a b c : jsstring) (extra : list jsstring) :
  Forall plainField (a :: b :: c :: extra) ->
  parseLine StringToNumber (joinWith Str.COMMA (a :: b :: c :: extra))
  = SpawnSpec.mk
      (Num.round (StringToNumber a * ofZ Viewport.CANVAS_HEIGHT)%num)
      (Num.round (StringToNumber b * ofZ Viewport.CANVAS_HEIGHT)%num)
      (Num.round (StringToNumber c * ofZ 1000)%num).
Proof.
  intro H. unfold parseLine.
  rewrite splitComma_joinWith by (discriminate || exact H).
  reflexivity.
Qed.

(** X22: a schedule written as a header and rows joined by line feeds, or
    by CR LF, that neither starts nor ends with white space is read back row
    by row: the header is dropped and every row gives its SpawnSpec, in
    order. With bare line feeds no line may end in a carriage return. *)
Theorem schedule_round_trip (sep header : jsstring) (rows : list jsstring) :
  (sep = [Str.LF] /\ Forall plainLine (header :: rows)) \/
  (sep = [Str.CR; Str.LF] /\
   Forall (Forall (fun u => u <> Str.LF)) (header :: rows)) ->
  Str.trim (joinLines sep (header :: rows)) = joinLines sep (header :: rows) ->
  parseMapCsv StringToNumber (joinLines sep (header :: rows))
  = map (parseLine StringToNumber) rows.
Proof.
  intros H Ht. unfold parseMapCsv. rewrite Ht.
  destruct split_after_join_lines as [Hcrlf Hlf].
  destruct H as [[-> H]|[-> H]].
  - rewrite Hlf by (discriminate || exact H). reflexivity.
  - rewrite Hcrlf by (discriminate || exact H). reflexivity.
Qed.

End ParseMore.

(** ** The pipes on the canvas *)

Lemma filter_all {A : Type} (f : A -> bool) (l : list A) :
  (forall a, In a l -> f a = true) -> filter f l = l.
Proof.
  induction l as [|a l IH]; intro H; simpl; [reflexivity|].
  rewrite (H a (or_introl eq_refl)), IH; [reflexivity|].
  intros b Hb. apply H. right. exact Hb.
Qed.

Lemma get_None (m : PipeMap.t) (id : Z) :
  PipeMap.get m id = None <-> ~ In id (PipeMap.keys m).
Proof.
  induction m as [|[k v] m IH]; simpl; [tauto|].
  destruct (Z.eqb_spec id k) as [->|Hne].
  - split; [discriminate | intro H; exfalso; apply H; left; reflexivity].
  - rewrite IH. split; [intros H [E|Hi]; [congruence | tauto] | tauto].
Qed.

Lemma get_Some (m : PipeMap.t) (id : Z) (v : PipeElems.t) :
  PipeMap.get m id = Some v -> In (id, v) m.
Proof.
  induction m as [|[k w] m IH]; simpl; [discriminate|].
  destruct (Z.eqb_spec id k) as [->|Hne].
  - intros [= ->]. left. reflexivity.
  - intro H. right. apply IH, H.
Qed.

Lemma set_new (m : PipeMap.t) (id : Z) (v : PipeElems.t) :
  ~ In id (PipeMap.keys m) -> PipeMap.set m id v = m ++ [(id, v)].
Proof.
  induction m as [|[k w] m IH]; simpl; intro H; [reflexivity|].
  destruct (Z.eqb_spec id k) as [->|Hne]; [tauto|].
  rewrite IH by tauto. reflexivity.
Qed.

Lemma delete_entry (pre r : PipeMap.t) (id : Z) (v : PipeElems.t) :
  NoDup (PipeMap.keys (pre ++ (id, v) :: r)) ->
  PipeMap.delete (pre ++ (id, v) :: r) id = pre ++ r.
Proof.
  unfold PipeMap.keys, PipeMap.delete. rewrite map_app. cbn [map fst].
  intro H. apply NoDup_remove_2 in H.
  rewrite filter_app. cbn [filter fst]. rewrite Z.eqb_refl. cbn [negb].
  rewrite !filter_all; [reflexivity| |].
  - intros [k w] Hk. cbn [fst]. apply negb_true_iff, Z.eqb_neq.
    intros ->. apply H. apply in_or_app. right.
    apply (in_map fst) in Hk. exact Hk.
  - intros [k w] Hk. cbn [fst]. apply negb_true_iff, Z.eqb_neq.
    intros ->. apply H. apply in_or_app. left.
    apply (in_map fst) in Hk. exact Hk.
Qed.

Lemma handles_app (m m' : PipeMap.t) :
  PipeMap.handles (m ++ m') = PipeMap.handles m ++ PipeMap.handles m'.
Proof. unfold PipeMap.handles. apply flat_map_app. Qed.

Lemma updateAt_length {A : Type} (f : A -> A) (i : nat) (l : list A) :
  length (Dom.updateAt f i l) = length l.
Proof.
  revert i. induction l as [|a l IH]; intros [|i]; simpl; auto.
Qed.

Lemma removeChild_In (d : Dom.t) (h : Dom.handle) :
  In h (Dom.children d) ->
  Dom.removeChild d h
  = Some (Dom.mk (Dom.elems d)
            (filter (fun c => negb (Nat.eqb c h)) (Dom.children d))).
Proof.
  intro H. unfold Dom.removeChild.
  assert (E : existsb (Nat.eqb h) (Dom.children d) = true)
    by (apply existsb_exists; exists h; split; [exact H | apply Nat.eqb_refl]).
  rewrite E. reflexivity.
Qed.

Lemma removeChild_missing (d : Dom.t) (h : Dom.handle) :
  ~ In h (Dom.children d) -> Dom.removeChild d h = None.
Proof.
  intro H. unfold Dom.removeChild.
  destruct (existsb (Nat.eqb h) (Dom.children d)) eqn:E; [|reflexivity].
  apply existsb_exists in E. destruct E as [c [Hc E]].
  apply Nat.eqb_eq in E. subst. contradiction.
Qed.

Lemma In_filter_ne (h c : Dom.handle) (l : list Dom.handle) :
  In c (filter (fun x => negb (Nat.eqb x h)) l) <-> In c l /\ c <> h.
Proof.
  rewrite filter_In, negb_true_iff, Nat.eqb_neq. reflexivity.
Qed.

Lemma appendChild_fresh (d : Dom.t) (h : Dom.handle) :
  ~ In h (Dom.children d) ->
  Dom.appendChild d h = Dom.mk (Dom.elems d) (Dom.children d ++ [h]).
Proof.
  intro H. unfold Dom.appendChild. rewrite filter_all; [reflexivity|].
  intros c Hc. apply negb_true_iff, Nat.eqb_neq. intros ->. contradiction.
Qed.

Section SyncFacts.

Variable show : number -> jsstring.
Variable namespaceURI : option jsstring.

Lemma syncPipe_known (d : Dom.t) (m : PipeMap.t) (p : Pipe.t)
    (v : PipeElems.t) :
  PipeMap.get m (Pipe.id p) = Some v ->
  syncPipe show namespaceURI (d, m) p
  = (Dom.setAttribute
       (Dom.setAttribute d (PipeElems.top v) attrX (show (Pipe.x p)))
       (PipeElems.bottom v) attrX (show (Pipe.x p)),
     m).
Proof. intro H. unfold syncPipe. rewrite H. reflexivity. Qed.

Lemma syncPipe_new (d : Dom.t) (m : PipeMap.t) (p : Pipe.t) :
  PipeMap.get m (Pipe.id p) = None ->
  Forall (fun h => (h < length (Dom.elems d))%nat) (Dom.children d) ->
  let top := length (Dom.elems d) in
  let bottom := S (length (Dom.elems d)) in
  exists d',
    syncPipe show namespaceURI (d, m) p
    = (d', m ++ [(Pipe.id p, PipeElems.mk top bottom)]) /\
    Dom.children d' = Dom.children d ++ [top; bottom] /\
    length (Dom.elems d') = S (S (length (Dom.elems d))).
Proof.
  intros Hg Hc. cbv zeta. unfold syncPipe. rewrite Hg.
  unfold Dom.createSvgElement. cbn [Dom.elems Dom.children fst snd].
  rewrite set_new by (apply get_None, Hg).
  rewrite length_app. cbn [length]. rewrite Nat.add_1_r.
  rewrite (appendChild_fresh _ (length (Dom.elems d))).
  2:{ cbn [Dom.children]. intro Hin. rewrite Forall_forall in Hc.
      specialize (Hc _ Hin). lia. }
  rewrite (appendChild_fresh _ (S (length (Dom.elems d)))).
  2:{ cbn [Dom.children]. intro Hin. apply in_app_or in Hin.
      destruct Hin as [Hin|[E|[]]]; [|lia].
      rewrite Forall_forall in Hc. specialize (Hc _ Hin). lia. }
  cbn [Dom.elems Dom.children PipeElems.top PipeElems.bottom].
  eexists. split; [reflexivity|]. unfold Dom.setAttribute.
  cbn [Dom.elems Dom.children]. split.
  - rewrite <- app_assoc. reflexivity.
  - rewrite !updateAt_length, !length_app. cbn [length]. lia.
Qed.

Lemma syncPipe_synced (st : Dom.t * PipeMap.t) (p : Pipe.t) :
  synced st ->
  synced (syncPipe show namespaceURI st p) /\
  (forall id,
      In id (PipeMap.keys (snd (syncPipe show namespaceURI st p)))
      <-> In id (PipeMap.keys (snd st)) \/ id = Pipe.id p) /\
  (forall h,
      In h (Dom.children (fst (syncPipe show namespaceURI st p)))
      <-> In h (Dom.children (fst st))
          \/ (In h (PipeMap.handles
                      (snd (syncPipe show namespaceURI st p)))
              /\ ~ In h (PipeMap.handles (snd st)))).
Proof.
  destruct st as [d m]. intros (Hk & Hh & Hi & Hc). cbn [fst snd] in *.
  destruct (PipeMap.get m (Pipe.id p)) as [v|] eqn:Hg.
  - rewrite (syncPipe_known d m p v Hg). cbn [fst snd].
    split; [|split].
    + unfold synced, Dom.setAttribute. cbn [fst snd Dom.elems Dom.children].
      rewrite !updateAt_length. repeat split; assumption.
    + intro id. split; [tauto|]. intros [H| ->]; [exact H|].
      apply get_Some in Hg. apply (in_map fst) in Hg. exact Hg.
    + intro h. unfold Dom.setAttribute. cbn [Dom.children]. tauto.
  - destruct (syncPipe_new d m p Hg Hc) as (d' & E & Hch & Hlen).
    rewrite E. cbn [fst snd].
    assert (Hlt : forall h, In h (PipeMap.handles m) ->
                  (h < length (Dom.elems d))%nat).
    { intros h Hin. rewrite Forall_forall in Hc. apply Hc, Hi, Hin. }
    split; [|split].
    + unfold synced. cbn [fst snd]. repeat split.
      * unfold PipeMap.keys. rewrite map_app. cbn [map fst].
        apply NoDup_app; [exact Hk | repeat constructor; intros [] |].
        intros id Hid [<-|[]]. apply get_None in Hg. contradiction.
      * rewrite handles_app. cbn [PipeMap.handles flat_map snd app
          PipeElems.top PipeElems.bottom].
        apply NoDup_app; [exact Hh | |].
        -- repeat constructor; simpl; [intros [E'|[]]; lia | tauto].
        -- intros h Hin [<-|[<-|[]]]; specialize (Hlt _ Hin); lia.
      * rewrite handles_app, Hch. cbn [PipeMap.handles flat_map snd app
          PipeElems.top PipeElems.bottom].
        intros h Hin. apply in_app_or in Hin. apply in_or_app.
        destruct Hin as [Hin|Hin]; [left; apply Hi, Hin | right; exact Hin].
      * rewrite Hch, Hlen. apply Forall_app. split.
        -- eapply Forall_impl; [|exact Hc]. simpl. intros; lia.
        -- repeat constructor; lia.
    + intro id. unfold PipeMap.keys. rewrite map_app, in_app_iff.
      cbn [map fst]. simpl. intuition congruence.
    + intro h. rewrite Hch, handles_app, !in_app_iff.
      cbn [PipeMap.handles flat_map snd app PipeElems.top PipeElems.bottom].
      split.
      * intros [H|H]; [left; exact H|]. right. split; [right; exact H|].
        intro Hin. specialize (Hlt _ Hin). destruct H as [<-|[<-|[]]]; lia.
      * intros [H|[[H|H] Hn]]; [left; exact H | contradiction | right; exact H].
Qed.

Lemma syncPipe_handles (st : Dom.t * PipeMap.t) (p : Pipe.t) :
  synced st ->
  forall h,
    In h (PipeMap.handles (snd (syncPipe show namespaceURI st p))) ->
    In h (PipeMap.handles (snd st)) \/ ~ In h (Dom.children (fst st)).
Proof.
  destruct st as [d m]. intros (Hk & Hh & Hi & Hc) h. cbn [fst snd] in *.
  destruct (PipeMap.get m (Pipe.id p)) as [v|] eqn:Hg.
  - rewrite (syncPipe_known d m p v Hg). cbn [snd]. tauto.
  - destruct (syncPipe_new d m p Hg Hc) as (d' & E & _).
    rewrite E. cbn [snd]. rewrite handles_app, in_app_iff.
    cbn [PipeMap.handles flat_map snd app PipeElems.top PipeElems.bottom].
    intros [H|H]; [left; exact H|]. right. intro Hin.
    rewrite Forall_forall in Hc. specialize (Hc _ Hin).
    destruct H as [<-|[<-|[]]]; lia.
Qed.

End SyncFacts.

Lemma NoDup_remove_pair {A : Type} (l r : list A) (t b : A) :
  NoDup (l ++ t :: b :: r) ->
  t <> b /\ ~ In t (l ++ r) /\ ~ In b (l ++ r) /\ NoDup (l ++ r).
Proof.
  intro H. apply NoDup_remove in H. destruct H as [H Ht].
  apply NoDup_remove in H. destruct H as [H Hb].
  repeat split; try assumption.
  - intros ->. apply Ht. apply in_or_app. right. left. reflexivity.
  - intro Hin. apply Ht. apply in_app_or in Hin. apply in_or_app.
    destruct Hin; [left | right; right]; assumption.
Qed.

Section SyncTheorem.

Variable show : number -> jsstring.
Variable namespaceURI : option jsstring.

Lemma sync_fold (pipes : list Pipe.t) (st : Dom.t * PipeMap.t) :
  synced st ->
  let st1 := fold_left (syncPipe show namespaceURI) pipes st in
  synced st1 /\
  (forall id,
      In id (PipeMap.keys (snd st1))
      <-> In id (PipeMap.keys (snd st)) \/ In id (map Pipe.id pipes)) /\
  (forall h, In h (Dom.children (fst st)) -> In h (Dom.children (fst st1))) /\
  (forall e, In e (snd st) -> In e (snd st1)) /\
  (forall h,
      In h (PipeMap.handles (snd st1)) ->
      In h (PipeMap.handles (snd st)) \/ ~ In h (Dom.children (fst st))).
Proof.
  cbv zeta. revert st. induction pipes as [|p ps IH]; intros st Hs.
  - simpl. split; [exact Hs|]. repeat split; tauto.
  - cbn [fold_left map].
    destruct (syncPipe_synced show namespaceURI st p Hs) as (Hs' & Hk & Hc).
    destruct (IH _ Hs') as (I1 & I2 & I3 & I4 & I5).
    split; [exact I1|]. split; [|split; [|split]].
    + intro id. rewrite I2, Hk. simpl. intuition congruence.
    + intros h Hh. apply I3. apply Hc. left. exact Hh.
    + intros e He. apply I4.
      destruct st as [d m]. cbn [snd] in *.
      destruct (PipeMap.get m (Pipe.id p)) as [v|] eqn:Hg.
      * rewrite (syncPipe_known show namespaceURI d m p v Hg). exact He.
      * destruct Hs as (_ & _ & _ & Hf). cbn [fst] in Hf.
        destruct (syncPipe_new show namespaceURI d m p Hg Hf)
          as (d' & E & _).
        rewrite E. cbn [snd]. apply in_or_app. left. exact He.
    + intros h Hh. destruct (I5 h Hh) as [H|H].
      * apply (syncPipe_handles show namespaceURI st p Hs), H.
      * right. intro Hin. apply H. apply Hc. left. exact Hin.
Qed.

Lemma drop_fold (seen : list Z) (es pre : PipeMap.t) (d : Dom.t) :
  synced (d, pre ++ es) ->
  exists d',
    fold_left (dropUnseen seen) es (Some (d, pre ++ es))
    = Some (d', pre ++ filter (fun kv => Pipes.has seen (fst kv)) es) /\
    synced (d', pre ++ filter (fun kv => Pipes.has seen (fst kv)) es) /\
    (forall h,
        In h (Dom.children d) -> ~ In h (PipeMap.handles es) ->
        In h (Dom.children d')).
Proof.
  revert pre d. induction es as [|[id v] r IH]; intros pre d Hs.
  - exists d. simpl. split; [reflexivity|]. split; [exact Hs | tauto].
  - cbn [fold_left filter fst]. unfold dropUnseen at 2. cbn [fst snd].
    destruct (Pipes.has seen id) eqn:Hseen; cbn [negb].
    + assert (E : pre ++ (id, v) :: r = (pre ++ [(id, v)]) ++ r)
        by (rewrite <- app_assoc; reflexivity).
      rewrite E in Hs |- *.
      destruct (IH (pre ++ [(id, v)]) d Hs) as (d' & H1 & H2 & H3).
      exists d'.
      assert (E' : pre ++ (id, v)
                     :: filter (fun kv => Pipes.has seen (fst kv)) r
                   = (pre ++ [(id, v)])
                     ++ filter (fun kv => Pipes.has seen (fst kv)) r)
        by (rewrite <- app_assoc; reflexivity).
      rewrite E'. split; [exact H1|]. split; [exact H2|].
      intros h Hh Hn. apply H3; [exact Hh|].
      intro Hr. apply Hn. cbn [PipeMap.handles flat_map].
      apply in_or_app. right. exact Hr.
    + destruct Hs as (Hk & Hh & Hi & Hc). cbn [fst snd] in *.
      rewrite handles_app in Hh, Hi.
      cbn [PipeMap.handles flat_map snd app] in Hh, Hi.
      fold (PipeMap.handles r) in Hh, Hi.
      destruct (NoDup_remove_pair _ _ _ _ Hh) as (Htb & Ht & Hb & Hnd).
      assert (Hint : In (PipeElems.top v) (Dom.children d)).
      { apply Hi. apply in_or_app. right. left. reflexivity. }
      assert (Hinb : In (PipeElems.bottom v) (Dom.children d)).
      { apply Hi. apply in_or_app. right. right. left. reflexivity. }
      rewrite (removeChild_In d _ Hint).
      rewrite removeChild_In
        by (cbn [Dom.children]; apply In_filter_ne; split; auto).
      cbn [Dom.elems Dom.children].
      rewrite (delete_entry pre r id v Hk).
      set (d2 := Dom.mk (Dom.elems d)
                   (filter (fun c => negb (Nat.eqb c (PipeElems.bottom v)))
                      (filter (fun c => negb (Nat.eqb c (PipeElems.top v)))
                         (Dom.children d)))).
      assert (Hs2 : synced (d2, pre ++ r)).
      { unfold synced. cbn [fst snd]. repeat split.
        - unfold PipeMap.keys in *. rewrite map_app in *. cbn [map fst] in Hk.
          apply NoDup_remove_1 in Hk. exact Hk.
        - rewrite handles_app. exact Hnd.
        - rewrite handles_app. intros h Hin. subst d2. cbn [Dom.children].
          apply In_filter_ne. split; [apply In_filter_ne; split|].
          + apply Hi. apply in_app_or in Hin. apply in_or_app.
            destruct Hin; [left | right; right; right]; assumption.
          + intros ->. contradiction.
          + intros ->. contradiction.
        - subst d2. cbn [Dom.children Dom.elems]. rewrite Forall_forall in *.
          intros h Hin. apply In_filter_ne in Hin. destruct Hin as [Hin _].
          apply In_filter_ne in Hin. destruct Hin as [Hin _].
          apply Hc, Hin. }
      destruct (IH pre d2 Hs2) as (d' & H1 & H2 & H3).
      exists d'. split; [exact H1|]. split; [exact H2|].
      intros h Hin Hn. apply H3.
      * subst d2. cbn [Dom.children].
        apply In_filter_ne. split; [apply In_filter_ne; split|].
        -- exact Hin.
        -- intros ->. apply Hn. left. reflexivity.
        -- intros ->. apply Hn. right. left. reflexivity.
      * intro Hr. apply Hn. right. right. exact Hr.
Qed.

(** X23: when the rectangles the map refers to are distinct children of the
    canvas, syncing the pipes never fails on a missing child; afterwards the
    map has an entry for exactly the ids of the pipes given, a pipe that
    had its rectangles keeps them, the rectangles in the map are again
    distinct children of the canvas, and the children of the canvas that
    were no pipe rectangles (the bird, the ghosts) are still there. *)
Theorem pipes_synced (st : Dom.t * PipeMap.t) (pipes : list Pipe.t) :
  synced st ->
  exists d' m',
    makeSyncPipes show namespaceURI st pipes = Some (d', m') /\
    synced (d', m') /\
    (forall id, In id (PipeMap.keys m') <-> In id (map Pipe.id pipes)) /\
    (forall id v,
        In (id, v) (snd st) -> In id (map Pipe.id pipes) -> In (id, v) m') /\
    (forall h,
        In h (Dom.children (fst st)) -> ~ In h (PipeMap.handles (snd st)) ->
        In h (Dom.children d')).
Proof.
  intro Hs. unfold makeSyncPipes.
  destruct (sync_fold pipes st Hs) as (H1 & H2 & H3 & H4 & H5).
  set (st1 := fold_left (syncPipe show namespaceURI) pipes st) in *.
  destruct st1 as [d1 m1] eqn:E1. cbn [fst snd] in *.
  destruct (drop_fold (map Pipe.id pipes) m1 [] d1 H1) as (d' & D1 & D2 & D3).
  cbn [app] in D1, D2.
  exists d', (filter (fun kv => Pipes.has (map Pipe.id pipes) (fst kv)) m1).
  split; [exact D1|]. split; [exact D2|]. split; [|split].
  - intro id. unfold PipeMap.keys. rewrite in_map_iff. split.
    + intros [[k v] [<- Hin]]. apply filter_In in Hin.
      destruct Hin as [_ Hin]. apply has_spec in Hin. exact Hin.
    + intro Hin.
      assert (Hk : In id (PipeMap.keys m1)) by (apply H2; right; exact Hin).
      unfold PipeMap.keys in Hk. apply in_map_iff in Hk.
      destruct Hk as [[k v] [<- Hk]]. exists (k, v). split; [reflexivity|].
      apply filter_In. split; [exact Hk|]. apply has_spec. exact Hin.
  - intros id v Hin Hid. apply filter_In. split; [apply H4, Hin|].
    apply has_spec. exact Hid.
  - intros h Hh Hn. apply D3; [apply H3, Hh|].
    intro Hm1. destruct (H5 h Hm1) as [H|H]; contradiction.
Qed.

End SyncTheorem.

(** ** The attributes of the rectangles *)

Lemma streq_refl (a : jsstring) : Dom.streq a a = true.
Proof. unfold Dom.streq. destruct (list_eq_dec N.eq_dec a a); congruence. Qed.

Lemma getAttr_setAttr (k v : jsstring) (l : list (jsstring * jsstring)) :
  Dom.getAttr k (Dom.setAttr k v l) = Some v.
Proof.
  induction l as [|[k' v'] l IH]; simpl.
  - rewrite streq_refl. reflexivity.
  - destruct (Dom.streq k k') eqn:E; simpl.
    + rewrite streq_refl. reflexivity.
    + rewrite E. exact IH.
Qed.

Lemma nth_error_updateAt_same {A : Type} (f : A -> A) (i : nat)
    (l : list A) (a : A) :
  nth_error l i = Some a -> nth_error (Dom.updateAt f i l) i = Some (f a).
Proof.
  revert i. induction l as [|b l IH]; intros [|i]; simpl; try discriminate.
  - intros [= ->]. reflexivity.
  - apply IH.
Qed.

Lemma nth_error_updateAt_other {A : Type} (f : A -> A) (i j : nat)
    (l : list A) :
  i <> j -> nth_error (Dom.updateAt f i l) j = nth_error l j.
Proof.
  revert i j. induction l as [|b l IH]; intros [|i] [|j] H; simpl;
    try reflexivity; try congruence.
  apply IH. congruence.
Qed.

Lemma getAttribute_set_same (d : Dom.t) (h : Dom.handle) (k v : jsstring) :
  (h < length (Dom.elems d))%nat ->
  Dom.getAttribute (Dom.setAttribute d h k v) h k = Some v.
Proof.
  intro H. unfold Dom.getAttribute, Dom.setAttribute. cbn [Dom.elems].
  destruct (nth_error (Dom.elems d) h) as [e|] eqn:E.
  - rewrite (nth_error_updateAt_same _ _ _ _ E). cbn [Dom.attrs].
    apply getAttr_setAttr.
  - apply nth_error_None in E. lia.
Qed.

Lemma getAttribute_set_other (d : Dom.t) (h h' : Dom.handle)
    (k v k' : jsstring) :
  h <> h' ->
  Dom.getAttribute (Dom.setAttribute d h k v) h' k'
  = Dom.getAttribute d h' k'.
Proof.
  intro H. unfold Dom.getAttribute, Dom.setAttribute. cbn [Dom.elems].
  rewrite nth_error_updateAt_other by exact H. reflexivity.
Qed.

Lemma get_app_new (m : PipeMap.t) (id : Z) (v : PipeElems.t) :
  PipeMap.get m id = None -> PipeMap.get (m ++ [(id, v)]) id = Some v.
Proof.
  induction m as [|[k w] m IH]; simpl.
  - rewrite Z.eqb_refl. reflexivity.
  - destruct (Z.eqb id k); [discriminate | exact IH].
Qed.

Lemma get_app_other (m : PipeMap.t) (id id' : Z) (v : PipeElems.t) :
  id' <> id -> PipeMap.get (m ++ [(id, v)]) id' = PipeMap.get m id'.
Proof.
  intro H. induction m as [|[k w] m IH]; simpl.
  - destruct (Z.eqb_spec id' id); [contradiction | reflexivity].
  - destruct (Z.eqb id' k); [reflexivity | exact IH].
Qed.

Lemma get_filter_seen (seen : list Z) (m : PipeMap.t) (id : Z) :
  Pipes.has seen id = true ->
  PipeMap.get (filter (fun kv => Pipes.has seen (fst kv)) m) id
  = PipeMap.get m id.
Proof.
  intro H. induction m as [|[k w] m IH]; simpl; [reflexivity|].
  destruct (Z.eqb_spec id k) as [->|Hne].
  - rewrite H. simpl. rewrite Z.eqb_refl. reflexivity.
  - destruct (Pipes.has seen k); simpl; [|exact IH].
    destruct (Z.eqb_spec id k); [contradiction | exact IH].
Qed.

Lemma handles_of_entry (m : PipeMap.t) (id : Z) (v : PipeElems.t) :
  In (id, v) m ->
  In (PipeElems.top v) (PipeMap.handles m) /\
  In (PipeElems.bottom v) (PipeMap.handles m).
Proof.
  intro H. unfold PipeMap.handles. rewrite !in_flat_map.
  split; exists (id, v); (split; [exact H|]); simpl; auto.
Qed.

Lemma handles_pair (m : PipeMap.t) (id : Z) (v : PipeElems.t) :
  NoDup (PipeMap.handles m) -> In (id, v) m ->
  PipeElems.top v <> PipeElems.bottom v.
Proof.
  induction m as [|[k w] m IH]; [contradiction|].
  cbn [PipeMap.handles flat_map snd app]. fold (PipeMap.handles m).
  intros Hnd H.
  inversion Hnd as [|? ? Ht Hnd']; subst.
  inversion Hnd' as [|? ? Hb Hnd'']; subst.
  destruct H as [[= -> ->]|H].
  - intro E. apply Ht. left. symmetry. exact E.
  - apply IH; assumption.
Qed.

Lemma handles_apart (m : PipeMap.t) (id id' : Z) (v v' : PipeElems.t) :
  NoDup (PipeMap.handles m) ->
  In (id, v) m -> In (id', v') m -> id <> id' ->
  PipeElems.top v <> PipeElems.top v' /\
  PipeElems.top v <> PipeElems.bottom v' /\
  PipeElems.bottom v <> PipeElems.top v' /\
  PipeElems.bottom v <> PipeElems.bottom v'.
Proof.
  induction m as [|[k w] m IH]; [contradiction|].
  cbn [PipeMap.handles flat_map snd app]. fold (PipeMap.handles m).
  intros Hnd H H' Hne.
  inversion Hnd as [|? ? Ht Hnd']; subst.
  inversion Hnd' as [|? ? Hb Hnd'']; subst.
  destruct H as [[= -> ->]|H], H' as [[= -> ->]|H']; try contradiction.
  - destruct (handles_of_entry m id' v' H') as [H1 H2].
    repeat split; intro E.
    + apply Ht. right. rewrite E. exact H1.
    + apply Ht. right. rewrite E. exact H2.
    + apply Hb. rewrite E. exact H1.
    + apply Hb. rewrite E. exact H2.
  - destruct (handles_of_entry m id v H) as [H1 H2].
    repeat split; intro E.
    + apply Ht. right. rewrite <- E. exact H1.
    + apply Hb. rewrite <- E. exact H1.
    + apply Ht. right. rewrite <- E. exact H2.
    + apply Hb. rewrite <- E. exact H2.
  - apply IH; assumption.
Qed.

Section SyncAttributes.

Variable show : number -> jsstring.
Variable namespaceURI : option jsstring.

Lemma syncPipe_new_form (d : Dom.t) (m : PipeMap.t) (p : Pipe.t) :
  PipeMap.get m (Pipe.id p) = None ->
  Forall (fun h => (h < length (Dom.elems d))%nat) (Dom.children d) ->
  let top := length (Dom.elems d) in
  let bottom := S (length (Dom.elems d)) in
  exists e1 e2,
    syncPipe show namespaceURI (d, m) p
    = (Dom.setAttribute
         (Dom.setAttribute
            (Dom.mk ((Dom.elems d ++ [e1]) ++ [e2])
               ((Dom.children d ++ [top]) ++ [bottom]))
            top attrX (show (Pipe.x p)))
         bottom attrX (show (Pipe.x p)),
       m ++ [(Pipe.id p, PipeElems.mk top bottom)]).
Proof.
  intros Hg Hc. cbv zeta. unfold syncPipe. rewrite Hg.
  unfold Dom.createSvgElement. cbn [Dom.elems Dom.children fst snd].
  rewrite set_new by (apply get_None, Hg).
  rewrite length_app. cbn [length]. rewrite Nat.add_1_r.
  rewrite (appendChild_fresh _ (length (Dom.elems d))).
  2:{ cbn [Dom.children]. intro Hin. rewrite Forall_forall in Hc.
      specialize (Hc _ Hin). lia. }
  rewrite (appendChild_fresh _ (S (length (Dom.elems d)))).
  2:{ cbn [Dom.children]. intro Hin. apply in_app_or in Hin.
      destruct Hin as [Hin|[E|[]]]; [|lia].
      rewrite Forall_forall in Hc. specialize (Hc _ Hin). lia. }
  cbn [Dom.elems Dom.children PipeElems.top PipeElems.bottom].
  eexists. eexists. reflexivity.
Qed.

Lemma entry_in_range (st : Dom.t * PipeMap.t) (id : Z) (v : PipeElems.t) :
  synced st -> PipeMap.get (snd st) id = Some v ->
  (PipeElems.top v < length (Dom.elems (fst st)))%nat /\
  (PipeElems.bottom v < length (Dom.elems (fst st)))%nat /\
  PipeElems.top v <> PipeElems.bottom v.
Proof.
  intros (_ & Hh & Hi & Hc) Hg. apply get_Some in Hg.
  destruct (handles_of_entry _ _ _ Hg) as [H1 H2].
  rewrite Forall_forall in Hc.
  split; [apply Hc, Hi, H1|]. split; [apply Hc, Hi, H2|].
  eapply handles_pair; eassumption.
Qed.

Lemma syncPipe_scrolls (st : Dom.t * PipeMap.t) (p : Pipe.t) :
  synced st -> scrolled show (syncPipe show namespaceURI st p) p.
Proof.
  intro Hs. destruct st as [d m].
  destruct (PipeMap.get m (Pipe.id p)) as [v|] eqn:Hg.
  - destruct (entry_in_range (d, m) _ v Hs Hg) as (Ht & Hb & Hne).
    cbn [fst snd] in *.
    rewrite (syncPipe_known show namespaceURI d m p v Hg).
    exists v. cbn [fst snd]. split; [exact Hg|]. split.
    + rewrite getAttribute_set_other by congruence.
      apply getAttribute_set_same, Ht.
    + apply getAttribute_set_same. unfold Dom.setAttribute.
      cbn [Dom.elems]. rewrite updateAt_length. exact Hb.
  - destruct Hs as (_ & _ & _ & Hc). cbn [fst snd] in Hc.
    destruct (syncPipe_new_form d m p Hg Hc) as (e1 & e2 & E).
    rewrite E. eexists. cbn [fst snd].
    split; [apply get_app_new, Hg|].
    cbn [PipeElems.top PipeElems.bottom]. split.
    + rewrite getAttribute_set_other by lia.
      apply getAttribute_set_same. cbn [Dom.elems].
      rewrite !length_app. cbn [length]. lia.
    + apply getAttribute_set_same. unfold Dom.setAttribute.
      cbn [Dom.elems]. rewrite updateAt_length, !length_app.
      cbn [length]. lia.
Qed.

Lemma syncPipe_keeps (st : Dom.t * PipeMap.t) (p q : Pipe.t) :
  synced st -> Pipe.id q <> Pipe.id p ->
  scrolled show st q -> scrolled show (syncPipe show namespaceURI st p) q.
Proof.
  intros Hs Hne (vq & Hq & Hqt & Hqb). destruct st as [d m].
  destruct (entry_in_range (d, m) _ vq Hs Hq) as (Ht & Hb & _).
  cbn [fst snd] in *.
  destruct (PipeMap.get m (Pipe.id p)) as [v|] eqn:Hg.
  - rewrite (syncPipe_known show namespaceURI d m p v Hg).
    destruct Hs as (_ & Hh & _). cbn [fst snd] in Hh.
    destruct (handles_apart m _ _ vq v Hh (get_Some _ _ _ Hq)
                (get_Some _ _ _ Hg) Hne) as (A1 & A2 & A3 & A4).
    exists vq. cbn [fst snd]. split; [exact Hq|].
    rewrite !getAttribute_set_other by congruence.
    split; assumption.
  - destruct Hs as (_ & _ & _ & Hc). cbn [fst snd] in Hc.
    destruct (syncPipe_new_form d m p Hg Hc) as (e1 & e2 & E).
    rewrite E. exists vq. cbn [fst snd].
    split; [rewrite get_app_other by exact Hne; exact Hq|].
    rewrite !getAttribute_set_other by lia.
    unfold Dom.getAttribute in *. cbn [Dom.elems].
    rewrite <- app_assoc.
    rewrite !nth_error_app1 by assumption.
    split; assumption.
Qed.

Lemma sync_fold_scrolls (todo done : list Pipe.t) (st : Dom.t * PipeMap.t) :
  synced st ->
  NoDup (map Pipe.id (done ++ todo)) ->
  Forall (scrolled show st) done ->
  Forall (scrolled show (fold_left (syncPipe show namespaceURI) todo st))
    (done ++ todo).
Proof.
  revert done st. induction todo as [|p r IH]; intros done st Hs Hnd Hd.
  - simpl. rewrite app_nil_r. exact Hd.
  - cbn [fold_left].
    assert (E : done ++ p :: r = (done ++ [p]) ++ r)
      by (rewrite <- app_assoc; reflexivity).
    rewrite E in *. apply IH.
    + apply (syncPipe_synced show namespaceURI st p Hs).
    + exact Hnd.
    + apply Forall_app. split.
      * rewrite Forall_forall in *. intros q Hq.
        apply syncPipe_keeps; [exact Hs | | apply Hd, Hq].
        rewrite <- app_assoc, map_app in Hnd. cbn [app map] in Hnd.
        apply NoDup_remove_2 in Hnd. intro Eq. apply Hnd.
        apply in_or_app. left. rewrite <- Eq. apply in_map, Hq.
      * constructor; [|constructor]. apply syncPipe_scrolls, Hs.
Qed.

Lemma dropUnseen_elems (seen : list Z) (es : PipeMap.t)
    (st : option (Dom.t * PipeMap.t)) (d' : Dom.t) (m' : PipeMap.t) :
  fold_left (dropUnseen seen) es st = Some (d', m') ->
  exists d m, st = Some (d, m) /\ Dom.elems d' = Dom.elems d.
Proof.
  revert st. induction es as [|e r IH]; intros st H.
  - simpl in H. subst. eexists. eexists. split; reflexivity.
  - cbn [fold_left] in H. apply IH in H.
    destruct H as (d1 & m1 & H & E). rewrite E.
    destruct st as [[d m]|]; [|discriminate].
    exists d, m. split; [reflexivity|].
    unfold dropUnseen in H.
    destruct (negb (Pipes.has seen (fst e))); [|congruence].
    unfold Dom.removeChild in H.
    repeat match type of H with
           | context [if ?b then _ else _] => destruct b
           end; try discriminate.
    cbn [Dom.children Dom.elems] in H. inversion H. reflexivity.
Qed.

(** X24: when the rectangles the map refers to are distinct children of the
    canvas and the pipes given carry distinct ids, then after a sync that
    did not fail every pipe given has its pair of rectangles in the map, and
    the [x] attribute of both rectangles is the text of the pipe's [x]: the
    rectangles follow the pipes. *)
Theorem pipes_scrolled (st st' : Dom.t * PipeMap.t) (pipes : list Pipe.t) :
  synced st ->
  NoDup (map Pipe.id pipes) ->
  makeSyncPipes show namespaceURI st pipes = Some st' ->
  Forall (scrolled show st') pipes.
Proof.
  intros Hs Hnd H. unfold makeSyncPipes in H.
  pose proof (sync_fold_scrolls pipes [] st Hs Hnd (Forall_nil _)) as Hf.
  cbn [app] in Hf.
  destruct (sync_fold show namespaceURI pipes st Hs) as (H1 & _).
  set (st1 := fold_left (syncPipe show namespaceURI) pipes st) in *.
  destruct st1 as [d1 m1]. cbn [fst snd] in *.
  destruct (drop_fold (map Pipe.id pipes) m1 [] d1 H1)
    as (d2 & D1 & _).
  cbn [app] in D1.
  assert (E' : Some st'
               = Some (d2, filter
                             (fun kv => Pipes.has (map Pipe.id pipes) (fst kv))
                             m1))
    by (rewrite <- H; exact D1).
  inversion E'; subst st'. clear E' H.
  destruct (dropUnseen_elems _ _ _ _ _ D1) as (d0 & m0 & E0 & Hel).
  inversion E0; subst d0 m0. clear E0.
  rewrite Forall_forall in *. intros p Hp.
  destruct (Hf p Hp) as (v & Hg & Ht & Hb). cbn [fst snd] in *.
  exists v. cbn [fst snd]. split.
  - rewrite get_filter_seen; [exact Hg|].
    apply has_spec. apply in_map, Hp.
  - unfold Dom.getAttribute in *. rewrite Hel. split; assumption.
Qed.

End SyncAttributes.

(** ** Instances *)

Lemma birdOnlyCanvas_synced : synced birdOnlyCanvas.
Proof.
  unfold synced, birdOnlyCanvas. cbn [fst snd].
  split; [constructor|]. split; [constructor|].
  split; [intros h []|]. repeat constructor.
Qed.

Lemma pipes_synced_witness :
  synced birdOnlyCanvas /\
  exists d' m',
    makeSyncPipes showSample None birdOnlyCanvas (State.pipes passing)
    = Some (d', m') /\
    PipeMap.keys m' = [1; 2] /\
    In 0%nat (Dom.children d').
Proof.
  split; [exact birdOnlyCanvas_synced|].
  destruct (pipes_synced showSample None birdOnlyCanvas (State.pipes passing)
              birdOnlyCanvas_synced) as (d' & m' & E & _ & _ & _ & Hc).
  exists d', m'. split; [exact E|]. split.
  - vm_compute in E. inversion E. reflexivity.
  - apply Hc; [left; reflexivity | intros []].
Defined.

Lemma pipes_scrolled_witness :
  synced birdOnlyCanvas /\
  NoDup (map Pipe.id (State.pipes passing)) /\
  exists st',
    makeSyncPipes showSample None birdOnlyCanvas (State.pipes passing)
    = Some st' /\
    Forall (scrolled showSample st') (State.pipes passing).
Proof.
  split; [exact birdOnlyCanvas_synced|]. split; [exact passing_uniqueIds|].
  destruct (makeSyncPipes showSample None birdOnlyCanvas
              (State.pipes passing)) as [st'|] eqn:E;
    [|vm_compute in E; discriminate].
  exists st'. split; [reflexivity|].
  exact (pipes_scrolled showSample None birdOnlyCanvas st'
           (State.pipes passing) birdOnlyCanvas_synced passing_uniqueIds E).
Defined.

Lemma schedule_ignores_surrounding_space_witness :
  allWhite [Str.LF] /\ allWhite [Str.CR; Str.LF] /\
  parseMapCsv JS.StringToNumber ([Str.LF] ++ sampleCsv ++ [Str.CR; Str.LF])
  = parseMapCsv JS.StringToNumber sampleCsv.
Proof.
  assert (H1 : allWhite [Str.LF]) by (repeat constructor).
  assert (H2 : allWhite [Str.CR; Str.LF]) by (repeat constructor).
  split; [exact H1|]. split; [exact H2|].
  apply (schedule_ignores_surrounding_space JS.StringToNumber
           [Str.LF] sampleCsv [Str.CR; Str.LF] H1 H2).
Defined.

Lemma row_parsing_witness :
  Forall plainField
    [JS.units "0.5"%string; JS.units "0.25"%string; JS.units "2"%string;
     JS.units "x"%string] /\
  parseLine JS.StringToNumber (JS.units "0.5,0.25,2,x"%string)
  = SpawnSpec.mk (Fin 200) (Fin 100) (Fin 2000).
Proof.
  assert (H : Forall plainField
                [JS.units "0.5"%string; JS.units "0.25"%string;
                 JS.units "2"%string; JS.units "x"%string])
    by (repeat constructor; discriminate).
  split; [exact H|].
  pose proof (row_parsing JS.StringToNumber _ _ _ _ H) as E.
  etransitivity; [exact E|]. vm_compute. reflexivity.
Defined.

Lemma schedule_round_trip_witness :
  Forall plainLine [JS.units "h"%string; JS.units "0.5,0.25,2"%string] /\
  parseMapCsv JS.StringToNumber
    (joinLines [Str.LF] [JS.units "h"%string; JS.units "0.5,0.25,2"%string])
  = [parseLine JS.StringToNumber (JS.units "0.5,0.25,2"%string)].
Proof.
  assert (H : Forall plainLine
                [JS.units "h"%string; JS.units "0.5,0.25,2"%string]).
  { repeat constructor; try discriminate. }
  split; [exact H|].
  apply (schedule_round_trip JS.StringToNumber [Str.LF] (JS.units "h"%string)
           [JS.units "0.5,0.25,2"%string]).
  - left. split; [reflexivity | exact H].
  - reflexivity.
Defined.
